(** * Skull King scorer: the round controller, the scoring engine and the undo log

    A shallow embedding of the React component [SkullKingScorer]: its
    persisted state variables become one record, every event handler
    becomes a function on that record, and the screens that wire the
    handlers to buttons become a step relation. *)

From Stdlib Require Import ZArith NArith Lia Ascii String.
From stdpp Require Import base option list gmap strings.

Local Open Scope Z_scope.

(** ** JavaScript numbers, as far as the component uses them

    Every number the component handles is an integer or, once a property
    of a round entry is missing, [NaN].  Integers are unbounded here; the
    values of a session stay far below 2^53, where doubles are exact.
    The module [Double] further down writes the rounding out. *)

Inductive num : Type :=
  | Int (z : Z)
  | NaN.

#[global] Instance num_eq_dec : EqDecision num.
Proof. solve_decision. Defined.

Module Num.

Definition add (a b : num) : num :=
  match a, b with
  | Int x, Int y => Int (x + y)
  | _, _ => NaN
  end.

Definition sub (a b : num) : num :=
  match a, b with
  | Int x, Int y => Int (x - y)
  | _, _ => NaN
  end.

Definition mul (a b : num) : num :=
  match a, b with
  | Int x, Int y => Int (x * y)
  | _, _ => NaN
  end.

Definition neg (a : num) : num :=
  match a with
  | Int x => Int (- x)
  | NaN => NaN
  end.

(** [Math.abs], [Math.min], [Math.max]: [NaN] as soon as an argument is. *)
Definition abs (a : num) : num :=
  match a with
  | Int x => Int (Z.abs x)
  | NaN => NaN
  end.

Definition min (a b : num) : num :=
  match a, b with
  | Int x, Int y => Int (Z.min x y)
  | _, _ => NaN
  end.

Definition max (a b : num) : num :=
  match a, b with
  | Int x, Int y => Int (Z.max x y)
  | _, _ => NaN
  end.

(** Reading a number property that may be missing: [undefined] in
    arithmetic is [NaN]. *)
Definition of_field (f : option num) : num :=
  match f with
  | Some n => n
  | None => NaN
  end.

(** [a === b] on values that are numbers or [undefined]. *)
Definition strict_eq (a b : option num) : bool :=
  match a, b with
  | None, None => true
  | Some (Int x), Some (Int y) => x =? y
  | _, _ => false
  end.

(** [a !== b] on numbers. *)
Definition strict_ne (a b : num) : bool :=
  match a, b with
  | Int x, Int y => negb (x =? y)
  | _, _ => true
  end.

(** Truthiness of a boolean property that may be missing. *)
Definition truthy (b : option bool) : bool :=
  match b with
  | Some true => true
  | _ => false
  end.

End Num.

(** ** JavaScript strings

    A string is a sequence of UTF-16 code units, numbers below 2^16.
    [text] gives the code units of a literal written in ASCII. *)
Abbreviation jsString := (list N) (only parsing).

Definition text (literal : string) : jsString :=
  N_of_ascii <$> list_ascii_of_string literal.

(** ** Data model *)

Record Player : Type := mkPlayer {
  name : jsString;
  totalScore : num
}.

(** A round entry.  [setBid] builds an entry holding only [bid] when the
    index has none, so the three other properties can be missing. *)
Record PlayerRoundData : Type := mkPlayerRoundData {
  bid : Z;
  tricks : option num;
  piratesCapture : option num;
  skullKingCapture : option bool
}.

(** The object literal [{ bid: 0, tricks: 0, piratesCapture: 0,
    skullKingCapture: false }] and its general, fully defined, form. *)
Definition fullEntry (b t p : Z) (k : bool) : PlayerRoundData :=
  {| bid := b; tricks := Some (Int t); piratesCapture := Some (Int p);
     skullKingCapture := Some k |}.

Definition freshEntry : PlayerRoundData := fullEntry 0 0 0 false.

(** [RoundScore extends PlayerRoundData] with [score]. *)
Record RoundScore : Type := mkRoundScore {
  entry : PlayerRoundData;
  score : num
}.

Record GameHistoryEntry : Type := mkGameHistoryEntry {
  round : Z;
  scores : gmap Z RoundScore
}.

Inductive RoundPhase : Type := bidding | scoring | complete.

#[global] Instance Player_eq_dec : EqDecision Player.
Proof. solve_decision. Defined.
#[global] Instance PlayerRoundData_eq_dec : EqDecision PlayerRoundData.
Proof. solve_decision. Defined.
#[global] Instance RoundScore_eq_dec : EqDecision RoundScore.
Proof. solve_decision. Defined.
#[global] Instance GameHistoryEntry_eq_dec : EqDecision GameHistoryEntry.
Proof. solve_decision. Defined.
#[global] Instance RoundPhase_eq_dec : EqDecision RoundPhase.
Proof. solve_decision. Defined.

(** ** Scoring engine *)

Definition calculateScore (currentRound : Z) (data : PlayerRoundData) : num :=
  if bid data =? 0 then
    if Num.strict_eq (tricks data) (Some (Int 0)) then
      Int (currentRound * 10)
    else
      Int (- (currentRound * 10))
  else
    if Num.strict_eq (Some (Int (bid data))) (tricks data) then
      let score := Num.mul (Num.of_field (tricks data)) (Int 20) in
      let score := Num.add score (Num.mul (Num.of_field (piratesCapture data)) (Int 30)) in
      if Num.truthy (skullKingCapture data) then Num.add score (Int 50) else score
    else
      Num.mul (Num.neg (Num.abs (Num.sub (Int (bid data)) (Num.of_field (tricks data))))) (Int 10).

(** What section 4.1 of the specification prescribes, rule by rule. *)
Definition specScore (b t p : Z) (k : bool) (r : Z) : Z :=
  if (b =? 0) && (t =? 0) then 10 * r
  else if (b =? 0) && (0 <? t) then - 10 * r
  else if (0 <? b) && (b =? t) then 20 * t + 30 * p + (if k then 50 else 0)
  else - 10 * Z.abs (b - t).


(** ** Session state

    One field per persisted state variable of the component, plus the
    text of the name input, which [addPlayer] reads and clears. *)

Module PhaseSnapshot.
Record t : Type := mk {
  roundData : gmap Z PlayerRoundData;
  players : list Player;
  currentRound : Z;
  roundPhase : RoundPhase;
  gameHistory : list GameHistoryEntry
}.
End PhaseSnapshot.

#[global] Instance PhaseSnapshot_eq_dec : EqDecision PhaseSnapshot.t.
Proof. solve_decision. Defined.

Record State : Type := mkState {
  gameStarted : bool;
  players : list Player;
  playerName : jsString;
  currentRound : Z;
  roundPhase : RoundPhase;
  roundData : gmap Z PlayerRoundData;
  gameHistory : list GameHistoryEntry;
  phaseHistory : list PhaseSnapshot.t
}.

#[global] Instance State_eq_dec : EqDecision State.
Proof. solve_decision. Defined.

(** The defaults handed to [usePersistedState] and [useState]. *)
Definition initialState : State :=
  {| gameStarted := false; players := []; playerName := [];
     currentRound := 1; roundPhase := bidding; roundData := ∅;
     gameHistory := []; phaseHistory := [] |}.

(** The state setters. *)
Definition setGameStarted (v : bool) (s : State) : State :=
  mkState v (players s) (playerName s) (currentRound s) (roundPhase s)
          (roundData s) (gameHistory s) (phaseHistory s).
Definition setPlayers (v : list Player) (s : State) : State :=
  mkState (gameStarted s) v (playerName s) (currentRound s) (roundPhase s)
          (roundData s) (gameHistory s) (phaseHistory s).
Definition setPlayerName (v : jsString) (s : State) : State :=
  mkState (gameStarted s) (players s) v (currentRound s) (roundPhase s)
          (roundData s) (gameHistory s) (phaseHistory s).
Definition setCurrentRound (v : Z) (s : State) : State :=
  mkState (gameStarted s) (players s) (playerName s) v (roundPhase s)
          (roundData s) (gameHistory s) (phaseHistory s).
Definition setRoundPhase (v : RoundPhase) (s : State) : State :=
  mkState (gameStarted s) (players s) (playerName s) (currentRound s) v
          (roundData s) (gameHistory s) (phaseHistory s).
Definition setRoundData (v : gmap Z PlayerRoundData) (s : State) : State :=
  mkState (gameStarted s) (players s) (playerName s) (currentRound s)
          (roundPhase s) v (gameHistory s) (phaseHistory s).
Definition setGameHistory (v : list GameHistoryEntry) (s : State) : State :=
  mkState (gameStarted s) (players s) (playerName s) (currentRound s)
          (roundPhase s) (roundData s) v (phaseHistory s).
Definition setPhaseHistory (v : list PhaseSnapshot.t) (s : State) : State :=
  mkState (gameStarted s) (players s) (playerName s) (currentRound s)
          (roundPhase s) (roundData s) (gameHistory s) v.

(** ** Setup operations *)

(** The code points [String.prototype.trim] strips: the language's
    WhiteSpace (TAB, VT, FF, ZWNBSP U+FEFF and the Unicode space
    separators U+0020, U+00A0, U+1680, U+2000 to U+200A, U+202F, U+205F,
    U+3000) and LineTerminator (LF, CR, U+2028, U+2029).  Each is a
    single code unit, and no half of a surrogate pair is among them. *)
Definition isWhiteSpace (c : N) : bool :=
  (((9 <=? c) && (c <=? 13))
   || (c =? 32) || (c =? 160) || (c =? 5760)
   || ((8192 <=? c) && (c <=? 8202))
   || (c =? 8232) || (c =? 8233) || (c =? 8239) || (c =? 8287)
   || (c =? 12288) || (c =? 65279))%N.

Fixpoint trimStart (l : jsString) : jsString :=
  match l with
  | c :: l' => if isWhiteSpace c then trimStart l' else l
  | [] => []
  end.

(** [String.prototype.trim]: the white space is stripped from both
    ends. *)
Definition trim (v : jsString) : jsString :=
  rev (trimStart (rev (trimStart v))).

(** Truthiness of a string: it is not empty. *)
Definition nonEmpty (v : jsString) : bool :=
  match v with
  | [] => false
  | _ :: _ => true
  end.

Definition addPlayer (s : State) : State :=
  if nonEmpty (trim (playerName s)) && (length (players s) <? 6)%nat then
    setPlayerName []
      (setPlayers (players s ++ [mkPlayer (trim (playerName s)) (Int 0)]) s)
  else s.

(** [players.filter((_, i) => i !== index)]. *)
Definition removePlayer (index : nat) (s : State) : State :=
  setPlayers
    (snd <$> filter (fun ip => fst ip <> index) (imap (fun i p => (i, p)) (players s)))
    s.

(** [window.confirm] answers with [confirmed]. *)
Definition clearPlayers (confirmed : bool) (s : State) : State :=
  if confirmed then setPlayers [] s else s.

(** The [forEach] that fills a fresh record with one zero entry per
    player index. *)
Definition freshRoundData (ps : list Player) : gmap Z PlayerRoundData :=
  foldl (fun m i => <[i := freshEntry]> m) ∅ (seqZ 0 (Z.of_nat (length ps))).

Definition startGame (s : State) : State :=
  if (2 <=? length (players s))%nat then
    setPhaseHistory [] (setGameStarted true (setRoundData (freshRoundData (players s)) s))
  else s.

(** ** Per-player operations *)

(** [{ ...prev[playerIndex], bid: value }]: spreading [undefined] adds
    nothing, so a missing entry yields an object with [bid] alone. *)
Definition withBid (current : option PlayerRoundData) (value : Z) : PlayerRoundData :=
  match current with
  | Some d =>
      {| bid := value; tricks := tricks d; piratesCapture := piratesCapture d;
         skullKingCapture := skullKingCapture d |}
  | None =>
      {| bid := value; tricks := None; piratesCapture := None;
         skullKingCapture := None |}
  end.

Definition setBid (playerIndex value : Z) (s : State) : State :=
  setRoundData
    (<[playerIndex := withBid (roundData s !! playerIndex) value]> (roundData s)) s.

Definition updateTricks (playerIndex delta : Z) (s : State) : State :=
  match roundData s !! playerIndex with
  | None => s
  | Some current =>
      setRoundData
        (<[playerIndex :=
             {| bid := bid current;
                tricks := Some (Num.max (Int 0)
                                  (Num.min (Int (currentRound s))
                                     (Num.add (Num.of_field (tricks current)) (Int delta))));
                piratesCapture := piratesCapture current;
                skullKingCapture := skullKingCapture current |}]> (roundData s)) s
  end.

Definition updatePiratesCapture (playerIndex delta : Z) (s : State) : State :=
  match roundData s !! playerIndex with
  | None => s
  | Some current =>
      setRoundData
        (<[playerIndex :=
             {| bid := bid current;
                tricks := tricks current;
                piratesCapture := Some (Num.max (Int 0)
                                          (Num.min (Int 5)
                                             (Num.add (Num.of_field (piratesCapture current)) (Int delta))));
                skullKingCapture := skullKingCapture current |}]> (roundData s)) s
  end.

Definition toggleSkullKingCapture (playerIndex : Z) (s : State) : State :=
  match roundData s !! playerIndex with
  | None => s
  | Some current =>
      setRoundData
        (<[playerIndex :=
             {| bid := bid current;
                tricks := tricks current;
                piratesCapture := piratesCapture current;
                skullKingCapture := Some (negb (Num.truthy (skullKingCapture current))) |}]>
           (roundData s)) s
  end.

(** ** Undo log *)

(** The object spreads [{ ...p }], [{ ...v }] and the
    [Object.fromEntries(Object.entries(m).map(([k, v]) => [k, { ...v }]))]
    idiom: each builds a new object with the same properties. *)
Definition copyPlayer (p : Player) : Player :=
  {| name := name p; totalScore := totalScore p |}.

Definition copyPlayerRoundData (v : PlayerRoundData) : PlayerRoundData :=
  {| bid := bid v; tricks := tricks v; piratesCapture := piratesCapture v;
     skullKingCapture := skullKingCapture v |}.

Definition copyRoundScore (v : RoundScore) : RoundScore :=
  {| entry := copyPlayerRoundData (entry v); score := score v |}.

Definition copyRoundData (m : gmap Z PlayerRoundData) : gmap Z PlayerRoundData :=
  list_to_map ((fun kv => (fst kv, copyPlayerRoundData (snd kv))) <$> map_to_list m).

Definition copyScores (m : gmap Z RoundScore) : gmap Z RoundScore :=
  list_to_map ((fun kv => (fst kv, copyRoundScore (snd kv))) <$> map_to_list m).

Definition copyHistoryEntry (e : GameHistoryEntry) : GameHistoryEntry :=
  {| round := round e; scores := copyScores (scores e) |}.

Definition copyPlayers (ps : list Player) : list Player := copyPlayer <$> ps.

Definition copyHistory (h : list GameHistoryEntry) : list GameHistoryEntry :=
  copyHistoryEntry <$> h.

(** [[...phaseHistory, snapshot]], then [shift()] once the length exceeds
    20.  Both [savePhaseSnapshot] and [finishRound] push this way. *)
Definition pushSnapshot (snapshot : PhaseSnapshot.t) (log : list PhaseSnapshot.t)
  : list PhaseSnapshot.t :=
  let newHistory := log ++ [snapshot] in
  if (20 <? length newHistory)%nat then tail newHistory else newHistory.

Definition savePhaseSnapshot (s : State) : State :=
  let snapshot :=
    {| PhaseSnapshot.roundData := copyRoundData (roundData s);
       PhaseSnapshot.players := copyPlayers (players s);
       PhaseSnapshot.currentRound := currentRound s;
       PhaseSnapshot.roundPhase := roundPhase s;
       PhaseSnapshot.gameHistory := copyHistory (gameHistory s) |} in
  let newHistory := pushSnapshot snapshot (phaseHistory s) in
  setPhaseHistory newHistory s.

(** [newHistory.pop()] on a copy of the log: the last snapshot and the
    log without it. *)
Definition popSnapshot (log : list PhaseSnapshot.t)
  : option (PhaseSnapshot.t * list PhaseSnapshot.t) :=
  match last log with
  | Some snapshot => Some (snapshot, removelast log)
  | None => None
  end.

Definition performUndo (s : State) : State :=
  if (length (phaseHistory s) =? 0)%nat then s
  else
    match popSnapshot (phaseHistory s) with
    | None => s
    | Some (snapshot, newHistory) =>
        setGameHistory (copyHistory (PhaseSnapshot.gameHistory snapshot))
          (setRoundPhase (PhaseSnapshot.roundPhase snapshot)
             (setCurrentRound (PhaseSnapshot.currentRound snapshot)
                (setPlayers (copyPlayers (PhaseSnapshot.players snapshot))
                   (setRoundData (copyRoundData (PhaseSnapshot.roundData snapshot))
                      (setPhaseHistory newHistory s)))))
    end.

(** ** Round transitions *)

Definition confirmBids (s : State) : State :=
  setRoundPhase scoring (savePhaseSnapshot s).

(** [Object.values(roundData).reduce((sum, data) => sum + data.tricks, 0)].
    The order in which the values come does not matter to the sum. *)
Definition totalTricks (m : gmap Z PlayerRoundData) : num :=
  foldl (fun sum data => Num.add sum (Num.of_field (tricks data))) (Int 0)
        (snd <$> map_to_list m).

(** [gameHistory.findIndex(entry => entry.round === currentRound)]; the
    source's -1 is [None]. *)
Definition findRoundIndex (r : Z) (h : list GameHistoryEntry) : option nat :=
  fst <$> list_find (fun e => round e = r) h.

(** [entry.scores[i]?.score ?? 0]. *)
Definition scoreAt (i : Z) (e : GameHistoryEntry) : num :=
  match scores e !! i with
  | Some rs => score rs
  | None => Int 0
  end.

(** [previousRounds.reduce((sum, entry) => sum + ..., 0)]. *)
Definition sumScores (i : Z) (h : list GameHistoryEntry) : num :=
  foldl (fun sum e => Num.add sum (scoreAt i e)) (Int 0) h.

(** The history without the entry found for the current round. *)
Definition previousRounds (existingRoundIndex : option nat) (h : list GameHistoryEntry)
  : list GameHistoryEntry :=
  match existingRoundIndex with
  | Some k => take k h ++ drop (S k) h
  | None => h
  end.

(** The callback of [players.map]: it fills [roundScores] on the way and
    throws a [TypeError] ([None]) when player [i] has no round entry,
    since [calculateScore] destructures its argument. *)
Fixpoint scorePlayers (r : Z) (m : gmap Z PlayerRoundData)
    (prev : list GameHistoryEntry) (i : nat) (ps : list Player)
    (roundScores : gmap Z RoundScore)
  : option (list Player * gmap Z RoundScore) :=
  match ps with
  | [] => Some ([], roundScores)
  | player :: rest =>
      match m !! Z.of_nat i with
      | None => None
      | Some data =>
          let score := calculateScore r data in
          let roundScores := <[Z.of_nat i := mkRoundScore data score]> roundScores in
          let previousTotal := sumScores (Z.of_nat i) prev in
          let total := Num.add previousTotal score in
          match scorePlayers r m prev (S i) rest roundScores with
          | None => None
          | Some (updated, roundScores') =>
              Some ({| name := name player; totalScore := total |} :: updated,
                    roundScores')
          end
      end
  end.

(** Replace the entry found, or append. *)
Definition updateHistory (existingRoundIndex : option nat) (e : GameHistoryEntry)
    (h : list GameHistoryEntry) : list GameHistoryEntry :=
  match existingRoundIndex with
  | Some k => take k h ++ [e] ++ drop (S k) h
  | None => h ++ [e]
  end.

(** How a call of [finishRound] ends: with the alert and nothing set,
    with an exception thrown before anything is set, or with the setters
    applied. *)
Inductive FinishResult : Type :=
  | ValidationAlert (total : num) (r : Z)
  | TypeError
  | Finished (s' : State).

Definition finishRound (s : State) : FinishResult :=
  let total := totalTricks (roundData s) in
  if Num.strict_ne total (Int (currentRound s)) then
    ValidationAlert total (currentRound s)
  else
    let existingRoundIndex := findRoundIndex (currentRound s) (gameHistory s) in
    match scorePlayers (currentRound s) (roundData s)
            (previousRounds existingRoundIndex (gameHistory s)) 0 (players s) ∅ with
    | None => TypeError
    | Some (updatedPlayers, roundScores) =>
        let updatedHistory :=
          updateHistory existingRoundIndex
            {| round := currentRound s; scores := roundScores |} (gameHistory s) in
        let s1 := setPlayers updatedPlayers (setGameHistory updatedHistory s) in
        if currentRound s <? 10 then
          let snapshot :=
            {| PhaseSnapshot.roundData := copyRoundData (roundData s);
               PhaseSnapshot.players := copyPlayers updatedPlayers;
               PhaseSnapshot.currentRound := currentRound s;
               PhaseSnapshot.roundPhase := scoring;
               PhaseSnapshot.gameHistory := copyHistory updatedHistory |} in
          Finished
            (setRoundPhase bidding
               (setCurrentRound (currentRound s + 1)
                  (setRoundData (freshRoundData updatedPlayers)
                     (setPhaseHistory (pushSnapshot snapshot (phaseHistory s)) s1))))
        else
          Finished (setRoundPhase complete s1)
    end.

(** The session after a call of [finishRound]. *)
Definition afterFinishRound (s : State) : State :=
  match finishRound s with
  | Finished s' => s'
  | ValidationAlert _ _ | TypeError => s
  end.

Definition resetGame (s : State) : State :=
  setPhaseHistory []
    (setGameHistory []
       (setRoundData ∅
          (setRoundPhase bidding
             (setCurrentRound 1
                (setGameStarted false
                   (setPlayers
                      ((fun p => {| name := name p; totalScore := Int 0 |}) <$> players s)
                      s)))))).

Definition endGameEarly (confirmed : bool) (s : State) : State :=
  if confirmed then setRoundPhase complete s else s.

(** ** The screens and the events they offer

    The component renders one of four screens, and each screen wires
    some handlers to its buttons.  The arguments of the per-player
    handlers are left free: the relation offers at least every call the
    rendered buttons can make. *)

Inductive Screen : Type :=
  | SetupScreen
  | CompleteScreen
  | BiddingScreen
  | ScoringScreen.

Definition screen (s : State) : Screen :=
  if negb (gameStarted s) then SetupScreen
  else
    match roundPhase s with
    | complete => CompleteScreen
    | bidding => BiddingScreen
    | scoring => ScoringScreen
    end.

Inductive Event : Type :=
  | TypeName (v : jsString)
  | AddPlayer
  | RemovePlayer (index : nat)
  | ClearPlayers (confirmed : bool)
  | StartGame
  | SetBid (playerIndex value : Z)
  | UpdateTricks (playerIndex delta : Z)
  | UpdatePiratesCapture (playerIndex delta : Z)
  | ToggleSkullKingCapture (playerIndex : Z)
  | ConfirmBids
  | FinishRound
  | Undo
  | EndGameEarly (confirmed : bool)
  | ResetGame.

Definition handle (e : Event) (s : State) : State :=
  match e with
  | TypeName v => setPlayerName v s
  | AddPlayer => addPlayer s
  | RemovePlayer index => removePlayer index s
  | ClearPlayers confirmed => clearPlayers confirmed s
  | StartGame => startGame s
  | SetBid i v => setBid i v s
  | UpdateTricks i d => updateTricks i d s
  | UpdatePiratesCapture i d => updatePiratesCapture i d s
  | ToggleSkullKingCapture i => toggleSkullKingCapture i s
  | ConfirmBids => confirmBids s
  | FinishRound => afterFinishRound s
  | Undo => performUndo s
  | EndGameEarly confirmed => endGameEarly confirmed s
  | ResetGame => resetGame s
  end.

Definition offered (s : State) (e : Event) : bool :=
  match screen s, e with
  | SetupScreen, (TypeName _ | AddPlayer) => true
  | SetupScreen, RemovePlayer index => (index <? length (players s))%nat
  | SetupScreen, ClearPlayers _ => (0 <? length (players s))%nat
  | SetupScreen, StartGame => (2 <=? length (players s))%nat
  | CompleteScreen, ResetGame => true
  | (BiddingScreen | ScoringScreen), Undo => (0 <? length (phaseHistory s))%nat
  | (BiddingScreen | ScoringScreen), (EndGameEarly _ | SetBid _ _) => true
  | BiddingScreen, ConfirmBids => true
  | ScoringScreen,
    (UpdateTricks _ _ | UpdatePiratesCapture _ _ | ToggleSkullKingCapture _
     | FinishRound) => true
  | _, _ => false
  end.

Inductive reachable : State -> Prop :=
  | reachable_init : reachable initialState
  | reachable_step s e :
      reachable s -> offered s e = true -> reachable (handle e s).

(** The position a snapshot can take in the undo log: one checkpoint
    before each round's scoring and one after it. *)
Definition checkpoints (phase : RoundPhase) (r : Z) : Z :=
  match phase with
  | bidding => 2 * (r - 1)
  | scoring => 2 * r - 1
  | complete => 19
  end.

(** At most one history entry per round number. *)
Definition uniqueRounds (h : list GameHistoryEntry) : Prop :=
  NoDup (round <$> h).

Record Invariant (s : State) : Prop := mkInvariant {
  inv_round : 1 <= currentRound s <= 10;
  inv_setup :
    gameStarted s = false ->
    currentRound s = 1 /\ roundPhase s = bidding /\ phaseHistory s = [];
  inv_log :
    Z.of_nat (length (phaseHistory s)) <= checkpoints (roundPhase s) (currentRound s);
  inv_snapshots :
    forall k snap,
      phaseHistory s !! k = Some snap ->
      1 <= PhaseSnapshot.currentRound snap <= 10 /\
      PhaseSnapshot.roundPhase snap <> complete /\
      Z.of_nat k
      <= checkpoints (PhaseSnapshot.roundPhase snap) (PhaseSnapshot.currentRound snap);
  inv_history : uniqueRounds (gameHistory s);
  inv_snapshot_history :
    forall snap, snap ∈ phaseHistory s -> uniqueRounds (PhaseSnapshot.gameHistory snap)
}.

(** ** Sequences of pushes and pops, and the states used as examples *)

Definition pushAll (snaps log : list PhaseSnapshot.t) : list PhaseSnapshot.t :=
  foldl (fun l snapshot => pushSnapshot snapshot l) log snaps.

(** Pop up to [n] times, collecting what comes out. *)
Fixpoint popAll (n : nat) (log : list PhaseSnapshot.t) : list PhaseSnapshot.t :=
  match n with
  | O => []
  | S n' =>
      match popSnapshot log with
      | Some (snapshot, log') => snapshot :: popAll n' log'
      | None => []
      end
  end.

(** What the live session holds, as a snapshot. *)
Definition contents (s : State) : PhaseSnapshot.t :=
  {| PhaseSnapshot.roundData := roundData s;
     PhaseSnapshot.players := players s;
     PhaseSnapshot.currentRound := currentRound s;
     PhaseSnapshot.roundPhase := roundPhase s;
     PhaseSnapshot.gameHistory := gameHistory s |}.

(** The three-player scenario of the specification: round 1 in its
    scoring phase, everybody bid 0 and nobody has a trick yet. *)
Definition crew : list Player :=
  [mkPlayer (text "A") (Int 0); mkPlayer (text "B") (Int 0); mkPlayer (text "C") (Int 0)].

Definition roundOneScoring (entries : list (Z * PlayerRoundData)) : State :=
  {| gameStarted := true; players := crew; playerName := [];
     currentRound := 1; roundPhase := scoring;
     roundData := list_to_map entries;
     gameHistory := [];
     phaseHistory :=
       [ {| PhaseSnapshot.roundData := freshRoundData crew;
            PhaseSnapshot.players := crew;
            PhaseSnapshot.currentRound := 1;
            PhaseSnapshot.roundPhase := bidding;
            PhaseSnapshot.gameHistory := [] |} ] |}.

Definition noTricksYet : State :=
  roundOneScoring [(0, freshEntry); (1, freshEntry); (2, freshEntry)].


(** Two players bidding in round 1. *)
Definition twoBidders : State :=
  {| gameStarted := true;
     players := [mkPlayer (text "A") (Int 0); mkPlayer (text "B") (Int 0)];
     playerName := [];
     currentRound := 1; roundPhase := bidding;
     roundData := list_to_map [(0, freshEntry); (1, freshEntry)];
     gameHistory := []; phaseHistory := [] |}.

(** A snapshot recognisable by its round number. *)
Definition snapshotAt (r : Z) : PhaseSnapshot.t :=
  {| PhaseSnapshot.roundData := ∅;
     PhaseSnapshot.players := [];
     PhaseSnapshot.currentRound := r;
     PhaseSnapshot.roundPhase := bidding;
     PhaseSnapshot.gameHistory := [] |}.

(** Running a script of events, and checking that each one is offered
    by the screen it meets. *)
Definition run (es : list Event) (s : State) : State :=
  foldl (fun st e => handle e st) s es.

Fixpoint allOffered (es : list Event) (s : State) : bool :=
  match es with
  | [] => true
  | e :: es' => offered s e && allOffered es' (handle e s)
  end.

(** Two players sit down and start the game. *)
Definition sitDown : list Event :=
  [TypeName (text "A"); AddPlayer; TypeName (text "B"); AddPlayer; StartGame].

(** A round in which A bids [bidA] and takes [tricksA] tricks, B bids
    [bidB] and takes [tricksB], up to the end of its scoring. *)
Definition playRound (bidA tricksA bidB tricksB : Z) : list Event :=
  [SetBid 0 bidA; SetBid 1 bidB; ConfirmBids;
   UpdateTricks 0 tricksA; UpdateTricks 1 tricksB].

(** Round 1 finished once, then undone back to the end of its scoring:
    the history already holds an entry for round 1. *)
Definition roundOneAgain : State :=
  run (sitDown ++ playRound 0 0 1 1 ++ [FinishRound; Undo]) initialState.

(** Round 5 under way, two players. *)
Definition midGame : State :=
  {| gameStarted := true;
     players := [mkPlayer (text "A") (Int 60); mkPlayer (text "B") (Int (-20))];
     playerName := [];
     currentRound := 5; roundPhase := scoring;
     roundData := list_to_map [(0, fullEntry 2 2 0 false); (1, fullEntry 1 3 0 false)];
     gameHistory := []; phaseHistory := [] |}.

(** The claim made of [startGame]. *)
Definition startGame_resets_round (s : State) : Prop :=
  roundData (startGame s) = freshRoundData (players s) /\
  currentRound (startGame s) = 1 /\
  roundPhase (startGame s) = bidding /\
  phaseHistory (startGame s) = [] /\
  gameStarted (startGame s) = true.

(** Three rounds played to the end; then undo back to the end of round 2
    (through both checkpoints of round 3), move a trick from B to A in
    round 2 and finish it again, and play round 3 with other bids. *)
Definition replay : list Event :=
  sitDown
  ++ playRound 0 0 1 1 ++ [FinishRound]
  ++ playRound 1 1 1 1 ++ [FinishRound]
  ++ playRound 2 2 1 1 ++ [FinishRound]
  ++ [Undo; Undo; Undo]
  ++ [UpdateTricks 0 1; UpdateTricks 1 (-1); FinishRound]
  ++ playRound 0 0 3 3 ++ [FinishRound].

(** Six players waiting for the game to start, a seventh name typed. *)
Definition fullCrew : State :=
  run [TypeName (text "A"); AddPlayer; TypeName (text "B"); AddPlayer; TypeName (text "C"); AddPlayer;
       TypeName (text "D"); AddPlayer; TypeName (text "E"); AddPlayer; TypeName (text "F"); AddPlayer;
       TypeName (text "G")] initialState.

(** Two players waiting for the game to start. *)
Definition crewOfTwo : State :=
  run [TypeName (text "A"); AddPlayer; TypeName (text "B"); AddPlayer] initialState.

(** ** Object identity

    The pure model above cannot tell a copy from its original.  To speak
    about aliasing, this module gives every object and array an address
    and makes every spread, [map] and [Object.fromEntries] allocate: the
    functions take the next free address and return it advanced.  The
    temporary arrays of [Object.entries] are dropped at once and are not
    tracked. *)

Module Alloc.

Definition loc : Type := nat.

Record obj (A : Type) : Type := Obj { addr : loc; val : A }.
Arguments Obj {A} addr val.
Arguments addr {A} o.
Arguments val {A} o.

(** An array of player objects; a record from player index to
    objects, in [Object.entries] order; a history entry; the history. *)
Definition Players : Type := obj (list (obj Player)).
Definition Rec (A : Type) : Type := obj (list (Z * obj A)).
Definition HistoryEntry : Type := obj (Z * Rec RoundScore).
Definition History : Type := obj (list HistoryEntry).

(** The five variables a snapshot captures. *)
Record Fields : Type := mkFields {
  roundData : Rec PlayerRoundData;
  players : Players;
  currentRound : Z;
  roundPhase : RoundPhase;
  gameHistory : History
}.

Record Store : Type := mkStore {
  gameStarted : bool;
  playerName : jsString;
  live : Fields;
  phaseHistory : obj (list (obj Fields))
}.

(** *** Allocation *)

(** [{ ...o }] *)
Definition cloneObj {A} (o : obj A) (n : loc) : obj A * loc :=
  (Obj n (val o), S n).

Fixpoint cloneList {A B} (f : A -> loc -> B * loc) (l : list A) (n : loc)
  : list B * loc :=
  match l with
  | [] => ([], n)
  | x :: l' =>
      let '(y, n1) := f x n in
      let '(ys, n2) := cloneList f l' n1 in
      (y :: ys, n2)
  end.

(** [ps.map(p => ({ ...p }))] *)
Definition clonePlayers (ps : Players) (n : loc) : Players * loc :=
  let '(l, n1) := cloneList cloneObj (val ps) (S n) in
  (Obj n l, n1).

Definition cloneField {A} (kv : Z * obj A) (n : loc) : (Z * obj A) * loc :=
  let '(v, n1) := cloneObj (snd kv) n in
  ((fst kv, v), n1).

(** [Object.fromEntries(Object.entries(r).map(([k, v]) => [k, { ...v }]))] *)
Definition cloneRec {A} (r : Rec A) (n : loc) : Rec A * loc :=
  let '(l, n1) := cloneList cloneField (val r) n in
  (Obj n1 l, S n1).

(** [{ ...entry, scores: ... }] *)
Definition cloneHistoryEntry (e : HistoryEntry) (n : loc) : HistoryEntry * loc :=
  let '(sc, n1) := cloneRec (snd (val e)) n in
  (Obj n1 (fst (val e), sc), S n1).

Definition cloneHistory (h : History) (n : loc) : History * loc :=
  let '(l, n1) := cloneList cloneHistoryEntry (val h) (S n) in
  (Obj n l, n1).

Definition savePhaseSnapshot (st : Store) (n : loc) : Store * loc :=
  let '(rd, n1) := cloneRec (roundData (live st)) n in
  let '(ps, n2) := clonePlayers (players (live st)) n1 in
  let '(gh, n3) := cloneHistory (gameHistory (live st)) n2 in
  let snapshot :=
    Obj n3 {| roundData := rd; players := ps;
              currentRound := currentRound (live st);
              roundPhase := roundPhase (live st);
              gameHistory := gh |} in
  let newHistory := val (phaseHistory st) ++ [snapshot] in
  let newHistory :=
    if (20 <? length newHistory)%nat then tail newHistory else newHistory in
  ({| gameStarted := gameStarted st; playerName := playerName st;
      live := live st; phaseHistory := Obj (S n3) newHistory |},
   S (S n3)).

Definition performUndo (st : Store) (n : loc) : Store * loc :=
  if (length (val (phaseHistory st)) =? 0)%nat then (st, n)
  else
    match last (val (phaseHistory st)) with
    | None => (st, n)
    | Some snapshot =>
        let newHistory := Obj n (removelast (val (phaseHistory st))) in
        let '(rd, n1) := cloneRec (roundData (val snapshot)) (S n) in
        let '(ps, n2) := clonePlayers (players (val snapshot)) n1 in
        let '(gh, n3) := cloneHistory (gameHistory (val snapshot)) n2 in
        ({| gameStarted := gameStarted st; playerName := playerName st;
            live := {| roundData := rd; players := ps;
                       currentRound := currentRound (val snapshot);
                       roundPhase := roundPhase (val snapshot);
                       gameHistory := gh |};
            phaseHistory := newHistory |},
         n3)
    end.

(** *** The addresses a value holds *)

Definition locsPlayers (ps : Players) : list loc :=
  addr ps :: (addr <$> val ps).

Definition locsRec {A} (r : Rec A) : list loc :=
  addr r :: ((fun kv => addr (snd kv)) <$> val r).

Definition locsHistoryEntry (e : HistoryEntry) : list loc :=
  addr e :: locsRec (snd (val e)).

Definition locsHistory (h : History) : list loc :=
  addr h :: concat (locsHistoryEntry <$> val h).

Definition locsFields (f : Fields) : list loc :=
  locsRec (roundData f) ++ locsPlayers (players f) ++ locsHistory (gameHistory f).

Definition locsSnapshot (snap : obj Fields) : list loc :=
  addr snap :: locsFields (val snap).

Definition locsState (st : Store) : list loc :=
  locsFields (live st)
  ++ addr (phaseHistory st) :: concat (locsSnapshot <$> val (phaseHistory st)).

(** Every address of [l] lies in [[lo, hi)]. *)
Definition within (lo hi : loc) (l : list loc) : Prop :=
  Forall (fun a => (lo <= a < hi)%nat) l.

(** *** Forgetting the addresses *)

Definition eraseRec {A} (r : Rec A) : gmap Z A :=
  list_to_map ((fun kv => (fst kv, val (snd kv))) <$> val r).

Definition erasePlayers (ps : Players) : list Player := val <$> val ps.

Definition eraseHistoryEntry (e : HistoryEntry) : GameHistoryEntry :=
  {| round := fst (val e); scores := eraseRec (snd (val e)) |}.

Definition eraseHistory (h : History) : list GameHistoryEntry :=
  eraseHistoryEntry <$> val h.

Definition eraseSnapshot (f : Fields) : PhaseSnapshot.t :=
  {| PhaseSnapshot.roundData := eraseRec (roundData f);
     PhaseSnapshot.players := erasePlayers (players f);
     PhaseSnapshot.currentRound := currentRound f;
     PhaseSnapshot.roundPhase := roundPhase f;
     PhaseSnapshot.gameHistory := eraseHistory (gameHistory f) |}.

Definition erase (st : Store) : State :=
  mkState (gameStarted st)
          (erasePlayers (players (live st)))
          (playerName st)
          (currentRound (live st))
          (roundPhase (live st))
          (eraseRec (roundData (live st)))
          (eraseHistory (gameHistory (live st)))
          ((fun snap => eraseSnapshot (val snap)) <$> val (phaseHistory st)).

(** *** Loading a session

    [JSON.parse] in [usePersistedState] builds every object anew. *)

Definition loadObj {A} (v : A) (n : loc) : obj A * loc := (Obj n v, S n).

Definition loadField {A} (kv : Z * A) (n : loc) : (Z * obj A) * loc :=
  ((fst kv, Obj n (snd kv)), S n).

Definition loadRec {A} (m : gmap Z A) (n : loc) : Rec A * loc :=
  let '(l, n1) := cloneList loadField (map_to_list m) (S n) in
  (Obj n l, n1).

Definition loadPlayers (ps : list Player) (n : loc) : Players * loc :=
  let '(l, n1) := cloneList loadObj ps (S n) in
  (Obj n l, n1).

Definition loadHistoryEntry (e : GameHistoryEntry) (n : loc) : HistoryEntry * loc :=
  let '(sc, n1) := loadRec (scores e) (S n) in
  (Obj n (round e, sc), n1).

Definition loadHistory (h : list GameHistoryEntry) (n : loc) : History * loc :=
  let '(l, n1) := cloneList loadHistoryEntry h (S n) in
  (Obj n l, n1).

Definition loadFields (f : PhaseSnapshot.t) (n : loc) : Fields * loc :=
  let '(rd, n1) := loadRec (PhaseSnapshot.roundData f) n in
  let '(ps, n2) := loadPlayers (PhaseSnapshot.players f) n1 in
  let '(gh, n3) := loadHistory (PhaseSnapshot.gameHistory f) n2 in
  ({| roundData := rd; players := ps;
      currentRound := PhaseSnapshot.currentRound f;
      roundPhase := PhaseSnapshot.roundPhase f;
      gameHistory := gh |}, n3).

Definition loadSnapshot (f : PhaseSnapshot.t) (n : loc) : obj Fields * loc :=
  let '(fs, n1) := loadFields f (S n) in
  (Obj n fs, n1).

Definition load (s : State) (n : loc) : Store * loc :=
  match s with
  | mkState started _ typed _ _ _ _ log =>
      let '(fs, n1) := loadFields (contents s) n in
      let '(snaps, n2) := cloneList loadSnapshot log (S n1) in
      ({| gameStarted := started; playerName := typed; live := fs;
          phaseHistory := Obj n1 snaps |}, n2)
  end.

End Alloc.

(** ** The buttons, exactly

    [offered] leaves the arguments of the per-player handlers free.
    [clickable] follows the rendering code to the letter: one bid button
    per number from 0 to the round number for each player, steppers
    that are disabled at their bounds, and the bonus controls shown only
    once a positive bid is met.  [addPlayer] stays within reach whatever
    the input holds: the + button is disabled for a blank name or a
    full crew, the Enter key of the input is not. *)

(** [0 <= i < players.length], for the index of [players.map]. *)
Definition isPlayerIndex (s : State) (i : Z) : bool :=
  (0 <=? i) && (i <? Z.of_nat (length (players s))).

(** [value <= min] and [value >= max] in [NumberStepper]: false when the
    value is [undefined] or [NaN]. *)
Definition atMost (value : option num) (bound : Z) : bool :=
  match value with
  | Some (Int x) => x <=? bound
  | _ => false
  end.

Definition atLeast (value : option num) (bound : Z) : bool :=
  match value with
  | Some (Int x) => bound <=? x
  | _ => false
  end.

(** A stepper button for [delta]: the minus button is disabled when
    [value <= min], the plus button when [value >= max]. *)
Definition stepperEnabled (value : option num) (min max delta : Z) : bool :=
  ((delta =? -1) && negb (atMost value min))
  || ((delta =? 1) && negb (atLeast value max)).

(** [bidMet && data.bid > 0] *)
Definition bonusShown (data : PlayerRoundData) : bool :=
  Num.strict_eq (Some (Int (bid data))) (tricks data) && (0 <? bid data).

(** The bid buttons: [[...Array(currentRound + 1)].map((_, num) => ...)]. *)
Definition bidOffered (s : State) (i value : Z) : bool :=
  isPlayerIndex s i && (0 <=? value) && (value <=? currentRound s).

Definition clickable (s : State) (e : Event) : bool :=
  match screen s, e with
  | SetupScreen, (TypeName _ | AddPlayer) => true
  | SetupScreen, RemovePlayer index => (index <? length (players s))%nat
  | SetupScreen, ClearPlayers _ => (0 <? length (players s))%nat
  | SetupScreen, StartGame => (2 <=? length (players s))%nat
  | CompleteScreen, ResetGame => true
  | (BiddingScreen | ScoringScreen), Undo => (0 <? length (phaseHistory s))%nat
  | (BiddingScreen | ScoringScreen), EndGameEarly _ => true
  | (BiddingScreen | ScoringScreen), SetBid i value => bidOffered s i value
  | BiddingScreen, ConfirmBids => true
  | ScoringScreen, UpdateTricks i delta =>
      isPlayerIndex s i &&
      match roundData s !! i with
      | Some data => stepperEnabled (tricks data) 0 (currentRound s) delta
      | None => false
      end
  | ScoringScreen, UpdatePiratesCapture i delta =>
      isPlayerIndex s i &&
      match roundData s !! i with
      | Some data => bonusShown data && stepperEnabled (piratesCapture data) 0 5 delta
      | None => false
      end
  | ScoringScreen, ToggleSkullKingCapture i =>
      isPlayerIndex s i &&
      match roundData s !! i with
      | Some data => bonusShown data
      | None => false
      end
  | ScoringScreen, FinishRound => true
  | _, _ => false
  end.

(** The states a user can bring about. *)
Inductive played : State -> Prop :=
  | played_init : played initialState
  | played_step s e :
      played s -> clickable s e = true -> played (handle e s).

Fixpoint allClickable (es : list Event) (s : State) : bool :=
  match es with
  | [] => true
  | e :: es' => clickable s e && allClickable es' (handle e s)
  end.

(** ** Invariants of the session *)

(** The crew: at most 6 players, at least 2 once the game runs, nobody
    without a name, and the same names in every snapshot. *)
Record CrewInvariant (s : State) : Prop := mkCrewInvariant {
  crew_size : (length (players s) <= 6)%nat;
  crew_started : gameStarted s = true -> (2 <= length (players s))%nat;
  crew_names : Forall (fun p => name p <> []) (players s);
  crew_snapshots :
    forall snap, snap ∈ phaseHistory s ->
      name <$> PhaseSnapshot.players snap = name <$> players s
}.

(** The rounds a history of a session in round [r] holds: 1 to [r - 1],
    or 1 to [r] once round [r] has been scored. *)
Definition roundsUpTo (k : Z) (h : list GameHistoryEntry) : Prop :=
  round <$> h = seqZ 1 k.

Record HistoryShape (s : State) : Prop := mkHistoryShape {
  shape_live :
    roundsUpTo (currentRound s - 1) (gameHistory s) \/
    (roundPhase s <> bidding /\ roundsUpTo (currentRound s) (gameHistory s));
  shape_snapshots :
    forall snap, snap ∈ phaseHistory s ->
      match PhaseSnapshot.roundPhase snap with
      | bidding =>
          roundsUpTo (PhaseSnapshot.currentRound snap - 1) (PhaseSnapshot.gameHistory snap)
      | _ =>
          roundsUpTo (PhaseSnapshot.currentRound snap) (PhaseSnapshot.gameHistory snap)
      end
}.

(** Every total is the sum of the player's scores in the history. *)
Definition totalsMatch (ps : list Player) (h : list GameHistoryEntry) : Prop :=
  forall (i : nat) (p : Player),
    ps !! i = Some p -> totalScore p = sumScores (Z.of_nat i) h.

Record TotalsInvariant (s : State) : Prop := mkTotalsInvariant {
  totals_setup :
    gameStarted s = false ->
    gameHistory s = [] /\ Forall (fun p => totalScore p = Int 0) (players s);
  totals_live : totalsMatch (players s) (gameHistory s);
  totals_snapshots :
    forall snap, snap ∈ phaseHistory s ->
      totalsMatch (PhaseSnapshot.players snap) (PhaseSnapshot.gameHistory snap)
}.

(** Round data as the buttons leave it: one entry per player index and
    no other, each with every property defined, the bid and the tricks
    between 0 and the round number, the pirates between 0 and 5. *)
Definition entryInBounds (r : Z) (d : PlayerRoundData) : Prop :=
  exists t p k,
    d = fullEntry (bid d) t p k /\
    0 <= bid d <= r /\ 0 <= t <= r /\ 0 <= p <= 5.

Record RoundDataOk (r : Z) (n : nat) (m : gmap Z PlayerRoundData) : Prop :=
  mkRoundDataOk {
  ok_keys : forall i, is_Some (m !! i) <-> 0 <= i < Z.of_nat n;
  ok_entries : forall i d, m !! i = Some d -> entryInBounds r d
}.

(** Every score a history holds is an integer. *)
Definition integerScores (h : list GameHistoryEntry) : Prop :=
  forall e i rs, e ∈ h -> scores e !! i = Some rs -> exists z, score rs = Int z.

Record PlayedInvariant (s : State) : Prop := mkPlayedInvariant {
  played_data :
    gameStarted s = true ->
    RoundDataOk (currentRound s) (length (players s)) (roundData s);
  played_scores : integerScores (gameHistory s);
  played_snapshots :
    forall snap, snap ∈ phaseHistory s ->
      RoundDataOk (PhaseSnapshot.currentRound snap)
                  (length (PhaseSnapshot.players snap))
                  (PhaseSnapshot.roundData snap) /\
      integerScores (PhaseSnapshot.gameHistory snap)
}.

(** ** The final standings

    [[...players].sort((a, b) => b.totalScore - a.totalScore)].  The
    sort is stable, and with integer totals the comparison is a total
    preorder, so the result is the one of any stable sort: here, of
    insertion from the right.  A [NaN] difference counts as 0, as the
    language has it; with such totals the order the engines produce is
    not determined and this model is one of the possible ones. *)
Definition byTotalDescending (a b : Player) : num :=
  Num.sub (totalScore b) (totalScore a).

(** [comparefn(a, b) > 0]: [a] goes after [b]. *)
Definition comesAfter (a b : Player) : bool :=
  match byTotalDescending a b with
  | Int v => 0 <? v
  | NaN => false
  end.

Fixpoint insertSorted (a : Player) (l : list Player) : list Player :=
  match l with
  | [] => [a]
  | b :: l' => if comesAfter a b then b :: insertSorted a l' else a :: b :: l'
  end.

Definition sortedPlayers (ps : list Player) : list Player :=
  foldr insertSorted [] ps.

(** The total of a player whose total is an integer. *)
Definition totalOf (p : Player) : Z :=
  match totalScore p with
  | Int z => z
  | NaN => 0
  end.

Definition integerTotals (ps : list Player) : Prop :=
  Forall (fun p => exists z, totalScore p = Int z) ps.

(** The tricks of a list of round entries, added up from the right. *)
Definition trickSum (l : list PlayerRoundData) : num :=
  foldr (fun d acc => Num.add (Num.of_field (tricks d)) acc) (Int 0) l.

(** A game clicked through: two players, round 1 with B taking the
    trick bid, round 2 with A meeting a bid of 2 with a pirate and the
    Skull King, and an undo back to the end of round 2. *)
Definition clicks : list Event :=
  sitDown
  ++ [SetBid 1 1; ConfirmBids; UpdateTricks 1 1; FinishRound]
  ++ [SetBid 0 2; ConfirmBids; UpdateTricks 0 1; UpdateTricks 0 1;
      UpdatePiratesCapture 0 1; ToggleSkullKingCapture 0; FinishRound]
  ++ [Undo].

Definition afterClicks : State := run clicks initialState.

(** A list of players in which nobody comes before a player with a
    higher total. *)
Fixpoint descending (l : list Player) : Prop :=
  match l with
  | [] => True
  | a :: l' => Forall (fun b => totalOf b <= totalOf a) l' /\ descending l'
  end.

(** The undo log holds exactly one snapshot per checkpoint passed. *)
Record LogExact (s : State) : Prop := mkLogExact {
  exact_live :
    gameStarted s = true -> roundPhase s <> complete ->
    Z.of_nat (length (phaseHistory s)) = checkpoints (roundPhase s) (currentRound s);
  exact_snapshots :
    forall k snap,
      phaseHistory s !! k = Some snap ->
      Z.of_nat k
      = checkpoints (PhaseSnapshot.roundPhase snap) (PhaseSnapshot.currentRound snap)
}.

(** The case analysis on the screen that offers an event. *)
Ltac on_screen Hoff s :=
  unfold offered, screen in Hoff;
  let Hg := fresh "Hg" in
  let Hp := fresh "Hp" in
  destruct (gameStarted s) eqn:Hg; cbn [negb] in Hoff;
  [destruct (roundPhase s) eqn:Hp|]; try discriminate Hoff.

(** ** Doubles

    The numbers of the component are IEEE 754 doubles.  [Num] computes
    with exact integers, which is what the machine does as long as no
    result reaches 2^53 in magnitude.  [Double] writes the rounding
    out, for doubles whose value is an integer: the sum and the product
    of two integers is an integer, which the machine rounds to the
    nearest double, to the even significand on a tie, and replaces by
    an infinity once the rounded magnitude reaches 2^1024.  The two
    zeros are not told apart: no operation of the scoring engine
    does. *)

Module Double.

Inductive double : Type :=
  | Finite (z : Z)
  | Infinite (negative : bool)
  | NotANumber.

#[global] Instance double_eq_dec : EqDecision double.
Proof. solve_decision. Defined.

(** Rounding to 53 significant bits, ties to even. *)
Definition round53 (z : Z) : Z :=
  let a := Z.abs z in
  if a <? 2 ^ 53 then z
  else
    let ulp := 2 ^ (Z.log2 a - 52) in
    let q := a / ulp in
    let rest := a mod ulp in
    let q' :=
      if 2 * rest <? ulp then q
      else if ulp <? 2 * rest then q + 1
      else if Z.even q then q else q + 1 in
    Z.sgn z * (q' * ulp).

(** The doubles among the integers. *)
Definition representable (z : Z) : Prop :=
  round53 z = z /\ Z.abs z < 2 ^ 1024.

(** The double an exact integer result becomes. *)
Definition rounded (z : Z) : double :=
  let y := round53 z in
  if 2 ^ 1024 <=? Z.abs y then Infinite (y <? 0) else Finite y.

Definition of_num (n : num) : double :=
  match n with
  | Int z => Finite z
  | NaN => NotANumber
  end.

Definition of_field (f : option num) : double :=
  match f with
  | Some n => of_num n
  | None => NotANumber
  end.

Definition neg (a : double) : double :=
  match a with
  | Finite x => Finite (- x)
  | Infinite negative => Infinite (negb negative)
  | NotANumber => NotANumber
  end.

Definition abs (a : double) : double :=
  match a with
  | Finite x => Finite (Z.abs x)
  | Infinite _ => Infinite false
  | NotANumber => NotANumber
  end.

Definition add (a b : double) : double :=
  match a, b with
  | Finite x, Finite y => rounded (x + y)
  | Infinite negative, Finite _ | Finite _, Infinite negative => Infinite negative
  | Infinite n1, Infinite n2 => if eqb n1 n2 then Infinite n1 else NotANumber
  | _, _ => NotANumber
  end.

Definition sub (a b : double) : double := add a (neg b).

Definition mul (a b : double) : double :=
  match a, b with
  | Finite x, Finite y => rounded (x * y)
  | Infinite negative, Finite y | Finite y, Infinite negative =>
      if y =? 0 then NotANumber else Infinite (xorb negative (y <? 0))
  | Infinite n1, Infinite n2 => Infinite (xorb n1 n2)
  | _, _ => NotANumber
  end.

(** [a === b] on numbers: never true of [NaN]. *)
Definition strict_eq (a b : double) : bool :=
  match a, b with
  | Finite x, Finite y => x =? y
  | Infinite n1, Infinite n2 => eqb n1 n2
  | _, _ => false
  end.

(** [calculateScore] with the machine's arithmetic, on an entry whose
    bid is a number. *)
Definition calculateScore (currentRound : Z) (data : PlayerRoundData) : double :=
  let bid := Finite (bid data) in
  let tricks := of_field (tricks data) in
  let piratesCapture := of_field (piratesCapture data) in
  if strict_eq bid (Finite 0) then
    if strict_eq tricks (Finite 0) then
      mul (Finite currentRound) (Finite 10)
    else
      neg (mul (Finite currentRound) (Finite 10))
  else
    if strict_eq bid tricks then
      let score := mul tricks (Finite 20) in
      let score := add score (mul piratesCapture (Finite 30)) in
      if Num.truthy (skullKingCapture data) then add score (Finite 50) else score
    else
      mul (neg (abs (sub bid tricks))) (Finite 10).

End Double.

(** ** The older copy of the component

    [skull-king-scorer.tsx] holds an earlier version of the same
    component.  It differs in three places: [finishRound] does not
    check the trick total, it reads [entry.scores[i].score] without the
    optional chaining, and the three stepper handlers read their entry
    without checking that it exists.  A [TypeError] is [None] here. *)

Module Legacy.

Definition updateTricks (playerIndex delta : Z) (s : State) : option State :=
  match roundData s !! playerIndex with
  | None => None
  | Some current =>
      Some (setRoundData
        (<[playerIndex :=
             {| bid := bid current;
                tricks := Some (Num.max (Int 0)
                                  (Num.min (Int (currentRound s))
                                     (Num.add (Num.of_field (tricks current)) (Int delta))));
                piratesCapture := piratesCapture current;
                skullKingCapture := skullKingCapture current |}]> (roundData s)) s)
  end.

Definition updatePiratesCapture (playerIndex delta : Z) (s : State) : option State :=
  match roundData s !! playerIndex with
  | None => None
  | Some current =>
      Some (setRoundData
        (<[playerIndex :=
             {| bid := bid current;
                tricks := tricks current;
                piratesCapture := Some (Num.max (Int 0)
                                          (Num.min (Int 5)
                                             (Num.add (Num.of_field (piratesCapture current)) (Int delta))));
                skullKingCapture := skullKingCapture current |}]> (roundData s)) s)
  end.

Definition toggleSkullKingCapture (playerIndex : Z) (s : State) : option State :=
  match roundData s !! playerIndex with
  | None => None
  | Some current =>
      Some (setRoundData
        (<[playerIndex :=
             {| bid := bid current;
                tricks := tricks current;
                piratesCapture := piratesCapture current;
                skullKingCapture := Some (negb (Num.truthy (skullKingCapture current))) |}]>
           (roundData s)) s)
  end.

(** [previousRounds.reduce((sum, entry) => sum + entry.scores[i].score, 0)] *)
Fixpoint sumScoresFrom (i : Z) (sum : num) (h : list GameHistoryEntry) : option num :=
  match h with
  | [] => Some sum
  | e :: h' =>
      match scores e !! i with
      | None => None
      | Some rs => sumScoresFrom i (Num.add sum (score rs)) h'
      end
  end.

Fixpoint scorePlayers (r : Z) (m : gmap Z PlayerRoundData)
    (prev : list GameHistoryEntry) (i : nat) (ps : list Player)
    (roundScores : gmap Z RoundScore)
  : option (list Player * gmap Z RoundScore) :=
  match ps with
  | [] => Some ([], roundScores)
  | player :: rest =>
      match m !! Z.of_nat i with
      | None => None
      | Some data =>
          let score := calculateScore r data in
          let roundScores := <[Z.of_nat i := mkRoundScore data score]> roundScores in
          match sumScoresFrom (Z.of_nat i) (Int 0) prev with
          | None => None
          | Some previousTotal =>
              let total := Num.add previousTotal score in
              match scorePlayers r m prev (S i) rest roundScores with
              | None => None
              | Some (updated, roundScores') =>
                  Some ({| name := name player; totalScore := total |} :: updated,
                        roundScores')
              end
          end
      end
  end.

Definition finishRound (s : State) : FinishResult :=
  let existingRoundIndex := findRoundIndex (currentRound s) (gameHistory s) in
  match scorePlayers (currentRound s) (roundData s)
          (previousRounds existingRoundIndex (gameHistory s)) 0 (players s) ∅ with
  | None => TypeError
  | Some (updatedPlayers, roundScores) =>
      let updatedHistory :=
        updateHistory existingRoundIndex
          {| round := currentRound s; scores := roundScores |} (gameHistory s) in
      let s1 := setPlayers updatedPlayers (setGameHistory updatedHistory s) in
      if currentRound s <? 10 then
        let snapshot :=
          {| PhaseSnapshot.roundData := copyRoundData (roundData s);
             PhaseSnapshot.players := copyPlayers updatedPlayers;
             PhaseSnapshot.currentRound := currentRound s;
             PhaseSnapshot.roundPhase := scoring;
             PhaseSnapshot.gameHistory := copyHistory updatedHistory |} in
        Finished
          (setRoundPhase bidding
             (setCurrentRound (currentRound s + 1)
                (setRoundData (freshRoundData updatedPlayers)
                   (setPhaseHistory (pushSnapshot snapshot (phaseHistory s)) s1))))
      else
        Finished (setRoundPhase complete s1)
  end.

(** The older copy's handlers behind the events.  Apart from the three
    steppers and [finishRound] the handlers are those of the current
    component; the screens and their buttons are the same as well. *)
Definition handle (e : Event) (s : State) : option State :=
  match e with
  | UpdateTricks i d => updateTricks i d s
  | UpdatePiratesCapture i d => updatePiratesCapture i d s
  | ToggleSkullKingCapture i => toggleSkullKingCapture i s
  | FinishRound =>
      match finishRound s with
      | Finished s' => Some s'
      | ValidationAlert _ _ => Some s
      | TypeError => None
      end
  | _ => Some (handle e s)
  end.

(** The states a user of the older copy can bring about. *)
Inductive played : State -> Prop :=
  | played_init : played initialState
  | played_step s e s' :
      played s -> clickable s e = true -> handle e s = Some s' -> played s'.

(** One round entry per player index and no other. *)
Definition entriesMatch (ps : list Player) (m : gmap Z PlayerRoundData) : Prop :=
  forall i, is_Some (m !! i) <-> 0 <= i < Z.of_nat (length ps).

Record Invariant (s : State) : Prop := mkInvariant {
  legacy_setup :
    gameStarted s = false -> currentRound s = 1 /\ roundPhase s = bidding;
  legacy_entries :
    gameStarted s = true -> entriesMatch (players s) (roundData s);
  legacy_snapshots :
    forall snap, snap ∈ phaseHistory s ->
      entriesMatch (PhaseSnapshot.players snap) (PhaseSnapshot.roundData snap)
}.

End Legacy.

(** ** Calls whose precondition is not met

    The preconditions the specification names: a per-player operation
    needs a round entry under its index, [startGame] at least 2 players,
    [addPlayer] fewer than 6 players and a name that is not blank, an
    undo a log that is not empty. *)
Definition playerIndexOf (e : Event) : option Z :=
  match e with
  | SetBid i _ | UpdateTricks i _ | UpdatePiratesCapture i _
  | ToggleSkullKingCapture i => Some i
  | _ => None
  end.

Definition preconditionMet (s : State) (e : Event) : bool :=
  match e with
  | SetBid i _ | UpdateTricks i _ | UpdatePiratesCapture i _
  | ToggleSkullKingCapture i => bool_decide (is_Some (roundData s !! i))
  | StartGame => (2 <=? length (players s))%nat
  | AddPlayer =>
      (length (players s) <? 6)%nat && negb (forallb isWhiteSpace (playerName s))
  | Undo => negb (length (phaseHistory s) =? 0)%nat
  | _ => true
  end.

(** Round 1 finished, undone back to the end of its scoring, and A's
    bid changed from 0 to 1 there: finishing the round again has to
    replace the entry of round 1, in which A scored 10, by one in which
    A scores -10. *)
Definition roundOneRevised : State :=
  run (sitDown ++ playRound 0 0 1 1 ++ [FinishRound; Undo; SetBid 0 1]) initialState.

(** Two players on the setup screen and a name typed that consists of a
    no-break space and a space. *)
Definition blankName : State := setPlayerName [160%N; 32%N] crewOfTwo.

(** * Properties *)

(** ** The scoring engine *)

Example score_scenario : calculateScore 5 (fullEntry 2 2 1 true) = Int 120.
Proof. reflexivity. Qed.

(** C1.  On integer inputs with bid and tricks between 0 and the round
    number and pirate captures between 0 and 5, [calculateScore] returns
    10r for a zero bid kept, -10r for a zero bid missed, 20t + 30p (+50
    with the Skull King) for a positive bid met, and -10|b - t| for a
    positive bid missed. *)
Theorem calculateScore_rules (b t p r : Z) (k : bool) :
  0 <= b <= r -> 0 <= t <= r -> 0 <= p <= 5 ->
  (b = 0 -> t = 0 -> calculateScore r (fullEntry b t p k) = Int (10 * r)) /\
  (b = 0 -> 0 < t -> calculateScore r (fullEntry b t p k) = Int (- 10 * r)) /\
  (0 < b -> b = t ->
     calculateScore r (fullEntry b t p k)
     = Int (20 * t + 30 * p + (if k then 50 else 0))) /\
  (0 < b -> b <> t ->
     calculateScore r (fullEntry b t p k) = Int (- 10 * Z.abs (b - t))) /\
  calculateScore r (fullEntry b t p k) = Int (specScore b t p k r).
Proof.
  intros Hb Ht Hp. unfold calculateScore, specScore; cbn.
  repeat split; intros;
    repeat match goal with
    | |- context [?x =? ?y] => destruct (Z.eqb_spec x y)
    | |- context [?x <? ?y] => destruct (Z.ltb_spec x y)
    end; cbn; try destruct k; cbn; f_equal; lia.
Qed.

Lemma calculateScore_rules_witness :
  calculateScore 5 (fullEntry 2 2 1 true) = Int (specScore 2 2 1 true 5).
Proof.
  apply (calculateScore_rules 2 2 1 5 true); lia.
Defined.

(** With exact integers every branch of [calculateScore] is 10 times an
    integer. *)
Lemma calculateScore_exact_multiple_of_10 (b t p r : Z) (k : bool) :
  exists q : Z, calculateScore r (fullEntry b t p k) = Int (10 * q).
Proof.
  unfold calculateScore; cbn.
  destruct (Z.eqb_spec b 0) as [->|Hb].
  - destruct (Z.eqb_spec t 0).
    + exists r. f_equal; lia.
    + exists (- r). f_equal; lia.
  - destruct (Z.eqb_spec b t) as [->|Hbt]; cbn.
    + destruct k; cbn.
      * exists (2 * t + 3 * p + 5). f_equal; lia.
      * exists (2 * t + 3 * p). f_equal; lia.
    + exists (- Z.abs (b - t)). f_equal; lia.
Qed.

(** ** Copies are structurally equal to their originals *)

Lemma copyPlayer_id p : copyPlayer p = p.
Proof. by destruct p. Qed.

Lemma copyPlayerRoundData_id v : copyPlayerRoundData v = v.
Proof. by destruct v. Qed.

Lemma copyRoundScore_id v : copyRoundScore v = v.
Proof. destruct v as [d sc]. unfold copyRoundScore; cbn. by rewrite copyPlayerRoundData_id. Qed.

Lemma fmap_entries_id {A} (f : A -> A) (l : list (Z * A)) :
  (forall v, f v = v) -> (fun kv => (fst kv, f (snd kv))) <$> l = l.
Proof.
  intros Hf. induction l as [|[k v] l IH]; cbn; [done|].
  by rewrite Hf, IH.
Qed.

Lemma copyRoundData_id m : copyRoundData m = m.
Proof.
  unfold copyRoundData.
  rewrite (fmap_entries_id copyPlayerRoundData) by apply copyPlayerRoundData_id.
  apply list_to_map_to_list.
Qed.

Lemma copyScores_id m : copyScores m = m.
Proof.
  unfold copyScores.
  rewrite (fmap_entries_id copyRoundScore) by apply copyRoundScore_id.
  apply list_to_map_to_list.
Qed.

Lemma copyHistoryEntry_id e : copyHistoryEntry e = e.
Proof. destruct e. unfold copyHistoryEntry; cbn. by rewrite copyScores_id. Qed.

Lemma copyPlayers_id ps : copyPlayers ps = ps.
Proof.
  unfold copyPlayers. induction ps as [|p ps IH]; cbn; [done|].
  by rewrite copyPlayer_id, IH.
Qed.

Lemma copyHistory_id h : copyHistory h = h.
Proof.
  unfold copyHistory. induction h as [|e h IH]; cbn; [done|].
  by rewrite copyHistoryEntry_id, IH.
Qed.

(** ** Validation in [finishRound] *)

Lemma strict_ne_true a r : a <> Int r -> Num.strict_ne a (Int r) = true.
Proof.
  destruct a as [x|]; cbn; [|done].
  intros Hne. destruct (Z.eqb_spec x r); [congruence | done].
Qed.

Lemma strict_ne_false a r : Num.strict_ne a (Int r) = false -> a = Int r.
Proof.
  destruct a as [x|]; cbn; [|done].
  destruct (Z.eqb_spec x r); [congruence | done].
Qed.

(** C2.  In the scoring phase, when the tricks of the round entries do
    not add up to the round number, [finishRound] ends with the alert
    and the session is left as it was, however often the call is
    repeated. *)
Theorem finishRound_rejects_trick_mismatch (s : State) :
  roundPhase s = scoring ->
  totalTricks (roundData s) <> Int (currentRound s) ->
  finishRound s = ValidationAlert (totalTricks (roundData s)) (currentRound s) /\
  afterFinishRound s = s /\
  forall n : nat, Nat.iter n afterFinishRound s = s.
Proof.
  intros _ Hsum.
  assert (Hfin : finishRound s
                 = ValidationAlert (totalTricks (roundData s)) (currentRound s)).
  { unfold finishRound. by rewrite strict_ne_true. }
  assert (Hafter : afterFinishRound s = s).
  { unfold afterFinishRound. by rewrite Hfin. }
  repeat split; [done..|].
  induction n as [|n IH]; [done|]. by rewrite Nat.iter_succ, IH.
Qed.

Lemma finishRound_rejects_trick_mismatch_witness :
  finishRound noTricksYet = ValidationAlert (Int 0) 1 /\
  afterFinishRound noTricksYet = noTricksYet /\
  forall n : nat, Nat.iter n afterFinishRound noTricksYet = noTricksYet.
Proof.
  apply (finishRound_rejects_trick_mismatch noTricksYet).
  - reflexivity.
  - vm_compute. discriminate.
Defined.

(** ** [resetGame] *)

(** C10.  [resetGame] keeps the players in number, order and name, sets
    every total to 0, and puts every other field back to its default. *)
Theorem resetGame_effect (s : State) :
  length (players (resetGame s)) = length (players s) /\
  name <$> players (resetGame s) = name <$> players s /\
  (forall i p, players s !! i = Some p ->
     players (resetGame s) !! i = Some {| name := name p; totalScore := Int 0 |}) /\
  gameStarted (resetGame s) = false /\
  currentRound (resetGame s) = 1 /\
  roundPhase (resetGame s) = bidding /\
  roundData (resetGame s) = ∅ /\
  gameHistory (resetGame s) = [] /\
  phaseHistory (resetGame s) = [] /\
  playerName (resetGame s) = playerName s.
Proof.
  unfold resetGame; cbn. repeat split.
  - by rewrite length_fmap.
  - rewrite <- list_fmap_compose. by apply list_fmap_ext.
  - intros i p Hp. by rewrite list_lookup_fmap, Hp.
Qed.
(** ** The score in the machine's arithmetic *)

Lemma round53_exact (z : Z) : Z.abs z < 2 ^ 53 -> Double.round53 z = z.
Proof.
  intros Hz. unfold Double.round53. cbv zeta.
  destruct (Z.ltb_spec (Z.abs z) (2 ^ 53)) as [H|H]; [reflexivity | lia].
Qed.

Lemma pow_53_1024 : 2 ^ 53 < 2 ^ 1024.
Proof. apply Z.pow_lt_mono_r; lia. Qed.

Lemma rounded_exact (z : Z) : Z.abs z < 2 ^ 53 -> Double.rounded z = Double.Finite z.
Proof.
  intros Hz. unfold Double.rounded. cbv zeta. rewrite round53_exact by exact Hz.
  destruct (Z.leb_spec (2 ^ 1024) (Z.abs z)) as [H|H]; [|reflexivity].
  exfalso. eapply Z.lt_irrefl, Z.lt_trans; [exact Hz|].
  eapply Z.lt_le_trans; [exact pow_53_1024 | exact H].
Qed.

Lemma add_exact (x y : Z) :
  Z.abs (x + y) < 2 ^ 53 ->
  Double.add (Double.Finite x) (Double.Finite y) = Double.Finite (x + y).
Proof. apply rounded_exact. Qed.

Lemma mul_exact (x y : Z) :
  Z.abs (x * y) < 2 ^ 53 ->
  Double.mul (Double.Finite x) (Double.Finite y) = Double.Finite (x * y).
Proof. apply rounded_exact. Qed.

Lemma sub_exact (x y : Z) :
  Z.abs (x - y) < 2 ^ 53 ->
  Double.sub (Double.Finite x) (Double.Finite y) = Double.Finite (x - y).
Proof. intros Hxy. unfold Double.sub. cbn [Double.neg]. by apply add_exact. Qed.

(** As long as no exact intermediate result reaches 2^53 in magnitude
    nothing is rounded: the machine computes the score of the exact
    model. *)
Lemma calculateScore_exact (b t p r : Z) (k : bool) :
  Z.abs r * 10 < 2 ^ 53 ->
  Z.abs t * 20 + Z.abs p * 30 + 50 < 2 ^ 53 ->
  Z.abs (b - t) * 10 < 2 ^ 53 ->
  Double.calculateScore r (fullEntry b t p k)
  = Double.of_num (calculateScore r (fullEntry b t p k)).
Proof.
  assert (H53 : 2 ^ 53 = 9007199254740992) by reflexivity.
  intros Hr Hs Hd.
  unfold Double.calculateScore, calculateScore.
  cbn [fullEntry bid tricks piratesCapture skullKingCapture
       Double.of_field Double.of_num Double.strict_eq
       Num.strict_eq Num.of_field Num.truthy Num.mul Num.add Num.sub Num.neg Num.abs].
  destruct (Z.eqb_spec b 0) as [->|Hb0].
  - destruct (Z.eqb_spec t 0); rewrite mul_exact by lia; reflexivity.
  - destruct (Z.eqb_spec b t) as [->|Hbt].
    + rewrite !mul_exact by lia. rewrite add_exact by lia.
      destruct k; [|reflexivity]. by rewrite add_exact by lia.
    + rewrite sub_exact by lia. cbn [Double.abs Double.neg].
      by rewrite mul_exact by lia.
Qed.

(** Inputs of magnitude up to 2^47 are in that range. *)
Lemma calculateScore_exact_below_2_47 (b t p r : Z) (k : bool) :
  Z.abs r <= 2 ^ 47 -> Z.abs b <= 2 ^ 47 -> Z.abs t <= 2 ^ 47 -> Z.abs p <= 2 ^ 47 ->
  Double.calculateScore r (fullEntry b t p k)
  = Double.of_num (calculateScore r (fullEntry b t p k)).
Proof.
  assert (H47 : 2 ^ 47 = 140737488355328) by reflexivity.
  assert (H53 : 2 ^ 53 = 9007199254740992) by reflexivity.
  intros Hr Hb Ht Hp. apply calculateScore_exact; lia.
Qed.

(** C9, amended.  For integer inputs with which no exact intermediate
    result reaches 2^53 in magnitude, which includes every input of
    magnitude up to 2^47 and so every value a session holds, the score
    the machine computes is a finite integer multiple of 10, the one of
    the exact model. *)
Theorem calculateScore_double_multiple_of_10 (b t p r : Z) (k : bool) :
  Z.abs r * 10 < 2 ^ 53 ->
  Z.abs t * 20 + Z.abs p * 30 + 50 < 2 ^ 53 ->
  Z.abs (b - t) * 10 < 2 ^ 53 ->
  exists q : Z,
    Double.calculateScore r (fullEntry b t p k) = Double.Finite (10 * q) /\
    calculateScore r (fullEntry b t p k) = Int (10 * q).
Proof.
  intros Hr Hs Hd.
  destruct (calculateScore_exact_multiple_of_10 b t p r k) as [q Hq].
  exists q. split; [|done].
  rewrite calculateScore_exact by done. by rewrite Hq.
Qed.

Lemma calculateScore_double_multiple_of_10_witness :
  exists q : Z,
    Double.calculateScore 5 (fullEntry 2 2 1 true) = Double.Finite (10 * q) /\
    calculateScore 5 (fullEntry 2 2 1 true) = Int (10 * q).
Proof.
  assert (Hr : Z.abs 5 * 10 < 2 ^ 53) by (vm_compute; reflexivity).
  assert (Hs : Z.abs 2 * 20 + Z.abs 1 * 30 + 50 < 2 ^ 53) by (vm_compute; reflexivity).
  assert (Hd : Z.abs (2 - 2) * 10 < 2 ^ 53) by (vm_compute; reflexivity).
  exact (calculateScore_double_multiple_of_10 2 2 1 5 true Hr Hs Hd).
Defined.

(** C9, as the claim has it, fails for integers of any size: 2^53 is a
    double, and with a bid of 2^53 met and one pirate captured the
    product 20 * 2^53 is exact but adding 30 to it is rounded to the
    next multiple of 32, which is no multiple of 10. *)
Lemma calculateScore_double_counterexample :
  Double.representable (2 ^ 53) /\
  Double.mul (Double.Finite (2 ^ 53)) (Double.Finite 20)
  = Double.Finite 180143985094819840 /\
  Double.calculateScore 1 (fullEntry (2 ^ 53) (2 ^ 53) 1 false)
  = Double.Finite 180143985094819872 /\
  ~ exists q : Z,
      Double.calculateScore 1 (fullEntry (2 ^ 53) (2 ^ 53) 1 false)
      = Double.Finite (10 * q).
Proof.
  split; [vm_compute; split; reflexivity|].
  split; [vm_compute; reflexivity|].
  assert (Hvalue : Double.calculateScore 1 (fullEntry (2 ^ 53) (2 ^ 53) 1 false)
                   = Double.Finite 180143985094819872) by (vm_compute; reflexivity).
  split; [exact Hvalue|].
  intros [q Hq]. rewrite Hvalue in Hq. injection Hq as Hq. clear Hvalue. lia.
Qed.

(** ** The guards *)

Lemma trimStart_blank l : forallb isWhiteSpace l = true -> trimStart l = [].
Proof.
  induction l as [|a l IH]; cbn; [done|].
  intros [Ha Hl]%andb_prop. rewrite Ha. auto.
Qed.

(** A name made of white space only trims to the empty string. *)
Lemma trim_blank v :
  forallb isWhiteSpace v = true -> trim v = [].
Proof.
  intros Hv. unfold trim. by rewrite (trimStart_blank _ Hv).
Qed.

(** The guarded handlers do nothing when their precondition fails. *)
Lemma guarded_calls_are_noops (s : State) :
  (forall i d, roundData s !! i = None -> updateTricks i d s = s) /\
  (forall i d, roundData s !! i = None -> updatePiratesCapture i d s = s) /\
  (forall i, roundData s !! i = None -> toggleSkullKingCapture i s = s) /\
  ((length (players s) < 2)%nat -> startGame s = s) /\
  ((6 <= length (players s))%nat -> addPlayer s = s) /\
  (forallb isWhiteSpace (playerName s) = true -> addPlayer s = s) /\
  (phaseHistory s = [] -> performUndo s = s).
Proof.
  repeat split.
  - intros i d Hi. unfold updateTricks. by rewrite Hi.
  - intros i d Hi. unfold updatePiratesCapture. by rewrite Hi.
  - intros i Hi. unfold toggleSkullKingCapture. by rewrite Hi.
  - intros Hn. unfold startGame.
    destruct (Nat.leb_spec 2 (length (players s))); [lia | done].
  - intros Hn. unfold addPlayer.
    destruct (Nat.ltb_spec (length (players s)) 6); [lia|].
    by rewrite andb_false_r.
  - intros Hv. unfold addPlayer. by rewrite (trim_blank _ Hv).
  - intros Hlog. unfold performUndo. by rewrite Hlog.
Qed.

(** [setBid] has no such guard: on an index without entry it stores a
    new entry, whatever the state. *)
Lemma setBid_missing_index (s : State) (i v : Z) :
  roundData s !! i = None ->
  roundData (setBid i v s) !! i
  = Some {| bid := v; tricks := None; piratesCapture := None;
            skullKingCapture := None |} /\
  setBid i v s <> s.
Proof.
  intros Hi. unfold setBid; cbn. rewrite Hi; cbn.
  rewrite lookup_insert_eq. split; [done|].
  intros Heq. apply (f_equal (fun st => roundData st !! i)) in Heq.
  cbn in Heq. rewrite lookup_insert_eq, Hi in Heq. discriminate.
Qed.

(** With entries for players 0 and 1 only, [setBid 2 1] stores an entry
    holding nothing but the bid under index 2, and the trick total of
    the round becomes [NaN]; [updateTricks] on the same index changes
    nothing. *)
Example setBid_without_entry :
  roundData twoBidders !! 2 = None /\
  roundData (setBid 2 1 twoBidders) !! 2
  = Some {| bid := 1; tricks := None; piratesCapture := None;
            skullKingCapture := None |} /\
  setBid 2 1 twoBidders <> twoBidders /\
  totalTricks (roundData (setBid 2 1 twoBidders)) = NaN /\
  updateTricks 2 1 twoBidders = twoBidders.
Proof.
  assert (Hnone : roundData twoBidders !! 2 = None) by reflexivity.
  destruct (setBid_missing_index twoBidders 2 1 Hnone) as [Hentry Hne].
  do 3 (split; [done|]). split; by vm_compute.
Qed.

(** ** The undo log is bounded *)

Lemma pushSnapshot_drop x log :
  (length log <= 20)%nat ->
  pushSnapshot x log = drop (length (log ++ [x]) - 20) (log ++ [x]).
Proof.
  intros Hlen. unfold pushSnapshot.
  rewrite length_app; cbn [length].
  destruct (Nat.ltb_spec 20 (length log + 1)).
  - replace (length log + 1 - 20)%nat with 1%nat by lia.
    by destruct (log ++ [x]).
  - by replace (length log + 1 - 20)%nat with 0%nat by lia.
Qed.

Lemma pushSnapshot_length x log :
  (length log <= 20)%nat -> (length (pushSnapshot x log) <= 20)%nat.
Proof.
  intros Hlen. rewrite pushSnapshot_drop by done.
  rewrite length_drop, length_app; cbn [length]. lia.
Qed.

Lemma pushSnapshot_room x log :
  (length log < 20)%nat -> pushSnapshot x log = log ++ [x].
Proof.
  intros Hlen. unfold pushSnapshot.
  rewrite length_app; cbn [length].
  destruct (Nat.ltb_spec 20 (length log + 1)); [lia | done].
Qed.

Lemma pushAll_drop snaps : forall log,
  (length log <= 20)%nat ->
  pushAll snaps log = drop (length (log ++ snaps) - 20) (log ++ snaps).
Proof.
  induction snaps as [|x snaps IH]; intros log Hlen.
  - cbn. rewrite app_nil_r. by replace (length log - 20)%nat with 0%nat by lia.
  - change (pushAll (x :: snaps) log) with (pushAll snaps (pushSnapshot x log)).
    rewrite IH by by apply pushSnapshot_length.
    rewrite pushSnapshot_drop by done.
    set (k := (length (log ++ [x]) - 20)%nat).
    assert (Hk : (k <= length (log ++ [x]))%nat) by (unfold k; lia).
    rewrite <- drop_app_le by done.
    rewrite drop_drop, <- app_assoc; cbn [app].
    f_equal. rewrite length_drop, !length_app in *. cbn [length] in *.
    unfold k in *. rewrite length_app in *. cbn [length] in *. lia.
Qed.

Lemma popSnapshot_snoc log x : popSnapshot (log ++ [x]) = Some (x, log).
Proof.
  unfold popSnapshot. by rewrite last_snoc, removelast_last.
Qed.

Lemma popAll_reverse log : forall n,
  (length log <= n)%nat -> popAll n log = reverse log.
Proof.
  induction log as [|x log IH] using rev_ind; intros n Hn.
  - by destruct n.
  - rewrite length_app in Hn; cbn in Hn.
    destruct n as [|n]; [lia|]. cbn.
    rewrite popSnapshot_snoc, reverse_snoc. f_equal. apply IH. lia.
Qed.

(** C5.  Starting from a log of at most 20 snapshots, any sequence of
    pushes leaves the last 20 of what was pushed, so never more than 20;
    after 25 pushes on an empty log, repeated pops return the 20 most
    recent snapshots, newest first, and then nothing: the 5 oldest are
    gone. *)
Theorem undo_log_keeps_last_20 (log snaps : list PhaseSnapshot.t) :
  (length log <= 20)%nat ->
  (length (pushAll snaps log) <= 20)%nat /\
  pushAll snaps log = drop (length (log ++ snaps) - 20) (log ++ snaps) /\
  (log = [] -> length snaps = 25%nat ->
   pushAll snaps log = drop 5 snaps /\
   length (pushAll snaps log) = 20%nat /\
   forall n, (20 <= n)%nat -> popAll n (pushAll snaps log) = reverse (drop 5 snaps)).
Proof.
  intros Hlen.
  pose proof (pushAll_drop snaps log Hlen) as Hdrop.
  split; [|split; [done|]].
  - rewrite Hdrop, length_drop. lia.
  - intros -> Hsnaps. cbn [app] in Hdrop. rewrite Hsnaps in Hdrop.
    change (25 - 20)%nat with 5%nat in Hdrop.
    assert (Hl : length (pushAll snaps []) = 20%nat).
    { rewrite Hdrop, length_drop. lia. }
    repeat split; [done..|].
    intros n Hn. rewrite popAll_reverse by lia. by rewrite Hdrop.
Qed.

Lemma undo_log_keeps_last_20_witness :
  popAll 25 (pushAll (snapshotAt <$> seqZ 1 25) [])
  = snapshotAt <$> reverse (seqZ 6 20).
Proof.
  destruct (undo_log_keeps_last_20 [] (snapshotAt <$> seqZ 1 25)) as (_ & _ & H).
  - cbn; lia.
  - destruct H as (_ & _ & H); [reflexivity | reflexivity |].
    rewrite (H 25%nat) by lia. reflexivity.
Defined.

(** ** What a successful [finishRound] sets *)

Lemma finishRound_Finished (s s' : State) :
  finishRound s = Finished s' ->
  let idx := findRoundIndex (currentRound s) (gameHistory s) in
  totalTricks (roundData s) = Int (currentRound s) /\
  exists updatedPlayers roundScores,
    scorePlayers (currentRound s) (roundData s)
      (previousRounds idx (gameHistory s)) 0 (players s) ∅
    = Some (updatedPlayers, roundScores) /\
    let updatedHistory :=
      updateHistory idx {| round := currentRound s; scores := roundScores |}
        (gameHistory s) in
    gameHistory s' = updatedHistory /\
    players s' = updatedPlayers /\
    gameStarted s' = gameStarted s /\
    playerName s' = playerName s /\
    if currentRound s <? 10 then
      phaseHistory s'
      = pushSnapshot
          {| PhaseSnapshot.roundData := roundData s;
             PhaseSnapshot.players := updatedPlayers;
             PhaseSnapshot.currentRound := currentRound s;
             PhaseSnapshot.roundPhase := scoring;
             PhaseSnapshot.gameHistory := updatedHistory |} (phaseHistory s) /\
      roundData s' = freshRoundData updatedPlayers /\
      currentRound s' = currentRound s + 1 /\
      roundPhase s' = bidding
    else
      phaseHistory s' = phaseHistory s /\
      roundData s' = roundData s /\
      currentRound s' = currentRound s /\
      roundPhase s' = complete.
Proof.
  intros Hfin. cbv zeta. unfold finishRound in Hfin.
  set (idx := findRoundIndex (currentRound s) (gameHistory s)) in *.
  destruct (Num.strict_ne _ _) eqn:Hne; [discriminate|].
  split; [by apply strict_ne_false|].
  destruct (scorePlayers _ _ _ _ _ _) as [[updatedPlayers roundScores]|] eqn:Hsp;
    [|discriminate].
  exists updatedPlayers, roundScores. split; [done|].
  destruct (currentRound s <? 10); inversion Hfin; subst s'; cbn;
    rewrite ?copyRoundData_id, ?copyPlayers_id, ?copyHistory_id; done.
Qed.

(** ** One history entry per round *)

Lemma findRoundIndex_Some r h k :
  findRoundIndex r h = Some k ->
  exists e0, h !! k = Some e0 /\ round e0 = r /\
             forall j e1, h !! j = Some e1 -> (j < k)%nat -> round e1 <> r.
Proof.
  unfold findRoundIndex. intros Hfind.
  destruct (list_find _ h) as [[k' e0]|] eqn:Hlf; [|discriminate].
  cbn in Hfind. injection Hfind as ->.
  apply list_find_Some in Hlf as (Hk & Hr & Hfirst). eauto.
Qed.

Lemma findRoundIndex_None r h :
  findRoundIndex r h = None -> r ∉ round <$> h.
Proof.
  unfold findRoundIndex. intros Hfind.
  destruct (list_find _ h) as [[k' e0]|] eqn:Hlf; [discriminate|].
  apply list_find_None in Hlf.
  intros (e & -> & He)%list_elem_of_fmap.
  rewrite Forall_forall in Hlf. by apply (Hlf e).
Qed.

Lemma updateHistory_Some k e h e0 :
  h !! k = Some e0 -> updateHistory (Some k) e h = <[k := e]> h.
Proof.
  intros Hk. unfold updateHistory.
  symmetry. apply insert_take_drop. by eapply lookup_lt_Some.
Qed.

Lemma updateHistory_rounds r e h :
  round e = r ->
  round <$> updateHistory (findRoundIndex r h) e h
  = match findRoundIndex r h with
    | Some _ => round <$> h
    | None => (round <$> h) ++ [r]
    end.
Proof.
  intros Hr. destruct (findRoundIndex r h) as [k|] eqn:Hfind.
  - destruct (findRoundIndex_Some _ _ _ Hfind) as (e0 & Hk & Hr0 & _).
    rewrite (updateHistory_Some _ _ _ _ Hk), list_fmap_insert.
    apply list_insert_id. by rewrite list_lookup_fmap, Hk, Hr; cbn; rewrite Hr0.
  - unfold updateHistory. by rewrite fmap_app; cbn; rewrite Hr.
Qed.

Lemma updateHistory_unique r e h :
  round e = r -> uniqueRounds h ->
  uniqueRounds (updateHistory (findRoundIndex r h) e h).
Proof.
  intros Hr Hu. unfold uniqueRounds. rewrite (updateHistory_rounds r) by done.
  destruct (findRoundIndex r h) eqn:Hfind; [done|].
  apply NoDup_app. split; [done|]. split; [|apply NoDup_singleton].
  intros x Hx ->%list_elem_of_singleton.
  by apply (findRoundIndex_None _ _ Hfind).
Qed.

(** ** The invariant of the reachable states *)

Lemma Invariant_initial : Invariant initialState.
Proof.
  split; cbn; try done; try lia.
  - apply NoDup_nil_2.
  - intros snap Hin. by apply elem_of_nil in Hin.
Qed.

(** Handlers that touch neither the round, the phase, the histories nor
    [gameStarted] keep the invariant. *)
Lemma Invariant_frame (s s' : State) :
  gameStarted s' = gameStarted s ->
  currentRound s' = currentRound s ->
  roundPhase s' = roundPhase s ->
  gameHistory s' = gameHistory s ->
  phaseHistory s' = phaseHistory s ->
  Invariant s -> Invariant s'.
Proof.
  intros Hg Hr Hp Hh Hl [].
  split; rewrite ?Hg, ?Hr, ?Hp, ?Hh, ?Hl; done.
Qed.

Lemma checkpoints_le_19 phase r : r <= 10 -> checkpoints phase r <= 19.
Proof. destruct phase; cbn; lia. Qed.

Lemma Invariant_push (s : State) (snap : PhaseSnapshot.t) :
  Invariant s ->
  roundPhase s <> complete ->
  PhaseSnapshot.currentRound snap = currentRound s ->
  PhaseSnapshot.roundPhase snap = roundPhase s ->
  (roundPhase s = scoring -> currentRound s < 10) ->
  pushSnapshot snap (phaseHistory s) = phaseHistory s ++ [snap] /\
  forall k x,
    (phaseHistory s ++ [snap]) !! k = Some x ->
    1 <= PhaseSnapshot.currentRound x <= 10 /\
    PhaseSnapshot.roundPhase x <> complete /\
    Z.of_nat k
    <= checkpoints (PhaseSnapshot.roundPhase x) (PhaseSnapshot.currentRound x).
Proof.
  intros [Hround Hsetup Hlog Hsnaps Hh Hsh] Hphase Hr Hp Hlt.
  assert (Hroom : (length (phaseHistory s) < 20)%nat).
  { destruct (roundPhase s); cbn in *; try done; [lia|].
    specialize (Hlt eq_refl). lia. }
  split; [by apply pushSnapshot_room|].
  intros k x [[_ Hk] | [-> <-]]%lookup_snoc_Some; [by apply Hsnaps|].
  rewrite Hr, Hp. repeat split; try done; lia.
Qed.

Lemma Invariant_step (s : State) (e : Event) :
  Invariant s -> offered s e = true -> Invariant (handle e s).
Proof.
  intros Hinv Hoff.
  assert (Hframe : forall s',
             gameStarted s' = gameStarted s -> currentRound s' = currentRound s ->
             roundPhase s' = roundPhase s -> gameHistory s' = gameHistory s ->
             phaseHistory s' = phaseHistory s -> Invariant s').
  { intros s' ?????. by apply (Invariant_frame s s'). }
  destruct e; cbn [handle].
  - (* TypeName *) by apply Hframe.
  - (* AddPlayer *) unfold addPlayer. destruct (_ && _); [by apply Hframe | done].
  - (* RemovePlayer *) by apply Hframe.
  - (* ClearPlayers *) destruct confirmed; [by apply Hframe | done].
  - (* StartGame *)
    unfold offered, screen in Hoff. unfold startGame.
    destruct (gameStarted s) eqn:Hg; cbn [negb] in Hoff;
      [destruct (roundPhase s); discriminate|].
    rewrite Hoff. destruct Hinv as [Hr Hsetup Hlog Hsnaps Hh Hsh].
    destruct (Hsetup Hg) as (Hr1 & Hp1 & Hl1).
    split; cbn; try done.
    + rewrite Hp1, Hr1. cbn. lia.
    + intros snap Hin. by apply elem_of_nil in Hin.
  - (* SetBid *) by apply Hframe.
  - (* UpdateTricks *)
    unfold updateTricks. destruct (roundData s !! playerIndex); [by apply Hframe | done].
  - (* UpdatePiratesCapture *)
    unfold updatePiratesCapture.
    destruct (roundData s !! playerIndex); [by apply Hframe | done].
  - (* ToggleSkullKingCapture *)
    unfold toggleSkullKingCapture.
    destruct (roundData s !! playerIndex); [by apply Hframe | done].
  - (* ConfirmBids *)
    unfold offered, screen in Hoff.
    destruct (gameStarted s) eqn:Hg; cbn in Hoff; [|discriminate].
    destruct (roundPhase s) eqn:Hp; try discriminate.
    unfold confirmBids, savePhaseSnapshot.
    rewrite copyRoundData_id, copyPlayers_id, copyHistory_id.
    edestruct (Invariant_push s) as [Hpush Hsn]; [done| by rewrite Hp | | | | ];
      [ | | by rewrite Hp | ]; cycle 2.
    { rewrite Hpush. destruct Hinv as [Hr Hsetup Hlog Hsnaps Hh Hsh].
      split; cbn; try done.
      - rewrite Hg. discriminate.
      - rewrite length_app; cbn. rewrite Hp in Hlog; cbn in Hlog. lia.
      - intros snap [Hin | ->%list_elem_of_singleton]%elem_of_app; [by auto|done]. }
    all: cbn; by rewrite ?Hp.
  - (* FinishRound *)
    unfold offered, screen in Hoff.
    destruct (gameStarted s) eqn:Hg; cbn in Hoff; [|discriminate].
    destruct (roundPhase s) eqn:Hp; try discriminate.
    unfold afterFinishRound.
    destruct (finishRound s) as [| |s'] eqn:Hfin; try done.
    apply finishRound_Finished in Hfin
      as (Hsum & updatedPlayers & roundScores & Hsp & Hh' & Hps' & Hg' & Hn' & Hrest).
    cbn zeta in Hh'.
    assert (Hu' : uniqueRounds (gameHistory s')).
    { rewrite Hh'. apply updateHistory_unique; [done | by destruct Hinv]. }
    destruct (Z.ltb_spec (currentRound s) 10) as [Hlt | Hge].
    + destruct Hrest as (Hl' & Hd' & Hr' & Hp').
      set (snap := {| PhaseSnapshot.roundData := roundData s |}) in Hl'.
      destruct (Invariant_push s snap) as [Hpush Hsn];
        [done | by rewrite Hp | done | by rewrite Hp | done |].
      rewrite Hpush in Hl'.
      destruct Hinv as [Hr Hsetup Hlog Hsnaps Hh Hsh].
      split; rewrite ?Hg', ?Hr', ?Hp', ?Hl'; try done.
      * lia.
      * rewrite Hg. discriminate.
      * rewrite length_app; cbn. rewrite Hp in Hlog; cbn in Hlog. lia.
      * intros x [Hin | ->%list_elem_of_singleton]%elem_of_app; [by auto|].
        subst snap; cbn. by rewrite <- Hh'.
    + destruct Hrest as (Hl' & Hd' & Hr' & Hp').
      destruct Hinv as [Hr Hsetup Hlog Hsnaps Hh Hsh].
      split; rewrite ?Hg', ?Hr', ?Hp', ?Hl'; try done.
      * rewrite Hg. discriminate.
      * rewrite Hp in Hlog; cbn in *. lia.
  - (* Undo *)
    unfold offered, screen in Hoff.
    destruct (gameStarted s) eqn:Hg; cbn in Hoff; [|discriminate].
    unfold performUndo.
    destruct (phaseHistory s) as [|x0 l0] eqn:Hl using rev_ind;
      [by destruct (roundPhase s)|].
    clear IHl0. rewrite length_app; cbn [length].
    replace (length l0 + 1 =? 0)%nat with false
      by (symmetry; apply Nat.eqb_neq; lia).
    rewrite popSnapshot_snoc, copyRoundData_id, copyPlayers_id, copyHistory_id.
    destruct Hinv as [Hr Hsetup Hlog Hsnaps Hh Hsh].
    rewrite Hl in *.
    destruct (Hsnaps (length l0) x0) as (Hxr & Hxp & Hxk).
    { by rewrite lookup_app_r, Nat.sub_diag by lia. }
    split; cbn; try done.
    + rewrite Hg. discriminate.
    + intros k snap Hk. apply Hsnaps. by apply lookup_app_l_Some.
    + apply Hsh. apply elem_of_app. right. by apply list_elem_of_singleton.
    + intros snap Hin. apply Hsh. apply elem_of_app. by left.
  - (* EndGameEarly *)
    destruct confirmed; [|done]. unfold endGameEarly.
    destruct Hinv as [Hr Hsetup Hlog Hsnaps Hh Hsh].
    unfold offered, screen in Hoff.
    destruct (gameStarted s) eqn:Hg; cbn in Hoff; [|discriminate].
    split; cbn; try done.
    + rewrite Hg. discriminate.
    + etrans; [exact Hlog|]. apply checkpoints_le_19. lia.
  - (* ResetGame *)
    split; cbn; try done; try lia.
    + apply NoDup_nil_2.
    + intros snap Hin. by apply elem_of_nil in Hin.
Qed.

Lemma reachable_Invariant (s : State) : reachable s -> Invariant s.
Proof.
  induction 1 as [|s e _ IH Hoff]; [apply Invariant_initial|].
  by apply Invariant_step.
Qed.

Lemma run_reachable es : forall s,
  reachable s -> allOffered es s = true -> reachable (run es s).
Proof.
  induction es as [|e es IH]; intros s Hs Hoff; [done|].
  cbn in Hoff. apply andb_prop in Hoff as [He Hes].
  apply (IH (handle e s)); [by apply reachable_step | done].
Qed.

Lemma roundOneAgain_reachable : reachable roundOneAgain.
Proof. apply run_reachable; [apply reachable_init | by vm_compute]. Qed.

(** ** [startGame] *)

Lemma foldl_insert_lookup {A} (v : A) (l : list Z) : forall (m : gmap Z A) i,
  foldl (fun m k => <[k := v]> m) m l !! i
  = if decide (i ∈ l) then Some v else m !! i.
Proof.
  induction l as [|k l IH]; intros m i; cbn.
  - case_decide as Hin; [by apply elem_of_nil in Hin | done].
  - rewrite IH.
    destruct (decide (i ∈ l)) as [Hl|Hl], (decide (i ∈ k :: l)) as [Hkl|Hkl];
      try done.
    + exfalso. apply Hkl. by right.
    + apply elem_of_cons in Hkl as [->|]; [|done]. by rewrite lookup_insert_eq.
    + rewrite lookup_insert_ne; [done|]. intros ->. apply Hkl. by left.
Qed.

Lemma freshRoundData_lookup ps i :
  freshRoundData ps !! i
  = if decide (0 <= i < Z.of_nat (length ps)) then Some freshEntry else None.
Proof.
  unfold freshRoundData. rewrite foldl_insert_lookup.
  destruct (decide (i ∈ seqZ 0 (Z.of_nat (length ps)))) as [Hin|Hin],
           (decide (0 <= i < Z.of_nat (length ps))) as [Hi|Hi]; try done.
  - apply elem_of_seqZ in Hin. lia.
  - exfalso. apply Hin. apply elem_of_seqZ. lia.
Qed.

(** [startGame] itself assigns neither the round number nor the phase:
    called in the middle of round 5, which no screen allows, it would
    leave both alone. *)
Example startGame_outside_setup :
  gameStarted midGame = true /\
  (2 <= length (players midGame))%nat /\
  currentRound (startGame midGame) = 5 /\
  roundPhase (startGame midGame) = scoring /\
  ~ startGame_resets_round midGame.
Proof.
  split; [done|]. split; [cbn; lia|]. split; [done|]. split; [done|].
  intros (_ & Hround & _). vm_compute in Hround. discriminate.
Qed.

(** With at least 2 players [startGame] gives every player index a zero
    entry and no other index any, empties the undo log and sets
    [gameStarted]; it leaves the round number, the phase, the players
    and the history as they are. *)
Lemma startGame_effect (s : State) :
  (2 <= length (players s))%nat ->
  roundData (startGame s) = freshRoundData (players s) /\
  (forall i,
     roundData (startGame s) !! i
     = if decide (0 <= i < Z.of_nat (length (players s)))
       then Some (fullEntry 0 0 0 false) else None) /\
  phaseHistory (startGame s) = [] /\
  gameStarted (startGame s) = true /\
  currentRound (startGame s) = currentRound s /\
  roundPhase (startGame s) = roundPhase s /\
  players (startGame s) = players s /\
  gameHistory (startGame s) = gameHistory s.
Proof.
  intros Hn. unfold startGame.
  destruct (Nat.leb_spec 2 (length (players s))); [|lia]. cbn.
  do 7 (split; [first [done | intros i; apply freshRoundData_lookup]|]).
  done.
Qed.

(** ** Snapshot and undo: the round trip *)

Lemma savePhaseSnapshot_contents (s : State) :
  savePhaseSnapshot s
  = setPhaseHistory (pushSnapshot (contents s) (phaseHistory s)) s.
Proof.
  unfold savePhaseSnapshot, contents.
  by rewrite copyRoundData_id, copyPlayers_id, copyHistory_id.
Qed.

(** [performUndo] on a log that is not empty: the last snapshot becomes
    the live session and leaves the log. *)
Lemma performUndo_snoc (s : State) (log : list PhaseSnapshot.t) (snap : PhaseSnapshot.t) :
  phaseHistory s = log ++ [snap] ->
  performUndo s
  = mkState (gameStarted s) (PhaseSnapshot.players snap) (playerName s)
            (PhaseSnapshot.currentRound snap) (PhaseSnapshot.roundPhase snap)
            (PhaseSnapshot.roundData snap) (PhaseSnapshot.gameHistory snap) log.
Proof.
  intros Hlog. unfold performUndo. rewrite Hlog, length_app; cbn [length].
  replace (length log + 1 =? 0)%nat with false
    by (symmetry; apply Nat.eqb_neq; lia).
  by rewrite popSnapshot_snoc, copyRoundData_id, copyPlayers_id, copyHistory_id.
Qed.

(** With room in the log, a push followed by an undo gives the session
    back. *)
Lemma undo_after_save (s : State) :
  (length (phaseHistory s) < 20)%nat -> performUndo (savePhaseSnapshot s) = s.
Proof.
  intros Hroom. rewrite savePhaseSnapshot_contents.
  rewrite (performUndo_snoc _ (phaseHistory s) (contents s)).
  - by destruct s.
  - cbn. by apply pushSnapshot_room.
Qed.

(** With a full log the push drops the oldest snapshot, and the undo
    does not bring it back. *)
Lemma undo_after_save_full (s : State) :
  length (phaseHistory s) = 20%nat ->
  performUndo (savePhaseSnapshot s) = setPhaseHistory (tail (phaseHistory s)) s.
Proof.
  intros Hfull. rewrite savePhaseSnapshot_contents.
  rewrite (performUndo_snoc _ (tail (phaseHistory s)) (contents s)).
  - by destruct s.
  - cbn. unfold pushSnapshot. rewrite length_app, Hfull; cbn.
    destruct (phaseHistory s); [discriminate | done].
Qed.

Lemma reachable_log_room (s : State) :
  reachable s -> (length (phaseHistory s) < 20)%nat.
Proof.
  intros [Hr _ Hlog _ _ _]%reachable_Invariant.
  pose proof (checkpoints_le_19 (roundPhase s) (currentRound s)). lia.
Qed.

(** ** Snapshot and undo: no aliasing *)

Section Allocation.
Import Alloc.

Lemma within_widen lo hi lo' hi' l :
  within lo hi l -> (lo' <= lo)%nat -> (hi <= hi')%nat -> within lo' hi' l.
Proof.
  unfold within. intros Hl Hlo Hhi. eapply Forall_impl; [exact Hl|].
  cbn. intros a Ha. lia.
Qed.

Lemma within_disjoint lo mid hi l1 l2 a :
  within lo mid l1 -> within mid hi l2 -> a ∈ l2 -> a ∉ l1.
Proof.
  unfold within. rewrite !Forall_forall. intros H1 H2 Ha2 Ha1.
  specialize (H1 a Ha1). specialize (H2 a Ha2). lia.
Qed.

Lemma concat_singletons {A B} (g : A -> B) (l : list A) :
  concat ((fun x => [g x]) <$> l) = g <$> l.
Proof. induction l as [|x l IH]; cbn; [done | by rewrite IH]. Qed.

(** Cloning a list element by element: the copies get the addresses
    between the counter before and the counter after. *)
Lemma cloneList_spec {A B} (f : A -> loc -> B * loc)
    (locsB : B -> list loc) (P : A -> B -> Prop) :
  (forall x n y n', f x n = (y, n') ->
     (n <= n')%nat /\ within n n' (locsB y) /\ P x y) ->
  forall l n ys n', cloneList f l n = (ys, n') ->
    (n <= n')%nat /\ within n n' (concat (locsB <$> ys)) /\ Forall2 P l ys.
Proof.
  intros Hf. induction l as [|x l IH]; intros n ys n' Hc; cbn in Hc.
  - injection Hc as <- <-. repeat split; [lia | constructor | constructor].
  - destruct (f x n) as [y n1] eqn:Hfx.
    destruct (cloneList f l n1) as [ys' n2] eqn:Hl.
    injection Hc as <- <-.
    destruct (Hf _ _ _ _ Hfx) as (Hle1 & Hw1 & HP).
    destruct (IH _ _ _ Hl) as (Hle2 & Hw2 & HF).
    repeat split; [lia | | by constructor].
    cbn. apply Forall_app. split.
    + eapply within_widen; [exact Hw1 | lia | lia].
    + eapply within_widen; [exact Hw2 | lia | lia].
Qed.

Lemma cloneObj_spec {A} (o y : obj A) n n' :
  cloneObj o n = (y, n') ->
  (n <= n')%nat /\ within n n' [addr y] /\ val y = val o.
Proof.
  unfold cloneObj. intros [= <- <-]. cbn.
  repeat split; [lia|]. repeat constructor; lia.
Qed.

Lemma cloneField_spec {A} (kv kv' : Z * obj A) n n' :
  cloneField kv n = (kv', n') ->
  (n <= n')%nat /\ within n n' [addr (snd kv')] /\
  (fst kv', val (snd kv')) = (fst kv, val (snd kv)).
Proof.
  unfold cloneField, cloneObj. intros [= <- <-]. cbn.
  repeat split; [lia|]. repeat constructor; lia.
Qed.

Lemma Forall2_fmap_eq {A B C} (f : A -> C) (g : B -> C) l ys :
  Forall2 (fun x y => g y = f x) l ys -> g <$> ys = f <$> l.
Proof. induction 1 as [|x y l ys Hxy _ IH]; cbn; [done | by rewrite Hxy, IH]. Qed.

Lemma clonePlayers_spec ps ps' n n' :
  clonePlayers ps n = (ps', n') ->
  (n <= n')%nat /\ within n n' (locsPlayers ps') /\
  erasePlayers ps' = erasePlayers ps.
Proof.
  unfold clonePlayers. destruct (cloneList _ _ _) as [l n1] eqn:Hl.
  intros [= <- <-].
  apply (cloneList_spec (@cloneObj Player) (fun o : obj Player => [addr o])
           (fun x y : obj Player => val y = val x))
    in Hl as (Hle & Hw & HF); [|intros x m y m'; apply cloneObj_spec].
  rewrite concat_singletons in Hw.
  repeat split; [lia | |].
  - unfold locsPlayers; cbn. constructor; [lia|].
    eapply within_widen; [exact Hw | lia | lia].
  - unfold erasePlayers; cbn. by apply Forall2_fmap_eq.
Qed.

Lemma cloneRec_spec {A} (r r' : Rec A) n n' :
  cloneRec r n = (r', n') ->
  (n <= n')%nat /\ within n n' (locsRec r') /\ eraseRec r' = eraseRec r.
Proof.
  unfold cloneRec. destruct (cloneList _ _ _) as [l n1] eqn:Hl.
  intros [= <- <-].
  apply (cloneList_spec (@cloneField A) (fun kv : Z * obj A => [addr (snd kv)])
           (fun x y : Z * obj A => (fst y, val (snd y)) = (fst x, val (snd x))))
    in Hl as (Hle & Hw & HF); [|intros x m y m'; apply cloneField_spec].
  rewrite concat_singletons in Hw.
  repeat split; [lia | |].
  - unfold locsRec; cbn. constructor; [lia|].
    eapply within_widen; [exact Hw | lia | lia].
  - unfold eraseRec; cbn. f_equal.
    by apply (Forall2_fmap_eq (fun kv : Z * obj A => (fst kv, val (snd kv)))
                              (fun kv : Z * obj A => (fst kv, val (snd kv)))).
Qed.

Lemma cloneHistoryEntry_spec e e' n n' :
  cloneHistoryEntry e n = (e', n') ->
  (n <= n')%nat /\ within n n' (locsHistoryEntry e') /\
  eraseHistoryEntry e' = eraseHistoryEntry e.
Proof.
  unfold cloneHistoryEntry. destruct (cloneRec _ _) as [sc n1] eqn:Hsc.
  intros [= <- <-].
  apply cloneRec_spec in Hsc as (Hle & Hw & He).
  repeat split; [lia | |].
  - unfold locsHistoryEntry; cbn. constructor; [lia|].
    eapply within_widen; [exact Hw | lia | lia].
  - unfold eraseHistoryEntry; cbn. by rewrite He.
Qed.

Lemma cloneHistory_spec h h' n n' :
  cloneHistory h n = (h', n') ->
  (n <= n')%nat /\ within n n' (locsHistory h') /\
  eraseHistory h' = eraseHistory h.
Proof.
  unfold cloneHistory. destruct (cloneList _ _ _) as [l n1] eqn:Hl.
  intros [= <- <-].
  apply (cloneList_spec cloneHistoryEntry locsHistoryEntry
           (fun x y => eraseHistoryEntry y = eraseHistoryEntry x))
    in Hl as (Hle & Hw & HF); [|intros x m y m'; apply cloneHistoryEntry_spec].
  repeat split; [lia | |].
  - unfold locsHistory; cbn. constructor; [lia|].
    eapply within_widen; [exact Hw | lia | lia].
  - unfold eraseHistory; cbn. by apply Forall2_fmap_eq.
Qed.

(** Cloning the five captured variables. *)
Lemma cloneFields_spec f rd ps gh n n1 n2 n3 :
  cloneRec (roundData f) n = (rd, n1) ->
  clonePlayers (players f) n1 = (ps, n2) ->
  cloneHistory (gameHistory f) n2 = (gh, n3) ->
  let f' := {| roundData := rd; players := ps;
               currentRound := currentRound f; roundPhase := roundPhase f;
               gameHistory := gh |} in
  (n <= n3)%nat /\ within n n3 (locsFields f') /\
  eraseSnapshot f' = eraseSnapshot f.
Proof.
  intros (Hle1 & Hw1 & He1)%cloneRec_spec (Hle2 & Hw2 & He2)%clonePlayers_spec
         (Hle3 & Hw3 & He3)%cloneHistory_spec. cbn zeta.
  repeat split; [lia | |].
  - unfold locsFields; cbn [roundData players gameHistory].
    apply Forall_app; split; [|apply Forall_app; split].
    + eapply within_widen; [exact Hw1 | lia | lia].
    + eapply within_widen; [exact Hw2 | lia | lia].
    + eapply within_widen; [exact Hw3 | lia | lia].
  - unfold eraseSnapshot; cbn. by rewrite He1, He2, He3.
Qed.


End Allocation.

(** What a push leaves in the log: the new snapshot at the end, after
    snapshots that were there before. *)
Lemma pushed_log {A} (l : list A) (x : A) :
  exists l0,
    (if (20 <? length (l ++ [x]))%nat then tail (l ++ [x]) else l ++ [x])
    = l0 ++ [x] /\
    forall y, y ∈ l0 -> y ∈ l.
Proof.
  destruct (20 <? length (l ++ [x]))%nat eqn:Hfull.
  - destruct l as [|y l]; [discriminate|].
    exists l. split; [done|]. intros z Hz. by right.
  - by exists l.
Qed.

Lemma fmap_pushed {A} (f : A -> PhaseSnapshot.t) (l : list A) (x : A) :
  f <$> (if (20 <? length (l ++ [x]))%nat then tail (l ++ [x]) else l ++ [x])
  = pushSnapshot (f x) (f <$> l).
Proof.
  unfold pushSnapshot. rewrite !length_app, length_fmap. cbn [length].
  destruct (20 <? _)%nat; by rewrite ?fmap_tail, fmap_app.
Qed.

Lemma within_snapshots lo hi (log : list (Alloc.obj Alloc.Fields)) :
  (forall y, y ∈ log -> Alloc.within lo hi (Alloc.locsSnapshot y)) ->
  Alloc.within lo hi (concat (Alloc.locsSnapshot <$> log)).
Proof.
  intros Hlog. unfold Alloc.within. apply Forall_concat, Forall_fmap, Forall_forall.
  intros y Hy. by apply Hlog.
Qed.

Lemma within_snapshots_elem lo hi (log : list (Alloc.obj Alloc.Fields)) y :
  Alloc.within lo hi (concat (Alloc.locsSnapshot <$> log)) -> y ∈ log ->
  Alloc.within lo hi (Alloc.locsSnapshot y).
Proof.
  unfold Alloc.within. intros Hlog Hy. apply Forall_concat in Hlog.
  rewrite Forall_fmap, Forall_forall in Hlog. by apply Hlog.
Qed.

Lemma save_spec st n st1 n1 :
  Alloc.savePhaseSnapshot st n = (st1, n1) ->
  Alloc.within 0%nat n (Alloc.locsState st) ->
  (n <= n1)%nat /\
  Alloc.erase st1 = savePhaseSnapshot (Alloc.erase st) /\
  Alloc.within 0%nat n1 (Alloc.locsState st1) /\
  exists snap,
    last (Alloc.val (Alloc.phaseHistory st1)) = Some snap /\
    Alloc.within n n1 (Alloc.locsSnapshot snap).
Proof.
  unfold Alloc.savePhaseSnapshot.
  destruct (Alloc.cloneRec _ _) as [rd m1] eqn:Hrd.
  destruct (Alloc.clonePlayers _ _) as [ps m2] eqn:Hps.
  destruct (Alloc.cloneHistory _ _) as [gh m3] eqn:Hgh.
  destruct (cloneFields_spec _ _ _ _ _ _ _ _ Hrd Hps Hgh) as (Hle & Hw & He).
  set (snap := Alloc.Obj m3 _). intros [= <- <-] Hbelow.
  assert (Hsnap : Alloc.within n (S (S m3)) (Alloc.locsSnapshot snap)).
  { unfold Alloc.locsSnapshot; cbn. constructor; [lia|].
    eapply within_widen; [exact Hw | lia | lia]. }
  unfold Alloc.locsState, Alloc.within in Hbelow.
  apply Forall_app in Hbelow as [Hlive Hlog].
  apply Forall_cons in Hlog as [Haddr Hlog].
  destruct (pushed_log (Alloc.val (Alloc.phaseHistory st)) snap) as (l0 & Hl0 & Hsub).
  split; [lia|]. split; [|split].
  - rewrite savePhaseSnapshot_contents.
    unfold Alloc.erase, setPhaseHistory, contents.
    cbn [gameStarted players playerName currentRound roundPhase roundData
         gameHistory phaseHistory Alloc.live Alloc.gameStarted
         Alloc.playerName Alloc.phaseHistory Alloc.val].
    f_equal. rewrite fmap_pushed. f_equal. exact He.
  - unfold Alloc.locsState; cbn [Alloc.live Alloc.phaseHistory Alloc.val Alloc.addr].
    apply Forall_app; split.
    + eapply within_widen; [exact Hlive | lia | lia].
    + constructor; [lia|]. rewrite Hl0. apply within_snapshots.
      intros y [Hy | ->%list_elem_of_singleton]%elem_of_app.
      * eapply within_widen; [|lia|].
        -- eapply within_snapshots_elem; [exact Hlog | by apply Hsub].
        -- lia.
      * eapply within_widen; [exact Hsnap | lia | lia].
  - exists snap. cbn [Alloc.phaseHistory Alloc.val]. rewrite Hl0, last_snoc.
    split; [done | exact Hsnap].
Qed.

Lemma undo_spec st n st2 n2 :
  Alloc.performUndo st n = (st2, n2) ->
  Alloc.erase st2 = performUndo (Alloc.erase st) /\
  (Alloc.val (Alloc.phaseHistory st) <> [] -> Alloc.within n n2 (Alloc.locsFields (Alloc.live st2))).
Proof.
  unfold Alloc.performUndo.
  destruct (Alloc.val (Alloc.phaseHistory st)) as [|snap log _] eqn:Hlog using rev_ind.
  - cbn. intros [= <- <-]. split; [|done].
    unfold performUndo, Alloc.erase; cbn. by rewrite Hlog.
  - rewrite length_app; cbn [length].
    replace (length log + 1 =? 0)%nat with false
      by (symmetry; apply Nat.eqb_neq; lia).
    rewrite last_snoc, removelast_last.
    destruct (Alloc.cloneRec _ _) as [rd m1] eqn:Hrd.
    destruct (Alloc.clonePlayers _ _) as [ps m2] eqn:Hps.
    destruct (Alloc.cloneHistory _ _) as [gh m3] eqn:Hgh.
    destruct (cloneFields_spec _ _ _ _ _ _ _ _ Hrd Hps Hgh) as (Hle & Hw & He).
    intros [= <- <-]. split.
    + rewrite (performUndo_snoc _ ((fun x => Alloc.eraseSnapshot (Alloc.val x)) <$> log)
                                (Alloc.eraseSnapshot (Alloc.val snap))).
      * unfold Alloc.erase; cbn [Alloc.live Alloc.gameStarted Alloc.playerName Alloc.phaseHistory Alloc.val].
        injection He as He1 He2 He3. cbn in He1, He2, He3.
        cbn [Alloc.roundData Alloc.players Alloc.gameHistory Alloc.currentRound Alloc.roundPhase].
        by rewrite He1, He2, He3.
      * unfold Alloc.erase; cbn. by rewrite Hlog, fmap_app.
    + intros _. cbn [Alloc.live].
      eapply within_widen; [exact Hw | lia | lia].
Qed.


(** C4.  In every reachable state, saving a snapshot and undoing at once
    gives back the very same session.  With addresses tracked, the
    session that comes back is the same up to addresses, and none of the
    objects of its restored collections is an object of the stored
    snapshot, or of anything else that existed before the undo; nor does
    the snapshot share an object with the session it was taken from. *)
Theorem snapshot_undo_roundtrip (s : State) (st : Alloc.Store) (n : Alloc.loc) :
  reachable s ->
  Alloc.erase st = s ->
  Alloc.within 0%nat n (Alloc.locsState st) ->
  performUndo (savePhaseSnapshot s) = s /\
  let '(st1, n1) := Alloc.savePhaseSnapshot st n in
  let '(st2, n2) := Alloc.performUndo st1 n1 in
  Alloc.erase st1 = savePhaseSnapshot s /\
  Alloc.erase st2 = s /\
  exists snap,
    last (Alloc.val (Alloc.phaseHistory st1)) = Some snap /\
    (forall a, a ∈ Alloc.locsFields (Alloc.live st2) -> a ∉ Alloc.locsSnapshot snap) /\
    (forall a, a ∈ Alloc.locsFields (Alloc.live st2) -> a ∉ Alloc.locsState st1) /\
    (forall a, a ∈ Alloc.locsSnapshot snap -> a ∉ Alloc.locsState st).
Proof.
  intros Hreach Herase Hbelow.
  pose proof (undo_after_save s (reachable_log_room s Hreach)) as Hround.
  split; [done|].
  destruct (Alloc.savePhaseSnapshot st n) as [st1 n1] eqn:Hsave.
  destruct (Alloc.performUndo st1 n1) as [st2 n2] eqn:Hundo.
  destruct (save_spec _ _ _ _ Hsave Hbelow)
    as (Hle & He1 & Hbelow1 & snap & Hlast & Hsnap).
  destruct (undo_spec _ _ _ _ Hundo) as [He2 Hfresh].
  assert (Hne : Alloc.val (Alloc.phaseHistory st1) <> []).
  { intros Hnil. by rewrite Hnil in Hlast. }
  specialize (Hfresh Hne).
  rewrite Herase in He1. rewrite He1, Hround in He2.
  split; [done|]. split; [done|].
  exists snap. split; [done|]. split; [|split].
  - intros a Ha. exact (within_disjoint n n1 n2 _ _ a Hsnap Hfresh Ha).
  - intros a Ha. exact (within_disjoint 0%nat n1 n2 _ _ a Hbelow1 Hfresh Ha).
  - intros a Ha. exact (within_disjoint 0%nat n n1 _ _ a Hbelow Hsnap Ha).
Qed.

Lemma snapshot_undo_roundtrip_witness :
  performUndo (savePhaseSnapshot roundOneAgain) = roundOneAgain.
Proof.
  assert (Hreach : reachable roundOneAgain).
  { apply run_reachable; [apply reachable_init | by vm_compute]. }
  assert (Herase : Alloc.erase (fst (Alloc.load roundOneAgain 0%nat)) = roundOneAgain).
  { vm_compute. reflexivity. }
  assert (Hbelow : Alloc.within 0%nat (snd (Alloc.load roundOneAgain 0%nat))
                     (Alloc.locsState (fst (Alloc.load roundOneAgain 0%nat)))).
  { apply (bool_decide_unpack _). vm_compute. reflexivity. }
  destruct (snapshot_undo_roundtrip _ _ _ Hreach Herase Hbelow) as [Hround _].
  exact Hround.
Defined.

(** ** Totals are the sums of the history *)

Lemma add_comm a b : Num.add a b = Num.add b a.
Proof. destruct a, b; cbn; f_equal; lia. Qed.

Lemma add_assoc a b c : Num.add a (Num.add b c) = Num.add (Num.add a b) c.
Proof. destruct a, b, c; cbn; f_equal; lia. Qed.

Lemma add_0_l a : Num.add (Int 0) a = a.
Proof. by destruct a. Qed.

Lemma add_0_r a : Num.add a (Int 0) = a.
Proof. destruct a; cbn; f_equal; lia. Qed.

Lemma foldl_scores_from i h : forall a,
  foldl (fun sum e => Num.add sum (scoreAt i e)) a h = Num.add a (sumScores i h).
Proof.
  unfold sumScores.
  induction h as [|e h IH]; intros a; cbn [foldl].
  - by rewrite add_0_r.
  - rewrite (IH (Num.add a (scoreAt i e))), (IH (Num.add (Int 0) (scoreAt i e))).
    by rewrite add_0_l, add_assoc.
Qed.

Lemma sumScores_cons i e h :
  sumScores i (e :: h) = Num.add (scoreAt i e) (sumScores i h).
Proof.
  unfold sumScores at 1. cbn [foldl]. by rewrite foldl_scores_from, add_0_l.
Qed.

Lemma sumScores_app i h1 h2 :
  sumScores i (h1 ++ h2) = Num.add (sumScores i h1) (sumScores i h2).
Proof.
  induction h1 as [|e h1 IH]; cbn [app].
  - by rewrite add_0_l.
  - by rewrite !sumScores_cons, IH, add_assoc.
Qed.

(** Whether the entry is replaced or appended, the history sums to the
    earlier rounds plus the new entry. *)
Lemma sumScores_updateHistory i idx e h :
  sumScores i (updateHistory idx e h)
  = Num.add (sumScores i (previousRounds idx h)) (scoreAt i e).
Proof.
  unfold updateHistory, previousRounds. destruct idx as [k|].
  - rewrite !sumScores_app, sumScores_cons. cbn [sumScores foldl].
    change (sumScores i []) with (Int 0). rewrite add_0_r.
    rewrite <- !add_assoc. f_equal. apply add_comm.
  - rewrite sumScores_app, sumScores_cons.
    change (sumScores i []) with (Int 0). by rewrite add_0_r.
Qed.

Lemma filter_all {A} (P : A -> Prop) `{forall x, Decision (P x)} (l : list A) :
  Forall P l -> filter P l = l.
Proof.
  induction 1 as [|x l Hx _ IH]; [done|].
  by rewrite filter_cons_True, IH.
Qed.

(** With one entry per round, leaving out the entry found is leaving
    out every entry of that round. *)
Lemma previousRounds_filter r h :
  uniqueRounds h ->
  previousRounds (findRoundIndex r h) h = filter (fun e => round e <> r) h.
Proof.
  unfold uniqueRounds, findRoundIndex.
  induction h as [|e h IH]; intros Hu; [done|].
  rewrite fmap_cons in Hu. apply NoDup_cons in Hu as [Hnotin Hu].
  cbn [list_find]. destruct (decide (round e = r)) as [Hr|Hr].
  - rewrite filter_cons_False by (intros Hne; by apply Hne).
    change (previousRounds (fst <$> Some (0%nat, e)) (e :: h)) with h.
    rewrite filter_all; [done|].
    apply Forall_forall. intros e' He' Hr'. apply Hnotin.
    rewrite Hr, <- Hr'. apply list_elem_of_fmap. by exists e'.
  - rewrite filter_cons_True by done.
    rewrite <- (IH Hu).
    by destruct (list_find (fun e0 => round e0 = r) h) as [[k e']|].
Qed.

(** What the callback of [players.map] computes for each player. *)
Lemma scorePlayers_spec r m prev ps : forall i acc updated roundScores,
  scorePlayers r m prev i ps acc = Some (updated, roundScores) ->
  length updated = length ps /\
  (forall k, (k < Z.of_nat i \/ Z.of_nat (i + length ps) <= k) ->
     roundScores !! k = acc !! k) /\
  forall j p', updated !! j = Some p' ->
    exists p d,
      ps !! j = Some p /\
      m !! Z.of_nat (i + j) = Some d /\
      p' = {| name := name p;
              totalScore := Num.add (sumScores (Z.of_nat (i + j)) prev)
                                    (calculateScore r d) |} /\
      roundScores !! Z.of_nat (i + j) = Some (mkRoundScore d (calculateScore r d)).
Proof.
  induction ps as [|player ps IH]; intros i acc updated roundScores Hsp; cbn in Hsp.
  - injection Hsp as <- <-. split; [done|]. split; [done|].
    intros j p' Hj. by rewrite lookup_nil in Hj.
  - destruct (m !! Z.of_nat i) as [data|] eqn:Hdata; [|discriminate].
    destruct (scorePlayers r m prev (S i) ps _) as [[updated' roundScores']|] eqn:Hrest;
      [|discriminate].
    injection Hsp as <- <-.
    destruct (IH _ _ _ _ Hrest) as (Hlen & Hkeep & Hplayers).
    split; [cbn; by rewrite Hlen|]. split.
    + intros k Hk. cbn [length] in Hk.
      rewrite Hkeep by lia. apply lookup_insert_ne. lia.
    + intros [|j] p' Hj; cbn in Hj.
      * injection Hj as <-. exists player, data.
        rewrite Nat.add_0_r. do 3 (split; [done|]).
        rewrite Hkeep by lia. apply lookup_insert_eq.
      * destruct (Hplayers j p' Hj) as (p & d & Hp & Hd & Hp' & Hrs).
        exists p, d. replace (i + S j)%nat with (S i + j)%nat by lia. done.
Qed.

(** [finishRound] goes through whenever the tricks add up and every
    player has a round entry. *)
Lemma scorePlayers_total r m prev ps : forall i acc,
  (forall j, (j < length ps)%nat -> is_Some (m !! Z.of_nat (i + j))) ->
  is_Some (scorePlayers r m prev i ps acc).
Proof.
  induction ps as [|player ps IH]; intros i acc Hall; cbn; [done|].
  destruct (Hall 0%nat) as [data Hdata]; [cbn; lia|].
  rewrite Nat.add_0_r in Hdata. rewrite Hdata.
  destruct (IH (S i) (<[Z.of_nat i := mkRoundScore data (calculateScore r data)]> acc))
    as [[updated roundScores] ->]; [|done].
  intros j Hj. replace (S i + j)%nat with (i + S j)%nat by lia.
  apply Hall. cbn. lia.
Qed.

Lemma finishRound_succeeds (s : State) :
  totalTricks (roundData s) = Int (currentRound s) ->
  (forall j, (j < length (players s))%nat -> is_Some (roundData s !! Z.of_nat j)) ->
  exists s', finishRound s = Finished s'.
Proof.
  intros Hsum Hall. unfold finishRound. rewrite Hsum. cbn [Num.strict_ne].
  rewrite Z.eqb_refl. cbn [negb].
  destruct (scorePlayers_total (currentRound s) (roundData s)
              (previousRounds (findRoundIndex (currentRound s) (gameHistory s))
                 (gameHistory s)) (players s) 0 ∅ Hall)
    as [[updated roundScores] ->].
  destruct (currentRound s <? 10); eauto.
Qed.

(** C3.  When [finishRound] succeeds, every player keeps name and
    position, and the new total is the sum of the player's scores over
    the history without the entry found for the current round, plus the
    score just computed; the entry left out is every entry of that round
    when rounds are unique.  The same total is the sum of the player's
    scores over the history as it stands afterwards, in which the
    current round carries the score just computed: nothing is counted
    twice and nothing stale is kept. *)
Theorem finishRound_recomputes_totals (s s' : State) :
  finishRound s = Finished s' ->
  let r := currentRound s in
  let idx := findRoundIndex r (gameHistory s) in
  length (players s') = length (players s) /\
  (uniqueRounds (gameHistory s) ->
   previousRounds idx (gameHistory s)
   = filter (fun e => round e <> r) (gameHistory s)) /\
  forall (j : nat) (p' : Player), players s' !! j = Some p' ->
    exists p d e,
      players s !! j = Some p /\ name p' = name p /\
      roundData s !! Z.of_nat j = Some d /\
      totalScore p'
      = Num.add (sumScores (Z.of_nat j) (previousRounds idx (gameHistory s)))
                (calculateScore r d) /\
      e ∈ gameHistory s' /\ round e = r /\
      scoreAt (Z.of_nat j) e = calculateScore r d /\
      totalScore p' = sumScores (Z.of_nat j) (gameHistory s').
Proof.
  intros Hfin r idx.
  apply finishRound_Finished in Hfin
    as (_ & updated & roundScores & Hsp & Hh' & Hps' & _).
  cbn zeta in Hh'. fold r idx in Hsp, Hh'.
  destruct (scorePlayers_spec _ _ _ _ _ _ _ _ Hsp) as (Hlen & _ & Hplayers).
  rewrite Hps'. split; [done|]. split; [apply previousRounds_filter|].
  intros j p' Hj.
  destruct (Hplayers j p' Hj) as (p & d & Hp & Hd & -> & Hrs). cbn in Hd, Hrs.
  set (e := {| round := r; scores := roundScores |}) in *.
  assert (Hscore : scoreAt (Z.of_nat j) e = calculateScore r d).
  { unfold scoreAt; cbn. by rewrite Hrs. }
  exists p, d, e. repeat split; try done.
  - rewrite Hh'. unfold updateHistory. destruct idx.
    + apply elem_of_app. right. by left.
    + apply elem_of_app. right. by left.
  - cbn. by rewrite Hh', sumScores_updateHistory, Hscore.
Qed.

Lemma finishRound_recomputes_totals_witness :
  exists p',
    players (afterFinishRound roundOneAgain) !! 1%nat = Some p' /\
    totalScore p' = sumScores 1 (gameHistory (afterFinishRound roundOneAgain)) /\
    totalScore p' = Int 20.
Proof.
  destruct (finishRound_recomputes_totals roundOneAgain (afterFinishRound roundOneAgain))
    as (_ & _ & Htotals); [by vm_compute|].
  destruct (Htotals 1%nat (mkPlayer (text "B") (Int 20)))
    as (p & d & e & _ & _ & _ & _ & _ & _ & _ & Hsum); [by vm_compute|].
  exists (mkPlayer (text "B") (Int 20)).
  split; [by vm_compute|]. split; [exact Hsum | reflexivity].
Defined.

(** ** The scenarios of the specification, run on the model *)

(** Round 1, three players, bids (0,1,0) and tricks (0,1,0): scores 10,
    20, 10, one history entry, and round 2 opens in its bidding phase. *)
Example round_one_scenario :
  let s := roundOneScoring
             [(0, fullEntry 0 0 0 false); (1, fullEntry 1 1 0 false);
              (2, fullEntry 0 0 0 false)] in
  let s' := afterFinishRound s in
  totalScore <$> players s' = [Int 10; Int 20; Int 10] /\
  round <$> gameHistory s' = [1] /\
  currentRound s' = 2 /\ roundPhase s' = bidding /\
  roundData s' = freshRoundData crew.
Proof. by vm_compute. Qed.

(** A seventh player is not added. *)
Example seventh_player_scenario :
  length (players fullCrew) = 6%nat /\ addPlayer fullCrew = fullCrew.
Proof. by vm_compute. Qed.

(** Replay: after the undo and the second finish of rounds 2 and 3, the
    history holds rounds 1, 2, 3 once each and the totals are the sums
    of the scores it holds. *)
Example replay_scenario :
  let s := run replay initialState in
  allOffered replay initialState = true /\
  round <$> gameHistory s = [1; 2; 3] /\
  totalScore <$> players s = [Int 30; Int 70] /\
  sumScores 0 (gameHistory s) = Int 30 /\
  sumScores 1 (gameHistory s) = Int 70.
Proof. by vm_compute. Qed.

(** ** The older copy of the component *)

(** Where the entry exists, the older stepper handlers do what the
    current ones do; where it does not, they throw instead of
    returning. *)
Lemma Legacy_steppers_agree (s : State) (i d : Z) :
  is_Some (roundData s !! i) ->
  Legacy.updateTricks i d s = Some (updateTricks i d s) /\
  Legacy.updatePiratesCapture i d s = Some (updatePiratesCapture i d s) /\
  Legacy.toggleSkullKingCapture i s = Some (toggleSkullKingCapture i s).
Proof.
  intros [current Hi].
  unfold Legacy.updateTricks, Legacy.updatePiratesCapture,
    Legacy.toggleSkullKingCapture, updateTricks, updatePiratesCapture,
    toggleSkullKingCapture.
  by rewrite Hi.
Qed.

Lemma Legacy_steppers_throw (s : State) (i d : Z) :
  roundData s !! i = None ->
  Legacy.updateTricks i d s = None /\
  Legacy.updatePiratesCapture i d s = None /\
  Legacy.toggleSkullKingCapture i s = None.
Proof.
  intros Hi.
  unfold Legacy.updateTricks, Legacy.updatePiratesCapture,
    Legacy.toggleSkullKingCapture.
  by rewrite Hi.
Qed.

(** The older [finishRound] accepts a round whose tricks do not add up:
    with nobody holding a trick in round 1 it scores the round and opens
    round 2, where the current one alerts. *)
Example Legacy_finishRound_accepts_mismatch :
  totalTricks (roundData noTricksYet) = Int 0 /\
  currentRound noTricksYet = 1 /\
  (exists s', Legacy.finishRound noTricksYet = Finished s' /\
              currentRound s' = 2 /\
              totalScore <$> players s' = [Int 10; Int 10; Int 10]) /\
  finishRound noTricksYet = ValidationAlert (Int 0) 1.
Proof.
  split; [by vm_compute|]. split; [done|]. split; [|by vm_compute].
  eexists. split; [by vm_compute|]. by vm_compute.
Qed.

Lemma Legacy_sumScoresFrom i h : forall a,
  Forall (fun e => is_Some (scores e !! i)) h ->
  Legacy.sumScoresFrom i a h
  = Some (foldl (fun sum e => Num.add sum (scoreAt i e)) a h).
Proof.
  induction h as [|e h IH]; intros a Hall; cbn [Legacy.sumScoresFrom foldl]; [done|].
  apply Forall_cons in Hall as [[rs Hrs] Hall].
  unfold scoreAt at 2. rewrite Hrs. by apply IH.
Qed.

Lemma Legacy_scorePlayers_agree r m prev ps : forall i acc,
  (forall j, (j < length ps)%nat ->
     Forall (fun e => is_Some (scores e !! Z.of_nat (i + j))) prev) ->
  Legacy.scorePlayers r m prev i ps acc = scorePlayers r m prev i ps acc.
Proof.
  induction ps as [|player ps IH]; intros i acc Hall; [done|].
  cbn [Legacy.scorePlayers scorePlayers].
  destruct (m !! Z.of_nat i) as [data|]; [|done].
  rewrite Legacy_sumScoresFrom.
  - fold (sumScores (Z.of_nat i) prev). rewrite IH; [done|].
    intros j Hj. replace (S i + j)%nat with (i + S j)%nat by lia.
    apply Hall. cbn. lia.
  - specialize (Hall 0%nat). rewrite Nat.add_0_r in Hall. apply Hall. cbn. lia.
Qed.

(** Once the tricks add up, and the history scores every player in
    every round, the two versions of [finishRound] do the same. *)
Lemma Legacy_finishRound_agree (s : State) :
  totalTricks (roundData s) = Int (currentRound s) ->
  (forall j, (j < length (players s))%nat ->
     Forall (fun e => is_Some (scores e !! Z.of_nat j)) (gameHistory s)) ->
  Legacy.finishRound s = finishRound s.
Proof.
  intros Hsum Hall. unfold Legacy.finishRound, finishRound.
  rewrite Hsum. cbn [Num.strict_ne]. rewrite Z.eqb_refl. cbn [negb].
  rewrite Legacy_scorePlayers_agree; [done|].
  intros j Hj. specialize (Hall j Hj). cbn [Nat.add].
  unfold previousRounds. destruct (findRoundIndex _ _) as [k|]; [|done].
  apply Forall_app. split; [by apply Forall_take | by apply Forall_drop].
Qed.

(** * Further properties *)

(** ** The scoring engine, continued *)

Lemma calculateScore_full (b t p r : Z) (k : bool) :
  calculateScore r (fullEntry b t p k)
  = Int (if b =? 0 then (if t =? 0 then r * 10 else - (r * 10))
         else if b =? t then t * 20 + p * 30 + (if k then 50 else 0)
         else - Z.abs (b - t) * 10).
Proof.
  unfold calculateScore; cbn.
  destruct (b =? 0); [by destruct (t =? 0)|].
  destruct (b =? t); cbn; [|done].
  destruct k; cbn; f_equal; lia.
Qed.

(** X1.  From round 1 on, with a bid and pirate captures that are not
    negative, the score is an integer other than 0, positive exactly
    when the bid is met: the green and the red of the score line. *)
Theorem score_positive_iff_bid_met (b t p r : Z) (k : bool) :
  1 <= r -> 0 <= b -> 0 <= p ->
  exists z,
    calculateScore r (fullEntry b t p k) = Int z /\
    z <> 0 /\ (0 < z <-> b = t) /\ (z < 0 <-> b <> t).
Proof.
  intros Hr Hb Hp. rewrite calculateScore_full. eexists. split; [done|].
  destruct (Z.eqb_spec b 0) as [->|Hb0].
  - destruct (Z.eqb_spec t 0) as [->|Ht0]; lia.
  - destruct (Z.eqb_spec b t) as [->|Hbt]; [destruct k|]; lia.
Qed.

Lemma score_positive_iff_bid_met_witness :
  exists z,
    calculateScore 5 (fullEntry 2 2 1 true) = Int z /\
    z <> 0 /\ (0 < z <-> 2 = 2) /\ (z < 0 <-> 2 <> 2).
Proof. apply (score_positive_iff_bid_met 2 2 1 5 true); lia. Defined.

(** X2.  The bonus controls are shown exactly when a positive bid is
    met, and while they are hidden the stored pirate captures and Skull
    King capture have no influence on the score. *)
Theorem hidden_bonuses_do_not_count (b t p p' r : Z) (k k' : bool) :
  0 <= b ->
  (bonusShown (fullEntry b t p k) = true <-> (b = t /\ 0 < b)) /\
  (bonusShown (fullEntry b t p k) = false ->
   calculateScore r (fullEntry b t p k) = calculateScore r (fullEntry b t p' k')).
Proof.
  intros Hb. unfold bonusShown; cbn. split.
  - rewrite andb_true_iff, Z.eqb_eq, Z.ltb_lt. tauto.
  - intros Hhidden. rewrite !calculateScore_full.
    destruct (Z.eqb_spec b 0) as [->|Hb0]; [done|].
    destruct (Z.eqb_spec b t) as [->|Hbt]; [|done].
    destruct (Z.ltb_spec 0 t); [discriminate | lia].
Qed.

Lemma hidden_bonuses_do_not_count_witness :
  calculateScore 4 (fullEntry 2 3 5 true) = calculateScore 4 (fullEntry 2 3 0 false).
Proof.
  destruct (hidden_bonuses_do_not_count 2 3 5 0 4 true false) as [_ Hsame];
    [lia|].
  apply Hsame. reflexivity.
Defined.

(** X3.  With bid and tricks between 0 and the round number and at most
    5 pirates, a round brings between -10r and 20r + 200 points. *)
Theorem score_range (b t p r : Z) (k : bool) :
  0 <= b <= r -> 0 <= t <= r -> 0 <= p <= 5 ->
  exists z,
    calculateScore r (fullEntry b t p k) = Int z /\
    - 10 * r <= z <= 20 * r + 200.
Proof.
  intros Hb Ht Hp. rewrite calculateScore_full. eexists. split; [done|].
  destruct (Z.eqb_spec b 0) as [->|Hb0].
  - destruct (Z.eqb_spec t 0) as [->|Ht0]; lia.
  - destruct (Z.eqb_spec b t) as [->|Hbt]; [destruct k|]; lia.
Qed.

Lemma score_range_witness :
  exists z,
    calculateScore 10 (fullEntry 10 10 5 true) = Int z /\
    - 10 * 10 <= z <= 20 * 10 + 200.
Proof. apply (score_range 10 10 5 10 true); lia. Defined.

(** ** The steppers *)

(** X4.  [updateTricks] moves the tricks of an existing entry by
    [delta] and clamps the result between 0 and the round number; the
    bid, the bonuses, the other entries and the rest of the session
    stay as they are. *)
Theorem updateTricks_clamps (s : State) (i delta t : Z) (data : PlayerRoundData) :
  roundData s !! i = Some data ->
  tricks data = Some (Int t) ->
  0 <= currentRound s ->
  let t' := Z.max 0 (Z.min (currentRound s) (t + delta)) in
  updateTricks i delta s
  = setRoundData
      (<[i := {| bid := bid data; tricks := Some (Int t');
                 piratesCapture := piratesCapture data;
                 skullKingCapture := skullKingCapture data |}]> (roundData s)) s /\
  0 <= t' <= currentRound s /\
  (0 <= t + delta <= currentRound s -> t' = t + delta) /\
  (forall j, j <> i -> roundData (updateTricks i delta s) !! j = roundData s !! j).
Proof.
  intros Hi Ht Hr t'. unfold updateTricks. rewrite Hi, Ht. cbn.
  split; [done|]. split; [lia|]. split; [lia|].
  intros j Hj. by apply lookup_insert_ne.
Qed.

Lemma updateTricks_clamps_witness :
  roundData (updateTricks 0 7 noTricksYet) !! 0 = Some (fullEntry 0 1 0 false).
Proof.
  destruct (updateTricks_clamps noTricksYet 0 7 0 freshEntry) as (Heq & _);
    [reflexivity | reflexivity | cbn; lia |].
  rewrite Heq. reflexivity.
Defined.

(** X5.  [updatePiratesCapture] moves the pirate captures of an existing
    entry by [delta] and clamps the result between 0 and 5, whatever the
    round; nothing else changes. *)
Theorem updatePiratesCapture_clamps (s : State) (i delta p : Z) (data : PlayerRoundData) :
  roundData s !! i = Some data ->
  piratesCapture data = Some (Int p) ->
  let p' := Z.max 0 (Z.min 5 (p + delta)) in
  updatePiratesCapture i delta s
  = setRoundData
      (<[i := {| bid := bid data; tricks := tricks data;
                 piratesCapture := Some (Int p');
                 skullKingCapture := skullKingCapture data |}]> (roundData s)) s /\
  0 <= p' <= 5 /\
  (0 <= p + delta <= 5 -> p' = p + delta) /\
  (forall j, j <> i -> roundData (updatePiratesCapture i delta s) !! j = roundData s !! j).
Proof.
  intros Hi Hp p'. unfold updatePiratesCapture. rewrite Hi, Hp. cbn.
  split; [done|]. split; [lia|]. split; [lia|].
  intros j Hj. by apply lookup_insert_ne.
Qed.

Lemma updatePiratesCapture_clamps_witness :
  roundData (updatePiratesCapture 1 (-3) noTricksYet) !! 1 = Some (fullEntry 0 0 0 false).
Proof.
  destruct (updatePiratesCapture_clamps noTricksYet 1 (-3) 0 freshEntry) as (Heq & _);
    [reflexivity | reflexivity |].
  rewrite Heq. reflexivity.
Defined.

Lemma setRoundData_same (s : State) : setRoundData (roundData s) s = s.
Proof. by destruct s. Qed.

Lemma setRoundData_twice (m m' : gmap Z PlayerRoundData) (s : State) :
  setRoundData m' (setRoundData m s) = setRoundData m' s.
Proof. done. Qed.

(** X6.  Toggling the Skull King capture of an entry twice gives the
    session back, once the flag is defined. *)
Theorem toggleSkullKingCapture_twice (s : State) (i : Z) (data : PlayerRoundData) (k : bool) :
  roundData s !! i = Some data ->
  skullKingCapture data = Some k ->
  (exists data',
     roundData (toggleSkullKingCapture i s) !! i = Some data' /\
     skullKingCapture data' = Some (negb k)) /\
  toggleSkullKingCapture i (toggleSkullKingCapture i s) = s.
Proof.
  intros Hi Hk. unfold toggleSkullKingCapture at 1 3. rewrite Hi. split.
  - eexists. cbn. rewrite lookup_insert_eq. split; [done|]. cbn.
    rewrite Hk. by destruct k.
  - unfold toggleSkullKingCapture. cbn [roundData setRoundData].
    rewrite lookup_insert_eq.
    cbn [bid tricks piratesCapture skullKingCapture].
    rewrite setRoundData_twice, insert_insert_eq, Hk.
    replace (negb (Num.truthy (Some (negb (Num.truthy (Some k)))))) with k
      by (destruct k; reflexivity).
    rewrite insert_id; [apply setRoundData_same|].
    rewrite Hi. f_equal. destruct data; cbn in *. by rewrite Hk.
Qed.

Lemma toggleSkullKingCapture_twice_witness :
  toggleSkullKingCapture 2 (toggleSkullKingCapture 2 noTricksYet) = noTricksYet.
Proof.
  destruct (toggleSkullKingCapture_twice noTricksYet 2 freshEntry false) as [_ Hback];
    [reflexivity | reflexivity |].
  exact Hback.
Defined.

(** ** The trick total *)

Lemma foldl_tricks_from (l : list PlayerRoundData) : forall a,
  foldl (fun sum data => Num.add sum (Num.of_field (tricks data))) a l
  = Num.add a (trickSum l).
Proof.
  induction l as [|d l IH]; intros a; cbn [foldl trickSum foldr].
  - by rewrite add_0_r.
  - by rewrite IH, add_assoc.
Qed.

Lemma totalTricks_trickSum (m : gmap Z PlayerRoundData) :
  totalTricks m = trickSum (snd <$> map_to_list m).
Proof. unfold totalTricks. by rewrite foldl_tricks_from, add_0_l. Qed.

Lemma trickSum_Permutation (l l' : list PlayerRoundData) :
  l ≡ₚ l' -> trickSum l = trickSum l'.
Proof.
  induction 1 as [|d l l' _ IH|d d' l|l l' l'' _ IH1 _ IH2]; cbn [trickSum foldr].
  - done.
  - unfold trickSum in IH. by rewrite IH.
  - rewrite !add_assoc. f_equal. apply add_comm.
  - by rewrite IH1.
Qed.

Lemma totalTricks_insert_fresh (m : gmap Z PlayerRoundData) (i : Z) (d : PlayerRoundData) :
  m !! i = None ->
  totalTricks (<[i := d]> m) = Num.add (Num.of_field (tricks d)) (totalTricks m).
Proof.
  intros Hi. rewrite !totalTricks_trickSum.
  rewrite (trickSum_Permutation _ (snd <$> (i, d) :: map_to_list m)); [done|].
  apply fmap_Permutation. by apply map_to_list_insert.
Qed.

Lemma totalTricks_insert (m : gmap Z PlayerRoundData) (i : Z) (d : PlayerRoundData) :
  totalTricks (<[i := d]> m)
  = Num.add (Num.of_field (tricks d)) (totalTricks (delete i m)).
Proof.
  rewrite <- insert_delete_eq. apply totalTricks_insert_fresh, lookup_delete_eq.
Qed.

Lemma totalTricks_lookup (m : gmap Z PlayerRoundData) (i : Z) (d : PlayerRoundData) :
  m !! i = Some d ->
  totalTricks m = Num.add (Num.of_field (tricks d)) (totalTricks (delete i m)).
Proof.
  intros Hi. rewrite <- (insert_delete_id m i d Hi) at 1.
  apply totalTricks_insert_fresh, lookup_delete_eq.
Qed.

Lemma totalTricks_zero (m : gmap Z PlayerRoundData) :
  (forall i d, m !! i = Some d -> tricks d = Some (Int 0)) ->
  totalTricks m = Int 0.
Proof.
  intros Hzero. rewrite totalTricks_trickSum.
  assert (Hall : Forall (fun d => tricks d = Some (Int 0)) (snd <$> map_to_list m)).
  { apply Forall_fmap, Forall_forall. intros [i d] Hin.
    apply elem_of_map_to_list in Hin. by apply (Hzero i). }
  induction Hall as [|d l Hd _ IH]; cbn [trickSum foldr]; [done|].
  unfold trickSum in IH. by rewrite IH, Hd.
Qed.

Lemma totalTricks_fresh (ps : list Player) : totalTricks (freshRoundData ps) = Int 0.
Proof.
  apply totalTricks_zero. intros i d. rewrite freshRoundData_lookup.
  case_decide; [|done]. by intros [= <-].
Qed.

(** ** [setBid] on an existing entry *)

(** X7.  On an index that has an entry, [setBid] replaces the bid and
    nothing else: the tricks and bonuses of the entry, the other
    entries and the trick total that [finishRound] checks are as
    before; and of two bids in a row the second one stands. *)
Theorem setBid_changes_only_the_bid (s : State) (i v w : Z) (data : PlayerRoundData) :
  roundData s !! i = Some data ->
  roundData (setBid i v s) !! i
  = Some {| bid := v; tricks := tricks data;
            piratesCapture := piratesCapture data;
            skullKingCapture := skullKingCapture data |} /\
  (forall j, j <> i -> roundData (setBid i v s) !! j = roundData s !! j) /\
  totalTricks (roundData (setBid i v s)) = totalTricks (roundData s) /\
  setBid i w (setBid i v s) = setBid i w s.
Proof.
  intros Hi. unfold setBid. cbn [roundData setRoundData].
  rewrite Hi, !lookup_insert_eq. cbn [withBid tricks piratesCapture skullKingCapture].
  split; [done|]. split; [|split].
  - intros j Hj. by apply lookup_insert_ne.
  - by rewrite totalTricks_insert, (totalTricks_lookup _ i data Hi).
  - by rewrite setRoundData_twice, insert_insert_eq.
Qed.

Lemma setBid_changes_only_the_bid_witness :
  roundData (setBid 1 1 noTricksYet) !! 1 = Some (fullEntry 1 0 0 false) /\
  totalTricks (roundData (setBid 1 1 noTricksYet)) = totalTricks (roundData noTricksYet).
Proof.
  destruct (setBid_changes_only_the_bid noTricksYet 1 1 0 freshEntry)
    as (Hentry & _ & Htotal & _); [reflexivity|].
  split; [exact Hentry | exact Htotal].
Defined.

(** ** Finishing twice *)

(** X8.  After a round before the tenth has been finished, the next
    round starts without tricks, so a second [finishRound] right away
    alerts and changes nothing: no round can be skipped. *)
Theorem finishRound_twice_alerts (s s' : State) :
  finishRound s = Finished s' ->
  0 <= currentRound s < 10 ->
  roundData s' = freshRoundData (players s') /\
  totalTricks (roundData s') = Int 0 /\
  finishRound s' = ValidationAlert (Int 0) (currentRound s + 1) /\
  afterFinishRound s' = s'.
Proof.
  intros Hfin Hr.
  apply finishRound_Finished in Hfin
    as (_ & updated & roundScores & _ & _ & Hps' & _ & _ & Hrest).
  destruct (Z.ltb_spec (currentRound s) 10); [|lia].
  destruct Hrest as (_ & Hd' & Hr' & _).
  assert (Htotal : totalTricks (roundData s') = Int 0).
  { rewrite Hd'. apply totalTricks_fresh. }
  assert (Halert : finishRound s' = ValidationAlert (Int 0) (currentRound s + 1)).
  { unfold finishRound. rewrite Htotal, Hr'. cbn [Num.strict_ne].
    destruct (Z.eqb_spec 0 (currentRound s + 1)); [lia | done]. }
  split; [by rewrite Hd', Hps'|]. split; [done|]. split; [done|].
  unfold afterFinishRound. by rewrite Halert.
Qed.

Lemma finishRound_twice_alerts_witness :
  finishRound (afterFinishRound roundOneAgain) = ValidationAlert (Int 0) 2.
Proof.
  destruct (finishRound_twice_alerts roundOneAgain (afterFinishRound roundOneAgain))
    as (_ & _ & Halert & _); [by vm_compute | by vm_compute |].
  exact Halert.
Defined.

(** ** [removePlayer] *)

Lemma filter_index_delete (l : list Player) : forall (k index : nat),
  snd <$> filter (fun ip => fst ip <> index) (imap (fun i p => ((k + i)%nat, p)) l)
  = if decide (k <= index)%nat then delete (index - k)%nat l else l.
Proof.
  induction l as [|x l IH]; intros k index.
  - by case_decide.
  - rewrite imap_cons. cbn [fst].
    rewrite (imap_ext _ (fun i p => ((S k + i)%nat, p))) by (intros; cbn; f_equal; lia).
    rewrite Nat.add_0_r.
    destruct (decide (k = index)) as [->|Hne].
    + rewrite filter_cons_False by (cbn; intros Hne; by apply Hne).
      rewrite IH. rewrite decide_False by lia. rewrite decide_True by lia.
      by rewrite Nat.sub_diag.
    + rewrite filter_cons_True by done. rewrite fmap_cons, IH. cbn [snd].
      destruct (decide (k <= index)%nat) as [Hle|Hgt].
      * rewrite decide_True by lia.
        replace (index - k)%nat with (S (index - S k))%nat by lia. done.
      * by rewrite decide_False by lia.
Qed.

Lemma delete_past_end {A} (l : list A) : forall i,
  (length l <= i)%nat -> delete i l = l.
Proof.
  induction l as [|x l IH]; intros i Hi; [by destruct i|].
  destruct i as [|i]; cbn in *; [lia|]. f_equal. apply IH. lia.
Qed.

Lemma removePlayer_players (s : State) (index : nat) :
  players (removePlayer index s) = delete index (players s).
Proof.
  pose proof (filter_index_delete (players s) 0 index) as Hdel.
  rewrite decide_True, Nat.sub_0_r in Hdel by lia.
  exact Hdel.
Qed.

(** X9.  [removePlayer] takes out the player at the index and keeps the
    others in their order; an index past the end removes nobody. *)
Theorem removePlayer_deletes_index (s : State) (index : nat) :
  players (removePlayer index s) = delete index (players s) /\
  ((index < length (players s))%nat ->
   S (length (players (removePlayer index s))) = length (players s)) /\
  ((length (players s) <= index)%nat -> removePlayer index s = s) /\
  (forall j, (j < index)%nat ->
     players (removePlayer index s) !! j = players s !! j) /\
  (forall j, (index <= j)%nat ->
     players (removePlayer index s) !! j = players s !! S j).
Proof.
  pose proof (removePlayer_players s index) as Hdel.
  split; [done|]. split; [|split; [|split]].
  - intros Hlt. rewrite Hdel, length_delete by by apply lookup_lt_is_Some.
    lia.
  - intros Hge.
    change (removePlayer index s) with (setPlayers (players (removePlayer index s)) s).
    rewrite Hdel, delete_past_end by done. by destruct s.
  - intros j Hj. rewrite Hdel. by apply list_lookup_delete_lt.
  - intros j Hj. rewrite Hdel. by apply list_lookup_delete_ge.
Qed.

(** ** Undo after the two checkpoints *)

(** X10.  In every reachable state, confirming the bids and undoing at
    once gives the session back; in between, only the phase (scoring)
    and the undo log (one snapshot more, holding the session as it was)
    differ. *)
Theorem undo_after_confirmBids (s : State) :
  reachable s ->
  confirmBids s
  = setRoundPhase scoring (setPhaseHistory (phaseHistory s ++ [contents s]) s) /\
  performUndo (confirmBids s) = s.
Proof.
  intros Hroom%reachable_log_room.
  assert (Hconfirm : confirmBids s
            = setRoundPhase scoring (setPhaseHistory (phaseHistory s ++ [contents s]) s)).
  { unfold confirmBids. by rewrite savePhaseSnapshot_contents, pushSnapshot_room. }
  split; [done|]. rewrite Hconfirm.
  rewrite (performUndo_snoc _ (phaseHistory s) (contents s)) by done.
  by destruct s.
Qed.

Lemma undo_after_confirmBids_witness :
  performUndo (confirmBids crewOfTwo) = crewOfTwo.
Proof.
  assert (Hreach : reachable crewOfTwo).
  { apply run_reachable; [apply reachable_init | by vm_compute]. }
  destruct (undo_after_confirmBids crewOfTwo Hreach) as [_ Hback].
  exact Hback.
Defined.

(** The score pass only reads the names of the players it is given. *)
Lemma scorePlayers_again r m prev ps : forall i acc updated roundScores,
  scorePlayers r m prev i ps acc = Some (updated, roundScores) ->
  scorePlayers r m prev i updated acc = Some (updated, roundScores).
Proof.
  induction ps as [|player ps IH]; intros i acc updated roundScores Hsp;
    cbn [scorePlayers] in Hsp.
  - by injection Hsp as <- <-.
  - destruct (m !! Z.of_nat i) as [data|] eqn:Hdata; [|discriminate].
    destruct (scorePlayers r m prev (S i) ps _) as [[updated' roundScores']|] eqn:Hrest;
      [|discriminate].
    injection Hsp as <- <-. cbn [scorePlayers]. rewrite Hdata.
    by rewrite (IH _ _ _ _ Hrest).
Qed.

(** Finding the round again in the history that [finishRound] leaves. *)
Lemma updateHistory_again r e h :
  round e = r ->
  let h' := updateHistory (findRoundIndex r h) e h in
  exists k,
    findRoundIndex r h' = Some k /\
    previousRounds (Some k) h' = previousRounds (findRoundIndex r h) h /\
    updateHistory (Some k) e h' = h'.
Proof.
  intros Hr h'. subst h'.
  assert (Hfound : forall (l : list GameHistoryEntry) k,
             l !! k = Some e ->
             (forall j y, l !! j = Some y -> (j < k)%nat -> round y <> r) ->
             findRoundIndex r l = Some k).
  { intros l k Hk Hfirst. unfold findRoundIndex.
    assert (list_find (fun e0 => round e0 = r) l = Some (k, e)) as ->; [|done].
    apply list_find_Some. split; [done|]. split; [done|]. exact Hfirst. }
  destruct (findRoundIndex r h) as [k|] eqn:Hfind.
  - destruct (findRoundIndex_Some _ _ _ Hfind) as (e0 & Hk & Hr0 & Hfirst).
    pose proof (lookup_lt_Some _ _ _ Hk) as Hlt.
    rewrite (updateHistory_Some _ _ _ _ Hk).
    exists k. split; [|split].
    + apply Hfound; [by apply list_lookup_insert_eq|].
      intros j y Hj Hjk. rewrite list_lookup_insert_ne in Hj by lia.
      by apply (Hfirst j).
    + unfold previousRounds.
      by rewrite take_insert_ge, drop_insert_lt by lia.
    + unfold updateHistory.
      rewrite take_insert_ge, drop_insert_lt by lia.
      symmetry. by apply insert_take_drop.
  - exists (length h). unfold updateHistory at 1 2 3. split; [|split].
    + apply Hfound; [by apply list_lookup_middle|].
      intros j y Hj Hjk. rewrite lookup_app_l in Hj by done.
      intros Hy. apply (findRoundIndex_None _ _ Hfind).
      rewrite <- Hy. apply list_elem_of_fmap. exists y. split; [done|].
      by eapply list_elem_of_lookup_2.
    + unfold previousRounds.
      rewrite take_app_length, drop_app_ge, drop_ge by (cbn; lia).
      by rewrite app_nil_r.
    + unfold updateHistory.
      rewrite take_app_length, drop_app_ge, drop_ge by (cbn; lia).
      done.
Qed.

(** X11.  Undo right after a round before the tenth has been finished
    leads to the end of that round's scoring: the players and the
    history as the round left them, the round data as they were
    entered, the log as before.  Finishing from there gives the very
    state the first finish gave: redoing without a change changes
    nothing. *)
Theorem undo_after_finishRound (s s' : State) :
  finishRound s = Finished s' ->
  currentRound s < 10 ->
  (length (phaseHistory s) < 20)%nat ->
  performUndo s'
  = mkState (gameStarted s) (players s') (playerName s) (currentRound s) scoring
            (roundData s) (gameHistory s') (phaseHistory s) /\
  finishRound (performUndo s') = Finished s'.
Proof.
  intros Hfin Hlt Hroom.
  pose proof Hfin as Hfirst.
  apply finishRound_Finished in Hfin
    as (Hsum & updated & roundScores & Hsp & Hh' & Hps' & Hg' & Hn' & Hrest).
  cbn zeta in Hh'.
  destruct (Z.ltb_spec (currentRound s) 10); [|lia].
  destruct Hrest as (Hl' & Hd' & Hr' & Hp').
  rewrite pushSnapshot_room in Hl' by done.
  assert (Hundo : performUndo s'
            = mkState (gameStarted s) (players s') (playerName s) (currentRound s)
                      scoring (roundData s) (gameHistory s') (phaseHistory s)).
  { rewrite (performUndo_snoc _ _ _ Hl'). cbn. by rewrite Hg', Hn', Hps', Hh'. }
  split; [done|]. rewrite Hundo.
  set (r := currentRound s) in *.
  set (e := {| round := r; scores := roundScores |}) in *.
  destruct (updateHistory_again r e (gameHistory s) eq_refl) as (k & Hk & Hprev & Hup).
  rewrite <- Hh' in Hk, Hprev, Hup.
  unfold finishRound. cbn [roundData currentRound gameHistory players phaseHistory].
  fold r. rewrite Hsum. cbn [Num.strict_ne]. rewrite Z.eqb_refl. cbn [negb].
  rewrite Hk, Hprev, Hps', (scorePlayers_again _ _ _ _ _ _ _ _ Hsp).
  fold e. rewrite Hup.
  destruct (Z.ltb_spec r 10); [|lia].
  rewrite copyRoundData_id, copyPlayers_id, copyHistory_id.
  rewrite pushSnapshot_room by done.
  f_equal. destruct s'; cbn in *.
  by rewrite Hg', Hps', Hn', Hr', Hp', Hd', Hh', Hl'.
Qed.

Lemma undo_after_finishRound_witness :
  finishRound (performUndo (afterFinishRound roundOneAgain))
  = Finished (afterFinishRound roundOneAgain).
Proof.
  destruct (undo_after_finishRound roundOneAgain (afterFinishRound roundOneAgain))
    as [_ Hredo]; [by vm_compute | by vm_compute | vm_compute; lia |].
  exact Hredo.
Defined.

(** ** A new game with the same crew *)

Lemma freshRoundData_length (ps ps' : list Player) :
  length ps = length ps' -> freshRoundData ps = freshRoundData ps'.
Proof. unfold freshRoundData. by intros ->. Qed.

(** X12.  [resetGame] followed by [startGame], with at least two
    players, opens round 1 in its bidding phase for the same players in
    the same order, all totals at 0, with a zero entry per player and
    an empty history and undo log, whatever the session was before. *)
Theorem new_game_same_crew (s : State) :
  (2 <= length (players s))%nat ->
  startGame (resetGame s)
  = mkState true ((fun p => mkPlayer (name p) (Int 0)) <$> players s) (playerName s)
            1 bidding (freshRoundData (players s)) [] [].
Proof.
  intros Hn. unfold startGame, resetGame.
  cbn [players setPlayers setGameStarted setCurrentRound setRoundPhase setRoundData
       setGameHistory setPhaseHistory].
  rewrite length_fmap. destruct (Nat.leb_spec 2 (length (players s))); [|lia].
  rewrite (freshRoundData_length _ (players s)) by by rewrite length_fmap.
  done.
Qed.

Lemma new_game_same_crew_witness :
  currentRound (startGame (resetGame midGame)) = 1 /\
  totalScore <$> players (startGame (resetGame midGame)) = [Int 0; Int 0].
Proof.
  rewrite (new_game_same_crew midGame) by (cbn; lia).
  split; reflexivity.
Defined.

(** ** Invariants of the reachable states, continued *)

(** X13.  In every reachable state the round number is between 1 and
    10 and the undo log holds at most 19 snapshots, one per checkpoint
    passed; before the game starts the round is 1, the phase bidding
    and the log empty. *)
Theorem round_and_log_in_range (s : State) :
  reachable s ->
  1 <= currentRound s <= 10 /\
  (length (phaseHistory s) <= 19)%nat /\
  Z.of_nat (length (phaseHistory s)) <= checkpoints (roundPhase s) (currentRound s) /\
  (gameStarted s = false ->
   currentRound s = 1 /\ roundPhase s = bidding /\ phaseHistory s = []).
Proof.
  intros [Hr Hsetup Hlog _ _ _]%reachable_Invariant.
  pose proof (checkpoints_le_19 (roundPhase s) (currentRound s)).
  repeat split; try lia; by apply Hsetup.
Qed.

Lemma round_and_log_in_range_witness :
  1 <= currentRound roundOneAgain <= 10 /\
  (length (phaseHistory roundOneAgain) <= 19)%nat.
Proof.
  assert (Hreach : reachable roundOneAgain).
  { apply run_reachable; [apply reachable_init | by vm_compute]. }
  destruct (round_and_log_in_range roundOneAgain Hreach) as (Hr & Hl & _).
  exact (conj Hr Hl).
Defined.

Lemma elem_of_tail {A} (x : A) (l : list A) : x ∈ tail l -> x ∈ l.
Proof. destruct l; cbn; [done|]. intros Hx. by right. Qed.

Lemma elem_of_pushSnapshot (x y : PhaseSnapshot.t) (log : list PhaseSnapshot.t) :
  y ∈ pushSnapshot x log -> y = x \/ y ∈ log.
Proof.
  unfold pushSnapshot. intros Hy.
  assert (Hin : y ∈ log ++ [x]).
  { destruct (20 <? _)%nat; [by apply elem_of_tail | done]. }
  apply elem_of_app in Hin as [Hin | ->%list_elem_of_singleton]; auto.
Qed.

Lemma elem_of_removelast {A} (x : A) (l : list A) : x ∈ removelast l -> x ∈ l.
Proof.
  destruct l as [|y l _] using rev_ind; [done|].
  rewrite removelast_last. intros Hx. apply elem_of_app. by left.
Qed.

(** What [performUndo] restores, when there is something to undo. *)
Lemma performUndo_cases (s : State) :
  performUndo s = s \/
  exists log snap,
    phaseHistory s = log ++ [snap] /\
    performUndo s
    = mkState (gameStarted s) (PhaseSnapshot.players snap) (playerName s)
              (PhaseSnapshot.currentRound snap) (PhaseSnapshot.roundPhase snap)
              (PhaseSnapshot.roundData snap) (PhaseSnapshot.gameHistory snap) log.
Proof.
  destruct (phaseHistory s) as [|snap log _] eqn:Hlog using rev_ind.
  - left. unfold performUndo. by rewrite Hlog.
  - right. exists log, snap. split; [done|]. by apply performUndo_snoc.
Qed.

Lemma scorePlayers_names r m prev ps : forall i acc updated roundScores,
  scorePlayers r m prev i ps acc = Some (updated, roundScores) ->
  name <$> updated = name <$> ps.
Proof.
  induction ps as [|player ps IH]; intros i acc updated roundScores Hsp;
    cbn [scorePlayers] in Hsp.
  - by injection Hsp as <- <-.
  - destruct (m !! Z.of_nat i) as [data|]; [|discriminate].
    destruct (scorePlayers r m prev (S i) ps _) as [[updated' roundScores']|] eqn:Hrest;
      [|discriminate].
    injection Hsp as <- <-. cbn. f_equal. by eapply IH.
Qed.

Lemma names_length (ps ps' : list Player) :
  name <$> ps = name <$> ps' -> length ps = length ps'.
Proof. intros Heq. by rewrite <- (length_fmap name ps), Heq, length_fmap. Qed.

Lemma names_nonempty (ps ps' : list Player) :
  name <$> ps = name <$> ps' ->
  Forall (fun p => name p <> []) ps' -> Forall (fun p => name p <> []) ps.
Proof.
  intros Heq Hall.
  apply (Forall_fmap name (fun v => v <> [])).
  rewrite Heq. by apply Forall_fmap.
Qed.

Lemma nonEmpty_ne (v : jsString) : nonEmpty v = true -> v <> [].
Proof. by destruct v. Qed.

Lemma CrewInvariant_initial : CrewInvariant initialState.
Proof.
  split; cbn; try done; try lia.
  intros snap Hin. by apply elem_of_nil in Hin.
Qed.

Lemma CrewInvariant_step (s : State) (e : Event) :
  Invariant s -> CrewInvariant s -> offered s e = true ->
  CrewInvariant (handle e s).
Proof.
  intros Hinv [Hsize Hstarted Hnames Hsnaps] Hoff.
  assert (Hframe : forall s',
             gameStarted s' = gameStarted s -> players s' = players s ->
             phaseHistory s' = phaseHistory s -> CrewInvariant s').
  { intros s' Hg Hps Hl. split; rewrite ?Hg, ?Hps, ?Hl; done. }
  assert (Hnolog : gameStarted s = false -> phaseHistory s = []).
  { intros Hg. by apply (inv_setup s Hinv). }
  destruct e; cbn [handle].
  - (* TypeName *) by apply Hframe.
  - (* AddPlayer *)
    on_screen Hoff s. unfold addPlayer.
    destruct (nonEmpty _) eqn:Hname; cbn [andb]; [|by apply Hframe].
    destruct (Nat.ltb_spec (length (players s)) 6); [|by apply Hframe].
    split; cbn.
    + rewrite length_app; cbn. lia.
    + by rewrite Hg.
    + apply Forall_app. split; [done|]. constructor; [|done].
      cbn. by apply nonEmpty_ne.
    + rewrite (Hnolog eq_refl). intros snap Hin. by apply elem_of_nil in Hin.
  - (* RemovePlayer *)
    on_screen Hoff s.
    split; cbn [gameStarted phaseHistory removePlayer setPlayers].
    + change (length (players (removePlayer index s)) <= 6)%nat.
      rewrite removePlayer_players.
      destruct (decide (index < length (players s))%nat).
      * rewrite length_delete by by apply lookup_lt_is_Some. lia.
      * rewrite delete_past_end by lia. done.
    + by rewrite Hg.
    + change (Forall (fun p => name p <> []) (players (removePlayer index s))).
      rewrite removePlayer_players. apply Forall_forall. intros p Hp.
      rewrite Forall_forall in Hnames. apply Hnames.
      apply list_elem_of_lookup in Hp as [j Hj].
      destruct (decide (j < index)%nat).
      * rewrite list_lookup_delete_lt in Hj by done.
        by eapply list_elem_of_lookup_2.
      * rewrite list_lookup_delete_ge in Hj by lia.
        by eapply list_elem_of_lookup_2.
    + rewrite (Hnolog eq_refl). intros snap Hin. by apply elem_of_nil in Hin.
  - (* ClearPlayers *)
    on_screen Hoff s. destruct confirmed; [|by apply Hframe].
    split; cbn; try done; try lia.
    + by rewrite Hg.
    + rewrite (Hnolog eq_refl). intros snap Hin. by apply elem_of_nil in Hin.
  - (* StartGame *)
    on_screen Hoff s. unfold startGame. rewrite Hoff.
    split; cbn; try done.
    + intros _. by apply Nat.leb_le.
    + intros snap Hin. by apply elem_of_nil in Hin.
  - (* SetBid *) by apply Hframe.
  - (* UpdateTricks *)
    unfold updateTricks. destruct (roundData s !! playerIndex); by apply Hframe.
  - (* UpdatePiratesCapture *)
    unfold updatePiratesCapture. destruct (roundData s !! playerIndex); by apply Hframe.
  - (* ToggleSkullKingCapture *)
    unfold toggleSkullKingCapture. destruct (roundData s !! playerIndex); by apply Hframe.
  - (* ConfirmBids *)
    unfold confirmBids. rewrite savePhaseSnapshot_contents.
    split; cbn; try done.
    intros snap [-> | Hin]%elem_of_pushSnapshot; [done | by apply Hsnaps].
  - (* FinishRound *)
    unfold afterFinishRound.
    destruct (finishRound s) as [| |s'] eqn:Hfin; [by apply Hframe..|].
    apply finishRound_Finished in Hfin
      as (_ & updated & roundScores & Hsp & _ & Hps' & Hg' & _ & Hrest).
    pose proof (scorePlayers_names _ _ _ _ _ _ _ _ Hsp) as Hsame.
    split; rewrite ?Hg', ?Hps'.
    + by rewrite (names_length _ _ Hsame).
    + by rewrite (names_length _ _ Hsame).
    + by apply (names_nonempty _ _ Hsame).
    + intros snap Hin. rewrite Hsame.
      destruct (currentRound s <? 10).
      * destruct Hrest as (Hl' & _). rewrite Hl' in Hin.
        apply elem_of_pushSnapshot in Hin as [-> | Hin]; [done | by apply Hsnaps].
      * destruct Hrest as (Hl' & _). rewrite Hl' in Hin. by apply Hsnaps.
  - (* Undo *)
    destruct (performUndo_cases s) as [-> | (log & snap & Hlog & ->)];
      [by apply Hframe|].
    assert (Hsame : name <$> PhaseSnapshot.players snap = name <$> players s).
    { apply Hsnaps. rewrite Hlog. apply elem_of_app. right. by left. }
    split; cbn.
    + by rewrite (names_length _ _ Hsame).
    + by rewrite (names_length _ _ Hsame).
    + by apply (names_nonempty _ _ Hsame).
    + intros x Hin. rewrite Hsame. apply Hsnaps.
      rewrite Hlog. apply elem_of_app. by left.
  - (* EndGameEarly *)
    destruct confirmed; by apply Hframe.
  - (* ResetGame *)
    split; cbn.
    + by rewrite length_fmap.
    + done.
    + apply Forall_fmap. eapply Forall_impl; [exact Hnames|]. done.
    + intros snap Hin. by apply elem_of_nil in Hin.
Qed.

Lemma reachable_CrewInvariant (s : State) : reachable s -> CrewInvariant s.
Proof.
  induction 1 as [|s e Hreach IH Hoff]; [apply CrewInvariant_initial|].
  apply CrewInvariant_step; [by apply reachable_Invariant | done | done].
Qed.

(** X14.  In every reachable state there are at most 6 players, at
    least 2 once the game has started, and every player has a name that
    is not empty; the snapshots of the undo log hold the same players
    by name, so that no undo changes the crew. *)
Theorem crew_is_stable (s : State) :
  reachable s ->
  (length (players s) <= 6)%nat /\
  (gameStarted s = true -> (2 <= length (players s))%nat) /\
  Forall (fun p => name p <> []) (players s) /\
  name <$> players (performUndo s) = name <$> players s /\
  name <$> players (afterFinishRound s) = name <$> players s.
Proof.
  intros Hreach.
  destruct (reachable_CrewInvariant s Hreach) as [Hsize Hstarted Hnames Hsnaps].
  do 3 (split; [done|]). split.
  - destruct (performUndo_cases s) as [-> | (log & snap & Hlog & ->)]; [done|].
    cbn. apply Hsnaps. rewrite Hlog. apply elem_of_app. right. by left.
  - unfold afterFinishRound.
    destruct (finishRound s) as [| |s'] eqn:Hfin; [done..|].
    apply finishRound_Finished in Hfin
      as (_ & updated & roundScores & Hsp & _ & Hps' & _).
    rewrite Hps'. by eapply scorePlayers_names.
Qed.

Lemma crew_is_stable_witness :
  (length (players roundOneAgain) <= 6)%nat /\
  name <$> players (performUndo roundOneAgain) = name <$> players roundOneAgain.
Proof.
  assert (Hreach : reachable roundOneAgain).
  { apply run_reachable; [apply reachable_init | by vm_compute]. }
  destruct (crew_is_stable roundOneAgain Hreach) as (Hsize & _ & _ & Hundo & _).
  exact (conj Hsize Hundo).
Defined.

(** ** The shape of the history *)

Lemma seqZ_snoc (k : Z) : 1 <= k -> seqZ 1 (k - 1) ++ [k] = seqZ 1 k.
Proof.
  intros Hk. replace k with (Z.of_nat (S (Z.to_nat (k - 1)))) at 3 by lia.
  rewrite seqZ_S. rewrite Z2Nat.id by lia. f_equal. f_equal. lia.
Qed.

(** Finishing round [r] leaves the rounds 1 to [r], whether the entry
    of round [r] was there already or not. *)
Lemma updateHistory_roundsUpTo r e h :
  1 <= r -> round e = r ->
  roundsUpTo (r - 1) h \/ roundsUpTo r h ->
  roundsUpTo r (updateHistory (findRoundIndex r h) e h).
Proof.
  unfold roundsUpTo. intros Hr He Hshape.
  rewrite (updateHistory_rounds r) by done.
  destruct (findRoundIndex r h) as [k|] eqn:Hfind.
  - destruct Hshape as [Hshape|Hshape]; [|done].
    destruct (findRoundIndex_Some _ _ _ Hfind) as (e0 & Hk & Hr0 & _).
    assert (Hin : r ∈ round <$> h).
    { rewrite <- Hr0. apply list_elem_of_fmap. exists e0. split; [done|].
      by eapply list_elem_of_lookup_2. }
    rewrite Hshape in Hin. apply elem_of_seqZ in Hin. lia.
  - destruct Hshape as [Hshape|Hshape]; [by rewrite Hshape, seqZ_snoc|].
    exfalso. apply (findRoundIndex_None _ _ Hfind).
    rewrite Hshape. apply elem_of_seqZ. lia.
Qed.

Lemma HistoryShape_initial : HistoryShape initialState.
Proof.
  split; cbn.
  - by left.
  - intros snap Hin. by apply elem_of_nil in Hin.
Qed.

Lemma HistoryShape_step (s : State) (e : Event) :
  Invariant s -> HistoryShape s -> offered s e = true ->
  HistoryShape (handle e s).
Proof.
  intros Hinv [Hlive Hsnaps] Hoff.
  assert (Hframe : forall s',
             currentRound s' = currentRound s -> roundPhase s' = roundPhase s ->
             gameHistory s' = gameHistory s -> phaseHistory s' = phaseHistory s ->
             HistoryShape s').
  { intros s' Hr Hp Hh Hl. split; rewrite ?Hr, ?Hp, ?Hh, ?Hl; done. }
  pose proof (inv_round s Hinv) as Hround.
  destruct e; cbn [handle].
  - (* TypeName *) by apply Hframe.
  - (* AddPlayer *) unfold addPlayer. destruct (_ && _); by apply Hframe.
  - (* RemovePlayer *) by apply Hframe.
  - (* ClearPlayers *) destruct confirmed; by apply Hframe.
  - (* StartGame *)
    unfold startGame. destruct (2 <=? _)%nat; [|by apply Hframe].
    split; cbn; [done|]. intros snap Hin. by apply elem_of_nil in Hin.
  - (* SetBid *) by apply Hframe.
  - (* UpdateTricks *)
    unfold updateTricks. destruct (roundData s !! playerIndex); by apply Hframe.
  - (* UpdatePiratesCapture *)
    unfold updatePiratesCapture. destruct (roundData s !! playerIndex); by apply Hframe.
  - (* ToggleSkullKingCapture *)
    unfold toggleSkullKingCapture. destruct (roundData s !! playerIndex); by apply Hframe.
  - (* ConfirmBids *)
    on_screen Hoff s.
    unfold confirmBids. rewrite savePhaseSnapshot_contents.
    destruct Hlive as [Hlive | [Hne _]]; [|done].
    split; cbn.
    + by left.
    + intros snap [-> | Hin]%elem_of_pushSnapshot; [|by apply Hsnaps].
      cbn. by rewrite Hp.
  - (* FinishRound *)
    on_screen Hoff s.
    unfold afterFinishRound.
    destruct (finishRound s) as [| |s'] eqn:Hfin;
      [by apply Hframe; rewrite ?Hp.. |].
    apply finishRound_Finished in Hfin
      as (_ & updated & roundScores & _ & Hh' & _ & _ & _ & Hrest).
    cbn zeta in Hh'.
    assert (Hshape : roundsUpTo (currentRound s) (gameHistory s')).
    { rewrite Hh'. apply updateHistory_roundsUpTo; [lia | done |].
      destruct Hlive as [Hlive | [_ Hlive]]; auto. }
    destruct (currentRound s <? 10).
    + destruct Hrest as (Hl' & _ & Hr' & Hp').
      split; rewrite ?Hr', ?Hp', ?Hl'.
      * left. by replace (currentRound s + 1 - 1) with (currentRound s) by lia.
      * intros snap [-> | Hin]%elem_of_pushSnapshot; [|by apply Hsnaps].
        cbn. by rewrite <- Hh'.
    + destruct Hrest as (Hl' & _ & Hr' & Hp').
      split; rewrite ?Hr', ?Hp', ?Hl'; [|done].
      right. by split.
  - (* Undo *)
    destruct (performUndo_cases s) as [-> | (log & snap & Hlog & ->)];
      [by apply Hframe|].
    assert (Hsnap : snap ∈ phaseHistory s).
    { rewrite Hlog. apply elem_of_app. right. by left. }
    split; cbn.
    + specialize (Hsnaps snap Hsnap).
      destruct (PhaseSnapshot.roundPhase snap); [by left | by right..].
    + intros x Hin. apply Hsnaps. rewrite Hlog. apply elem_of_app. by left.
  - (* EndGameEarly *)
    destruct confirmed; [|by apply Hframe].
    split; cbn; [|done].
    destruct Hlive as [Hlive | [_ Hlive]]; [by left | by right].
  - (* ResetGame *)
    split; cbn.
    + by left.
    + intros snap Hin. by apply elem_of_nil in Hin.
Qed.

Lemma reachable_HistoryShape (s : State) : reachable s -> HistoryShape s.
Proof.
  induction 1 as [|s e Hreach IH Hoff]; [apply HistoryShape_initial|].
  apply HistoryShape_step; [by apply reachable_Invariant | done | done].
Qed.

(** X15.  In every reachable state the history holds the rounds 1, 2,
    ... in this order without a gap: up to the round before the current
    one, or up to the current one once it has been scored, which is
    never the case during bidding.  So a round that is finished finds
    its own entry last in the history or not at all. *)
Theorem history_is_contiguous (s : State) :
  reachable s ->
  (round <$> gameHistory s = seqZ 1 (currentRound s - 1) \/
   round <$> gameHistory s = seqZ 1 (currentRound s)) /\
  (roundPhase s = bidding ->
   round <$> gameHistory s = seqZ 1 (currentRound s - 1)) /\
  (Z.of_nat (length (gameHistory s)) = currentRound s - 1 \/
   Z.of_nat (length (gameHistory s)) = currentRound s) /\
  forall s', finishRound s = Finished s' ->
    round <$> gameHistory s' = seqZ 1 (currentRound s).
Proof.
  intros Hreach.
  destruct (reachable_HistoryShape s Hreach) as [Hlive _].
  pose proof (inv_round s (reachable_Invariant s Hreach)) as Hround.
  unfold roundsUpTo in Hlive.
  assert (Hshape : round <$> gameHistory s = seqZ 1 (currentRound s - 1) \/
                   round <$> gameHistory s = seqZ 1 (currentRound s)).
  { destruct Hlive as [Hlive | [_ Hlive]]; auto. }
  split; [done|]. split; [|split].
  - intros Hp. destruct Hlive as [Hlive | [Hne _]]; done.
  - destruct Hshape as [Hshape|Hshape];
      apply (f_equal length) in Hshape;
      rewrite length_fmap, length_seqZ in Hshape; lia.
  - intros s' Hfin.
    apply finishRound_Finished in Hfin
      as (_ & updated & roundScores & _ & Hh' & _).
    cbn zeta in Hh'. rewrite Hh'.
    apply updateHistory_roundsUpTo; [lia | done | done].
Qed.

Lemma history_is_contiguous_witness :
  round <$> gameHistory (afterFinishRound roundOneAgain) = seqZ 1 1.
Proof.
  assert (Hreach : reachable roundOneAgain).
  { apply run_reachable; [apply reachable_init | by vm_compute]. }
  destruct (history_is_contiguous roundOneAgain Hreach) as (_ & _ & _ & Hfin).
  apply Hfin. by vm_compute.
Defined.

(** ** Totals and history agree *)

Lemma totalsMatch_zero (ps : list Player) :
  Forall (fun p => totalScore p = Int 0) ps -> totalsMatch ps [].
Proof.
  intros Hall i p Hp. rewrite Forall_forall in Hall.
  rewrite (Hall p) by by eapply list_elem_of_lookup_2. done.
Qed.

(** After a successful [finishRound] every total is the sum of the
    player's scores over the history, whatever the state before. *)
Lemma finishRound_totalsMatch (s s' : State) :
  finishRound s = Finished s' -> totalsMatch (players s') (gameHistory s').
Proof.
  intros Hfin.
  apply finishRound_Finished in Hfin
    as (_ & updated & roundScores & Hsp & Hh' & Hps' & _).
  cbn zeta in Hh'.
  destruct (scorePlayers_spec _ _ _ _ _ _ _ _ Hsp) as (_ & _ & Hplayers).
  intros j p' Hj. rewrite Hps' in Hj.
  destruct (Hplayers j p' Hj) as (p & d & _ & _ & -> & Hrs). cbn in Hrs.
  rewrite Hh', sumScores_updateHistory. cbn. f_equal.
  unfold scoreAt; cbn. by rewrite Hrs.
Qed.

Lemma TotalsInvariant_initial : TotalsInvariant initialState.
Proof.
  split; cbn.
  - done.
  - intros i p Hp. by rewrite lookup_nil in Hp.
  - intros snap Hin. by apply elem_of_nil in Hin.
Qed.

Lemma TotalsInvariant_step (s : State) (e : Event) :
  Invariant s -> TotalsInvariant s -> offered s e = true ->
  TotalsInvariant (handle e s).
Proof.
  intros Hinv [Hsetup Hlive Hsnaps] Hoff.
  assert (Hframe : forall s',
             gameStarted s' = gameStarted s -> players s' = players s ->
             gameHistory s' = gameHistory s -> phaseHistory s' = phaseHistory s ->
             TotalsInvariant s').
  { intros s' Hg Hps Hh Hl. split; rewrite ?Hg, ?Hps, ?Hh, ?Hl; done. }
  assert (Hnolog : gameStarted s = false -> phaseHistory s = []).
  { intros Hg. by apply (inv_setup s Hinv). }
  assert (Hcrew : forall s' ps,
             gameStarted s = false ->
             gameStarted s' = false -> players s' = ps ->
             gameHistory s' = gameHistory s -> phaseHistory s' = phaseHistory s ->
             Forall (fun p => totalScore p = Int 0) ps ->
             TotalsInvariant s').
  { intros s' ps Hg Hg' Hps Hh Hl Hzero.
    destruct (Hsetup Hg) as [Hempty _].
    split; rewrite ?Hps, ?Hh, ?Hl, ?Hempty.
    - done.
    - by apply totalsMatch_zero.
    - rewrite (Hnolog Hg). intros snap Hin. by apply elem_of_nil in Hin. }
  destruct e; cbn [handle].
  - (* TypeName *) by apply Hframe.
  - (* AddPlayer *)
    on_screen Hoff s. unfold addPlayer.
    destruct (_ && _); [|by apply Hframe].
    eapply Hcrew; try done.
    apply Forall_app. split; [by apply Hsetup|]. by constructor.
  - (* RemovePlayer *)
    on_screen Hoff s.
    eapply Hcrew; try done.
    change (Forall (fun p => totalScore p = Int 0) (players (removePlayer index s))).
    rewrite removePlayer_players. apply Forall_forall. intros p Hp.
    destruct (Hsetup eq_refl) as [_ Hzero].
    rewrite Forall_forall in Hzero. apply Hzero.
    apply list_elem_of_lookup in Hp as [j Hj].
    destruct (decide (j < index)%nat).
    + rewrite list_lookup_delete_lt in Hj by done.
      by eapply list_elem_of_lookup_2.
    + rewrite list_lookup_delete_ge in Hj by lia.
      by eapply list_elem_of_lookup_2.
  - (* ClearPlayers *)
    on_screen Hoff s. destruct confirmed; [|by apply Hframe].
    eapply Hcrew; try done.
  - (* StartGame *)
    unfold startGame. destruct (2 <=? _)%nat; [|by apply Hframe].
    split; cbn; try done.
    intros snap Hin. by apply elem_of_nil in Hin.
  - (* SetBid *) by apply Hframe.
  - (* UpdateTricks *)
    unfold updateTricks. destruct (roundData s !! playerIndex); by apply Hframe.
  - (* UpdatePiratesCapture *)
    unfold updatePiratesCapture. destruct (roundData s !! playerIndex); by apply Hframe.
  - (* ToggleSkullKingCapture *)
    unfold toggleSkullKingCapture. destruct (roundData s !! playerIndex); by apply Hframe.
  - (* ConfirmBids *)
    unfold confirmBids. rewrite savePhaseSnapshot_contents.
    split; cbn; try done.
    intros snap [-> | Hin]%elem_of_pushSnapshot; [done | by apply Hsnaps].
  - (* FinishRound *)
    on_screen Hoff s.
    unfold afterFinishRound.
    destruct (finishRound s) as [| |s'] eqn:Hfin; [by apply Hframe..|].
    pose proof (finishRound_totalsMatch s s' Hfin) as Hmatch.
    apply finishRound_Finished in Hfin
      as (_ & updated & roundScores & _ & Hh' & Hps' & Hg' & _ & Hrest).
    cbn zeta in Hh'.
    split; rewrite ?Hg', ?Hg; [done | done |].
    intros snap Hin.
    destruct (currentRound s <? 10).
    + destruct Hrest as (Hl' & _). rewrite Hl' in Hin.
      apply elem_of_pushSnapshot in Hin as [-> | Hin]; [|by apply Hsnaps].
      cbn. by rewrite <- Hps', <- Hh'.
    + destruct Hrest as (Hl' & _). rewrite Hl' in Hin. by apply Hsnaps.
  - (* Undo *)
    on_screen Hoff s.
    + destruct (performUndo_cases s) as [-> | (log & snap & Hlog & ->)];
        [by apply Hframe|].
      split; cbn.
      * by rewrite Hg.
      * apply Hsnaps. rewrite Hlog. apply elem_of_app. right. by left.
      * intros x Hin. apply Hsnaps. rewrite Hlog. apply elem_of_app. by left.
    + destruct (performUndo_cases s) as [-> | (log & snap & Hlog & ->)];
        [by apply Hframe|].
      split; cbn.
      * by rewrite Hg.
      * apply Hsnaps. rewrite Hlog. apply elem_of_app. right. by left.
      * intros x Hin. apply Hsnaps. rewrite Hlog. apply elem_of_app. by left.
  - (* EndGameEarly *)
    destruct confirmed; by apply Hframe.
  - (* ResetGame *)
    split; cbn.
    + intros _. split; [done|]. apply Forall_fmap, Forall_forall. done.
    + apply totalsMatch_zero. apply Forall_fmap, Forall_forall. done.
    + intros snap Hin. by apply elem_of_nil in Hin.
Qed.

Lemma reachable_TotalsInvariant (s : State) : reachable s -> TotalsInvariant s.
Proof.
  induction 1 as [|s e Hreach IH Hoff]; [apply TotalsInvariant_initial|].
  apply TotalsInvariant_step; [by apply reachable_Invariant | done | done].
Qed.

(** X16.  In every reachable state the total of each player is the sum
    of the scores the history holds for the player's index, and before
    the game starts the history is empty and every total is 0; the same
    holds of the state any undo brings back. *)
Theorem totals_are_history_sums (s : State) :
  reachable s ->
  (forall (i : nat) (p : Player),
     players s !! i = Some p ->
     totalScore p = sumScores (Z.of_nat i) (gameHistory s)) /\
  (forall (i : nat) (p : Player),
     players (performUndo s) !! i = Some p ->
     totalScore p = sumScores (Z.of_nat i) (gameHistory (performUndo s))) /\
  (gameStarted s = false ->
   gameHistory s = [] /\ Forall (fun p => totalScore p = Int 0) (players s)).
Proof.
  intros Hreach.
  destruct (reachable_TotalsInvariant s Hreach) as [Hsetup Hlive Hsnaps].
  split; [done|]. split; [|done].
  destruct (performUndo_cases s) as [-> | (log & snap & Hlog & ->)]; [done|].
  cbn. apply Hsnaps. rewrite Hlog. apply elem_of_app. right. by left.
Qed.

Lemma totals_are_history_sums_witness :
  exists p,
    players (run replay initialState) !! 1%nat = Some p /\
    totalScore p = sumScores 1 (gameHistory (run replay initialState)).
Proof.
  assert (Hreach : reachable (run replay initialState)).
  { apply run_reachable; [apply reachable_init | by vm_compute]. }
  destruct (totals_are_history_sums _ Hreach) as (Hlive & _).
  exists (mkPlayer (text "B") (Int 70)).
  assert (Hp : players (run replay initialState) !! 1%nat = Some (mkPlayer (text "B") (Int 70)))
    by by vm_compute.
  split; [exact Hp | exact (Hlive 1%nat _ Hp)].
Defined.

(** ** What the buttons can bring about *)

Lemma clickable_offered (s : State) (e : Event) :
  clickable s e = true -> offered s e = true.
Proof.
  unfold clickable, offered.
  destruct (screen s), e; try done.
Qed.

Lemma played_reachable (s : State) : played s -> reachable s.
Proof.
  induction 1 as [|s e _ IH Hclick]; [apply reachable_init|].
  apply reachable_step; [done | by apply clickable_offered].
Qed.

Lemma run_played es : forall s,
  played s -> allClickable es s = true -> played (run es s).
Proof.
  induction es as [|e es IH]; intros s Hs Hclick; [done|].
  cbn in Hclick. apply andb_prop in Hclick as [He Hes].
  apply (IH (handle e s)); [by apply played_step | done].
Qed.

Lemma calculateScore_integer (r : Z) (d : PlayerRoundData) :
  entryInBounds r d -> exists z, calculateScore r d = Int z.
Proof.
  intros (t & p & k & -> & _). rewrite calculateScore_full. eauto.
Qed.

Lemma entryInBounds_inv (r : Z) (d : PlayerRoundData) :
  entryInBounds r d ->
  exists t p k,
    tricks d = Some (Int t) /\ piratesCapture d = Some (Int p) /\
    skullKingCapture d = Some k /\
    0 <= bid d <= r /\ 0 <= t <= r /\ 0 <= p <= 5.
Proof.
  intros (t & p & k & Hfull & Hb & Ht & Hp). exists t, p, k.
  rewrite Hfull. cbn. by rewrite Hfull in Hb.
Qed.

Lemma entryInBounds_intro (r b t p : Z) (k : bool) :
  0 <= b <= r -> 0 <= t <= r -> 0 <= p <= 5 ->
  entryInBounds r {| bid := b; tricks := Some (Int t);
                     piratesCapture := Some (Int p); skullKingCapture := Some k |}.
Proof. intros Hb Ht Hp. by exists t, p, k. Qed.

Lemma entryInBounds_fresh (r : Z) : 0 <= r -> entryInBounds r freshEntry.
Proof. intros Hr. exists 0, 0, false. cbn. repeat split; lia. Qed.

Lemma RoundDataOk_fresh (r : Z) (ps : list Player) :
  0 <= r -> RoundDataOk r (length ps) (freshRoundData ps).
Proof.
  intros Hr. split.
  - intros i. rewrite freshRoundData_lookup. case_decide; [|split; [|done]].
    + split; [done | by eexists].
    + by intros [? ?].
  - intros i d. rewrite freshRoundData_lookup. case_decide; [|done].
    intros [= <-]. by apply entryInBounds_fresh.
Qed.

Lemma RoundDataOk_insert r n m i d d' :
  RoundDataOk r n m -> m !! i = Some d -> entryInBounds r d' ->
  RoundDataOk r n (<[i := d']> m).
Proof.
  intros [Hkeys Hentries] Hi Hd'. split.
  - intros j. destruct (decide (i = j)) as [<-|Hne].
    + rewrite lookup_insert_eq. rewrite <- Hkeys, Hi. split; by eexists.
    + by rewrite lookup_insert_ne.
  - intros j x. destruct (decide (i = j)) as [<-|Hne].
    + rewrite lookup_insert_eq. by intros [= <-].
    + rewrite lookup_insert_ne by done. apply Hentries.
Qed.

Lemma RoundDataOk_length r n n' m :
  n = n' -> RoundDataOk r n m -> RoundDataOk r n' m.
Proof. by intros ->. Qed.

Lemma elem_of_updateHistory idx e h x :
  x ∈ updateHistory idx e h -> x = e \/ x ∈ h.
Proof.
  unfold updateHistory. destruct idx as [k|].
  - rewrite !elem_of_app, list_elem_of_singleton.
    intros [Hx | [Hx | Hx]]; auto; right.
    + by apply (subseteq_take k h).
    + by apply (subseteq_drop (S k) h).
  - rewrite elem_of_app, list_elem_of_singleton. tauto.
Qed.

(** The scores [finishRound] enters for a round with well-formed data
    are integers. *)
Lemma scorePlayers_integer r m prev ps updated roundScores :
  RoundDataOk r (length ps) m ->
  scorePlayers r m prev 0 ps ∅ = Some (updated, roundScores) ->
  forall i rs, roundScores !! i = Some rs -> exists z, score rs = Int z.
Proof.
  intros [Hkeys Hentries] Hsp i rs Hi.
  destruct (scorePlayers_spec _ _ _ _ _ _ _ _ Hsp) as (Hlen & Hkeep & Hplayers).
  destruct (decide (0 <= i < Z.of_nat (length ps))) as [Hin|Hout].
  - destruct (lookup_lt_is_Some_2 updated (Z.to_nat i)) as [p' Hp']; [lia|].
    destruct (Hplayers _ _ Hp') as (p & d & _ & Hd & _ & Hrs).
    cbn [Nat.add] in Hd, Hrs. rewrite Z2Nat.id in Hd, Hrs by lia.
    rewrite Hrs in Hi. injection Hi as <-. cbn.
    apply calculateScore_integer. by apply (Hentries i).
  - rewrite Hkeep in Hi by (cbn; lia). by rewrite lookup_empty in Hi.
Qed.

Lemma PlayedInvariant_initial : PlayedInvariant initialState.
Proof.
  split; cbn.
  - done.
  - intros e i rs Hin. by apply elem_of_nil in Hin.
  - intros snap Hin. by apply elem_of_nil in Hin.
Qed.

Lemma PlayedInvariant_step (s : State) (e : Event) :
  Invariant s -> PlayedInvariant s -> clickable s e = true ->
  PlayedInvariant (handle e s).
Proof.
  intros Hinv [Hdata Hscores Hsnaps] Hclick.
  pose proof (inv_round s Hinv) as Hround.
  assert (Hframe : forall s',
             gameStarted s' = gameStarted s -> currentRound s' = currentRound s ->
             players s' = players s -> roundData s' = roundData s ->
             gameHistory s' = gameHistory s -> phaseHistory s' = phaseHistory s ->
             PlayedInvariant s').
  { intros s' Hg Hr Hps Hd Hh Hl. split; rewrite ?Hg, ?Hr, ?Hps, ?Hd, ?Hh, ?Hl; done. }
  assert (Hsetup : forall s',
             gameStarted s' = false ->
             gameHistory s' = gameHistory s -> phaseHistory s' = phaseHistory s ->
             PlayedInvariant s').
  { intros s' Hg Hh Hl. split; rewrite ?Hg, ?Hh, ?Hl; done. }
  assert (Hentry : forall s' i d d',
             roundData s !! i = Some d ->
             gameStarted s' = gameStarted s -> currentRound s' = currentRound s ->
             players s' = players s -> roundData s' = <[i := d']> (roundData s) ->
             gameHistory s' = gameHistory s -> phaseHistory s' = phaseHistory s ->
             entryInBounds (currentRound s) d' ->
             PlayedInvariant s').
  { intros s' i d d' Hi Hg Hr Hps Hd Hh Hl Hd'.
    split; rewrite ?Hg, ?Hr, ?Hps, ?Hd, ?Hh, ?Hl; try done.
    intros Hgs. eapply RoundDataOk_insert; [by apply Hdata | done | done]. }
  assert (Hstarted : forall b : bool,
             (if negb (gameStarted s) then SetupScreen
              else match roundPhase s with
                   | complete => CompleteScreen
                   | bidding => BiddingScreen
                   | scoring => ScoringScreen
                   end) <> SetupScreen -> gameStarted s = true).
  { intros _. by destruct (gameStarted s). }
  unfold clickable, screen in Hclick.
  destruct e; cbn [handle].
  - (* TypeName *)
    destruct (gameStarted s) eqn:Hg; cbn [negb] in Hclick;
      [by destruct (roundPhase s)|]. by apply Hsetup.
  - (* AddPlayer *)
    destruct (gameStarted s) eqn:Hg; cbn [negb] in Hclick;
      [by destruct (roundPhase s)|].
    unfold addPlayer. destruct (_ && _); by apply Hsetup.
  - (* RemovePlayer *)
    destruct (gameStarted s) eqn:Hg; cbn [negb] in Hclick;
      [by destruct (roundPhase s)|]. by apply Hsetup.
  - (* ClearPlayers *)
    destruct (gameStarted s) eqn:Hg; cbn [negb] in Hclick;
      [by destruct (roundPhase s)|].
    destruct confirmed; by apply Hsetup.
  - (* StartGame *)
    unfold startGame. destruct (2 <=? _)%nat; [|by apply Hframe].
    split; cbn; try done.
    + intros _. apply RoundDataOk_fresh. lia.
    + intros snap Hin. by apply elem_of_nil in Hin.
  - (* SetBid *)
    destruct (gameStarted s) eqn:Hg; cbn [negb] in Hclick; [|discriminate].
    assert (Hbid : bidOffered s playerIndex value = true)
      by (destruct (roundPhase s); done).
    unfold bidOffered, isPlayerIndex in Hbid.
    apply andb_prop in Hbid as [[[Hi0 Hin]%andb_prop Hv0]%andb_prop Hvr].
    apply Z.leb_le in Hi0, Hv0, Hvr. apply Z.ltb_lt in Hin.
    destruct (Hdata eq_refl) as [Hkeys Hentries].
    destruct (proj2 (Hkeys playerIndex)) as [d Hd]; [lia|].
    destruct (entryInBounds_inv _ _ (Hentries _ _ Hd))
      as (t & p & k & Htr & Hpc & Hsk & Hb & Ht & Hp).
    eapply (Hentry _ playerIndex d);
      [exact Hd | done | done | done | reflexivity | done | done |].
    rewrite Hd. cbn [withBid]. rewrite Htr, Hpc, Hsk.
    by apply entryInBounds_intro.
  - (* UpdateTricks *)
    unfold updateTricks.
    destruct (roundData s !! playerIndex) as [d|] eqn:Hd; [|by apply Hframe].
    destruct (gameStarted s) eqn:Hg; cbn [negb] in Hclick; [|discriminate].
    destruct (Hdata eq_refl) as [Hkeys Hentries].
    destruct (entryInBounds_inv _ _ (Hentries _ _ Hd))
      as (t & p & k & Htr & Hpc & Hsk & Hb & Ht & Hp).
    eapply (Hentry _ playerIndex d);
      [exact Hd | done | done | done | reflexivity | done | done |].
    rewrite Htr, Hpc, Hsk. cbn. apply entryInBounds_intro; lia.
  - (* UpdatePiratesCapture *)
    unfold updatePiratesCapture.
    destruct (roundData s !! playerIndex) as [d|] eqn:Hd; [|by apply Hframe].
    destruct (gameStarted s) eqn:Hg; cbn [negb] in Hclick; [|discriminate].
    destruct (Hdata eq_refl) as [Hkeys Hentries].
    destruct (entryInBounds_inv _ _ (Hentries _ _ Hd))
      as (t & p & k & Htr & Hpc & Hsk & Hb & Ht & Hp).
    eapply (Hentry _ playerIndex d);
      [exact Hd | done | done | done | reflexivity | done | done |].
    rewrite Htr, Hpc, Hsk. cbn. apply entryInBounds_intro; lia.
  - (* ToggleSkullKingCapture *)
    unfold toggleSkullKingCapture.
    destruct (roundData s !! playerIndex) as [d|] eqn:Hd; [|by apply Hframe].
    destruct (gameStarted s) eqn:Hg; cbn [negb] in Hclick; [|discriminate].
    destruct (Hdata eq_refl) as [Hkeys Hentries].
    destruct (entryInBounds_inv _ _ (Hentries _ _ Hd))
      as (t & p & k & Htr & Hpc & Hsk & Hb & Ht & Hp).
    eapply (Hentry _ playerIndex d);
      [exact Hd | done | done | done | reflexivity | done | done |].
    rewrite Htr, Hpc, Hsk. cbn. apply entryInBounds_intro; lia.
  - (* ConfirmBids *)
    destruct (gameStarted s) eqn:Hg; cbn [negb] in Hclick; [|discriminate].
    unfold confirmBids. rewrite savePhaseSnapshot_contents.
    split; cbn; rewrite ?Hg; try done.
    intros snap [-> | Hin]%elem_of_pushSnapshot; [|by apply Hsnaps].
    cbn. split; [by apply Hdata | done].
  - (* FinishRound *)
    destruct (gameStarted s) eqn:Hg; cbn [negb] in Hclick; [|discriminate].
    unfold afterFinishRound.
    destruct (finishRound s) as [| |s'] eqn:Hfin;
      [by apply Hframe; rewrite ?Hg.. |].
    apply finishRound_Finished in Hfin
      as (_ & updated & roundScores & Hsp & Hh' & Hps' & Hg' & _ & Hrest).
    cbn zeta in Hh'.
    pose proof (names_length _ _ (scorePlayers_names _ _ _ _ _ _ _ _ Hsp)) as Hlen.
    assert (Hscores' : integerScores (gameHistory s')).
    { rewrite Hh'. intros x i rs [-> | Hx]%elem_of_updateHistory; [|by eauto].
      cbn. apply (scorePlayers_integer _ _ _ _ _ _ (Hdata eq_refl) Hsp). }
    destruct (Z.ltb_spec (currentRound s) 10).
    + destruct Hrest as (Hl' & Hd' & Hr' & _).
      split; rewrite ?Hg', ?Hg, ?Hr', ?Hps', ?Hd', ?Hl'; try done.
      * intros _. apply RoundDataOk_fresh. lia.
      * intros snap [-> | Hin]%elem_of_pushSnapshot; [|by apply Hsnaps].
        cbn. split; [|by rewrite <- Hh'].
        apply (RoundDataOk_length _ (length (players s))); [done|].
        by apply Hdata.
    + destruct Hrest as (Hl' & Hd' & Hr' & _).
      split; rewrite ?Hg', ?Hg, ?Hr', ?Hps', ?Hd', ?Hl'; try done.
      intros _. apply (RoundDataOk_length _ (length (players s))); [done|].
      by apply Hdata.
  - (* Undo *)
    destruct (gameStarted s) eqn:Hg; cbn [negb] in Hclick; [|discriminate].
    destruct (performUndo_cases s) as [-> | (log & snap & Hlog & ->)];
      [by apply Hframe; rewrite ?Hg|].
    assert (Hsnap : snap ∈ phaseHistory s).
    { rewrite Hlog. apply elem_of_app. right. by left. }
    destruct (Hsnaps snap Hsnap) as [Hok Hint].
    split; cbn; try done.
    intros x Hin. apply Hsnaps. rewrite Hlog. apply elem_of_app. by left.
  - (* EndGameEarly *)
    destruct confirmed; by apply Hframe.
  - (* ResetGame *)
    split; cbn; try done.
    + intros e i rs Hin. by apply elem_of_nil in Hin.
    + intros snap Hin. by apply elem_of_nil in Hin.
Qed.

Lemma played_PlayedInvariant (s : State) : played s -> PlayedInvariant s.
Proof.
  induction 1 as [|s e Hplayed IH Hclick]; [apply PlayedInvariant_initial|].
  apply PlayedInvariant_step;
    [by apply reachable_Invariant, played_reachable | done | done].
Qed.

Lemma trickSum_integer (l : list PlayerRoundData) :
  Forall (fun d => exists t, tricks d = Some (Int t)) l ->
  exists z, trickSum l = Int z.
Proof.
  induction 1 as [|d l [t Ht] _ [z IH]]; cbn [trickSum foldr]; [by eexists|].
  unfold trickSum in IH. rewrite IH, Ht. cbn. by eexists.
Qed.

(** X17.  Whatever the user clicks, once the game has started the round
    data hold exactly one entry per player, each entry has all its
    properties, its bid and tricks lie between 0 and the round number
    and its pirates between 0 and 5.  So the trick total is an integer
    and [finishRound] never throws: it alerts or finishes. *)
Theorem played_round_data_well_formed (s : State) :
  played s ->
  gameStarted s = true ->
  (forall i, is_Some (roundData s !! i) <-> 0 <= i < Z.of_nat (length (players s))) /\
  (forall i d, roundData s !! i = Some d ->
     exists t p k,
       d = fullEntry (bid d) t p k /\
       0 <= bid d <= currentRound s /\ 0 <= t <= currentRound s /\ 0 <= p <= 5) /\
  (exists z, totalTricks (roundData s) = Int z) /\
  finishRound s <> TypeError.
Proof.
  intros Hplayed Hg.
  destruct (played_PlayedInvariant s Hplayed) as [Hdata _ _].
  destruct (Hdata Hg) as [Hkeys Hentries].
  split; [done|]. split; [done|]. split.
  - rewrite totalTricks_trickSum. apply trickSum_integer.
    apply Forall_fmap, Forall_forall. intros [i d] Hin.
    apply elem_of_map_to_list in Hin.
    destruct (entryInBounds_inv _ _ (Hentries _ _ Hin)) as (t & _ & _ & Ht & _).
    cbn. by exists t.
  - unfold finishRound. destruct (Num.strict_ne _ _); [done|].
    destruct (scorePlayers_total (currentRound s) (roundData s)
                (previousRounds (findRoundIndex (currentRound s) (gameHistory s))
                   (gameHistory s)) (players s) 0 ∅) as [[updated roundScores] ->].
    + intros j Hj. apply Hkeys. cbn. lia.
    + by destruct (currentRound s <? 10).
Qed.

Lemma played_round_data_well_formed_witness :
  finishRound afterClicks <> TypeError /\
  exists z, totalTricks (roundData afterClicks) = Int z.
Proof.
  assert (Hplayed : played afterClicks).
  { apply run_played; [apply played_init | by vm_compute]. }
  destruct (played_round_data_well_formed afterClicks Hplayed)
    as (_ & _ & Htotal & Hfin); [by vm_compute|].
  exact (conj Hfin Htotal).
Defined.

Lemma sumScores_integer (i : Z) (h : list GameHistoryEntry) :
  integerScores h -> exists z, sumScores i h = Int z.
Proof.
  induction h as [|e h IH]; intros Hint; [by exists 0|].
  rewrite sumScores_cons.
  destruct IH as [z Hz].
  { intros x j rs Hx. apply Hint. by right. }
  rewrite Hz. unfold scoreAt.
  destruct (scores e !! i) as [rs|] eqn:Hrs.
  - destruct (Hint e i rs) as [y Hy]; [by left | done |].
    rewrite Hy. cbn. by eexists.
  - cbn. by eexists.
Qed.

(** X18.  Whatever the user clicks, every score in the history and
    every total is an integer: [NaN] never shows. *)
Theorem played_totals_are_integers (s : State) :
  played s ->
  Forall (fun p => exists z, totalScore p = Int z) (players s) /\
  (forall e i rs, e ∈ gameHistory s -> scores e !! i = Some rs ->
     exists z, score rs = Int z).
Proof.
  intros Hplayed.
  destruct (played_PlayedInvariant s Hplayed) as [_ Hscores _].
  destruct (reachable_TotalsInvariant s (played_reachable s Hplayed)) as [_ Hlive _].
  split; [|done].
  apply Forall_forall. intros p Hp.
  apply list_elem_of_lookup in Hp as [i Hi].
  rewrite (Hlive i p Hi). by apply sumScores_integer.
Qed.

Lemma played_totals_are_integers_witness :
  Forall (fun p => exists z, totalScore p = Int z) (players afterClicks).
Proof.
  assert (Hplayed : played afterClicks).
  { apply run_played; [apply played_init | by vm_compute]. }
  exact (proj1 (played_totals_are_integers _ Hplayed)).
Defined.

Example afterClicks_totals :
  allClickable clicks initialState = true /\
  totalScore <$> players afterClicks = [Int 130; Int 40] /\
  currentRound afterClicks = 2 /\ roundPhase afterClicks = scoring.
Proof. by vm_compute. Qed.

(** ** The final standings *)

Lemma comesAfter_integer (a b : Player) :
  (exists x, totalScore a = Int x) -> (exists y, totalScore b = Int y) ->
  comesAfter a b = (totalOf a <? totalOf b).
Proof.
  intros [x Hx] [y Hy]. unfold comesAfter, byTotalDescending, totalOf.
  rewrite Hx, Hy. cbn.
  destruct (Z.ltb_spec 0 (y - x)), (Z.ltb_spec x y); done || lia.
Qed.

Lemma insertSorted_Permutation (a : Player) (l : list Player) :
  insertSorted a l ≡ₚ a :: l.
Proof.
  induction l as [|b l IH]; cbn; [done|].
  destruct (comesAfter a b); [|done].
  rewrite IH. apply Permutation_swap.
Qed.

Lemma sortedPlayers_Permutation (ps : list Player) : sortedPlayers ps ≡ₚ ps.
Proof.
  induction ps as [|a ps IH]; cbn; [done|].
  by rewrite insertSorted_Permutation, IH.
Qed.

Lemma insertSorted_descending (a : Player) (l : list Player) :
  integerTotals (a :: l) -> descending l -> descending (insertSorted a l).
Proof.
  unfold integerTotals.
  induction l as [|b l IH]; intros Hint Hdesc; cbn; [done|].
  apply Forall_cons in Hint as [Ha Hint].
  pose proof Hint as Hbl. apply Forall_cons in Hbl as [Hb Hl].
  destruct Hdesc as [Hbig Hdesc].
  rewrite (comesAfter_integer a b Ha Hb).
  destruct (Z.ltb_spec (totalOf a) (totalOf b)) as [Hlt|Hge]; cbn.
  - split.
    + rewrite insertSorted_Permutation. constructor; [lia | done].
    + apply IH; [by constructor | done].
  - split; [|done]. constructor; [done|].
    eapply Forall_impl; [exact Hbig|]. cbn. intros c Hc. lia.
Qed.

Lemma sortedPlayers_descending (ps : list Player) :
  integerTotals ps -> descending (sortedPlayers ps).
Proof.
  unfold integerTotals.
  induction ps as [|a ps IH]; intros Hint; cbn; [done|].
  apply Forall_cons in Hint as [Ha Hint].
  apply insertSorted_descending; [|by apply IH].
  constructor; [done|]. unfold integerTotals.
  by rewrite sortedPlayers_Permutation.
Qed.

Lemma insertSorted_filter (t : Z) (a : Player) (l : list Player) :
  integerTotals (a :: l) ->
  filter (fun p => totalOf p = t) (insertSorted a l)
  = filter (fun p => totalOf p = t) (a :: l).
Proof.
  unfold integerTotals.
  induction l as [|b l IH]; intros Hint; [done|].
  apply Forall_cons in Hint as [Ha Hint].
  apply Forall_cons in Hint as [Hb Hl].
  cbn [insertSorted]. rewrite (comesAfter_integer a b Ha Hb).
  destruct (Z.ltb_spec (totalOf a) (totalOf b)) as [Hlt|Hge]; [|done].
  specialize (IH (Forall_cons_2 _ _ _ Ha Hl)).
  destruct (decide (totalOf b = t)) as [Hbt|Hbt].
  - rewrite (filter_cons_True _ b) by done. rewrite IH.
    rewrite (filter_cons_False _ a) by lia.
    rewrite (filter_cons_False _ a) by lia.
    by rewrite (filter_cons_True _ b) by done.
  - rewrite (filter_cons_False _ b) by done. rewrite IH.
    destruct (decide (totalOf a = t)) as [Hat|Hat].
    + rewrite !(filter_cons_True _ a) by done.
      by rewrite (filter_cons_False _ b) by done.
    + rewrite !(filter_cons_False _ a) by done.
      by rewrite (filter_cons_False _ b) by done.
Qed.

Lemma sortedPlayers_filter (t : Z) (ps : list Player) :
  integerTotals ps ->
  filter (fun p => totalOf p = t) (sortedPlayers ps)
  = filter (fun p => totalOf p = t) ps.
Proof.
  unfold integerTotals.
  induction ps as [|a ps IH]; intros Hint; [done|].
  apply Forall_cons in Hint as [Ha Hint].
  cbn [sortedPlayers foldr]. fold (sortedPlayers ps).
  rewrite insertSorted_filter.
  - destruct (decide (totalOf a = t)).
    + rewrite !(filter_cons_True _ a) by done. by rewrite IH.
    + rewrite !(filter_cons_False _ a) by done. by rewrite IH.
  - constructor; [done|]. unfold integerTotals.
    by rewrite sortedPlayers_Permutation.
Qed.

Lemma descending_lookup (l : list Player) : forall i j a b,
  descending l -> (i < j)%nat -> l !! i = Some a -> l !! j = Some b ->
  totalOf b <= totalOf a.
Proof.
  induction l as [|x l IH]; intros i j a b Hdesc Hij Hi Hj; [done|].
  destruct Hdesc as [Hbig Hdesc].
  destruct j as [|j]; [lia|]. cbn in Hj.
  destruct i as [|i]; cbn in Hi.
  - injection Hi as <-. rewrite Forall_forall in Hbig. apply Hbig.
    by eapply list_elem_of_lookup_2.
  - apply (IH i j); [done | lia | done | done].
Qed.

(** X19.  With integer totals, the final standings list the same
    players, each once, in descending order of total; players with the
    same total keep the order in which they sat down; and the player
    crowned at the top has a total that nobody exceeds. *)
Theorem final_standings (ps : list Player) :
  integerTotals ps ->
  sortedPlayers ps ≡ₚ ps /\
  length (sortedPlayers ps) = length ps /\
  (forall i j a b,
     (i < j)%nat -> sortedPlayers ps !! i = Some a -> sortedPlayers ps !! j = Some b ->
     totalOf b <= totalOf a) /\
  (forall t,
     filter (fun p => totalOf p = t) (sortedPlayers ps)
     = filter (fun p => totalOf p = t) ps) /\
  (forall w, head (sortedPlayers ps) = Some w ->
     w ∈ ps /\ forall p, p ∈ ps -> totalOf p <= totalOf w).
Proof.
  intros Hint.
  pose proof (sortedPlayers_Permutation ps) as Hperm.
  pose proof (sortedPlayers_descending ps Hint) as Hdesc.
  split; [done|]. split; [by rewrite Hperm|]. split; [|split].
  - intros i j a b. by apply descending_lookup.
  - intros t. by apply sortedPlayers_filter.
  - intros w Hw. destruct (sortedPlayers ps) as [|x l] eqn:Hsorted; [done|].
    injection Hw as ->. split.
    + rewrite <- Hperm. by left.
    + intros p Hp. rewrite <- Hperm in Hp.
      destruct Hdesc as [Hbig _].
      apply elem_of_cons in Hp as [->|Hp]; [lia|].
      rewrite Forall_forall in Hbig. by apply Hbig.
Qed.

Lemma final_standings_witness :
  name <$> sortedPlayers
             [mkPlayer (text "A") (Int 30); mkPlayer (text "B") (Int 70); mkPlayer (text "C") (Int 30)]
  = [text "B"; text "A"; text "C"] /\
  sortedPlayers [mkPlayer (text "A") (Int 30); mkPlayer (text "B") (Int 70); mkPlayer (text "C") (Int 30)]
  ≡ₚ [mkPlayer (text "A") (Int 30); mkPlayer (text "B") (Int 70); mkPlayer (text "C") (Int 30)].
Proof.
  split; [reflexivity|].
  apply (final_standings
           [mkPlayer (text "A") (Int 30); mkPlayer (text "B") (Int 70); mkPlayer (text "C") (Int 30)]).
  repeat constructor; by eexists.
Defined.

(** Whatever the user clicks, the final standings are in
    descending order of total and hold exactly the players of the
    game. *)
Theorem played_standings (s : State) :
  played s ->
  sortedPlayers (players s) ≡ₚ players s /\
  forall i j a b,
    (i < j)%nat ->
    sortedPlayers (players s) !! i = Some a ->
    sortedPlayers (players s) !! j = Some b ->
    totalOf b <= totalOf a.
Proof.
  intros Hplayed.
  destruct (played_PlayedInvariant s Hplayed) as [_ Hscores _].
  destruct (reachable_TotalsInvariant s (played_reachable s Hplayed)) as [_ Hlive _].
  assert (Hint : integerTotals (players s)).
  { apply Forall_forall. intros p Hp.
    apply list_elem_of_lookup in Hp as [i Hi].
    rewrite (Hlive i p Hi). by apply sumScores_integer. }
  split; [apply sortedPlayers_Permutation|].
  intros i j a b. apply descending_lookup. by apply sortedPlayers_descending.
Qed.

Lemma played_standings_witness :
  sortedPlayers (players afterClicks) ≡ₚ players afterClicks.
Proof.
  assert (Hplayed : played afterClicks).
  { apply run_played; [apply played_init | by vm_compute]. }
  exact (proj1 (played_standings _ Hplayed)).
Defined.

(** ** Adding a player *)

Lemma trimStart_idempotent (l : jsString) : trimStart (trimStart l) = trimStart l.
Proof.
  induction l as [|a l IH]; [done|]. cbn.
  destruct (isWhiteSpace a) eqn:Ha; [done|]. cbn. by rewrite Ha.
Qed.

Lemma trimStart_head (l : jsString) :
  trimStart l = [] \/
  exists a l', trimStart l = a :: l' /\ isWhiteSpace a = false.
Proof.
  induction l as [|a l IH]; [by left|]. cbn.
  destruct (isWhiteSpace a) eqn:Ha; [done|]. right. by exists a, l.
Qed.

Lemma trimStart_snoc (l : jsString) (a : N) :
  isWhiteSpace a = false -> exists l', trimStart (l ++ [a]) = l' ++ [a].
Proof.
  intros Ha. induction l as [|b l [l' IH]]; cbn.
  - rewrite Ha. by exists [].
  - destruct (isWhiteSpace b); [by exists l'|]. by exists (b :: l).
Qed.

Lemma trim_chars (v : jsString) :
  let t := trim v in
  trimStart t = t /\ trimStart (rev t) = rev t.
Proof.
  cbn zeta. unfold trim.
  set (a := trimStart v).
  split; [|by rewrite rev_involutive, trimStart_idempotent].
  destruct (trimStart_head v) as [Hnil | (x & a' & Hcons & Hx)];
    fold a in Hnil || fold a in Hcons.
  - by rewrite Hnil.
  - rewrite Hcons. cbn [rev].
    destruct (trimStart_snoc (rev a') x Hx) as [l' ->].
    rewrite rev_app_distr. cbn. by rewrite Hx.
Qed.

Lemma trim_idempotent (v : jsString) : trim (trim v) = trim v.
Proof.
  destruct (trim_chars v) as [Hstart Hend].
  unfold trim at 1. by rewrite Hstart, Hend, rev_involutive.
Qed.

Lemma trimStart_split (l : jsString) :
  exists w, l = w ++ trimStart l /\ forallb isWhiteSpace w = true.
Proof.
  induction l as [|c l (w & Hl & Hw)]; [by exists []|]. cbn.
  destruct (isWhiteSpace c) eqn:Hc.
  - exists (c :: w). cbn. rewrite Hc, Hw. split; [by f_equal | done].
  - by exists [].
Qed.

Lemma forallb_rev {A} (f : A -> bool) (l : list A) :
  forallb f l = true -> forallb f (rev l) = true.
Proof.
  rewrite !forallb_forall. intros Hl x Hx. apply Hl. by apply in_rev.
Qed.

(** What [trim] leaves is the string without a run of white space at
    its start and one at its end. *)
Lemma trim_split (v : jsString) :
  exists before after,
    v = before ++ trim v ++ after /\
    forallb isWhiteSpace before = true /\ forallb isWhiteSpace after = true.
Proof.
  destruct (trimStart_split v) as (w1 & Hv & Hw1).
  destruct (trimStart_split (rev (trimStart v))) as (w2 & Ha & Hw2).
  exists w1, (rev w2). split; [|split; [done | by apply forallb_rev]].
  unfold trim. rewrite <- rev_app_distr, <- Ha, rev_involutive. done.
Qed.

(** X20.  [addPlayer] takes the typed name when it is not blank and
    fewer than 6 players are there: it appends a player with the trimmed
    name and a total of 0, empties the input and touches nothing else.
    The stored name is the typed one without the white space at its two
    ends, be it ASCII or not; it is not empty, neither starts nor ends
    with white space, and trimming it again changes nothing.  In every
    other case [addPlayer] does nothing. *)
Theorem addPlayer_appends_trimmed (s : State) :
  (nonEmpty (trim (playerName s)) = true /\ (length (players s) < 6)%nat ->
   addPlayer s
   = setPlayerName []
       (setPlayers (players s ++ [mkPlayer (trim (playerName s)) (Int 0)]) s) /\
   trim (playerName s) <> [] /\
   (exists before after,
      playerName s = before ++ trim (playerName s) ++ after /\
      forallb isWhiteSpace before = true /\ forallb isWhiteSpace after = true) /\
   (exists first, head (trim (playerName s)) = Some first /\ isWhiteSpace first = false) /\
   (exists final, last (trim (playerName s)) = Some final /\ isWhiteSpace final = false) /\
   trim (trim (playerName s)) = trim (playerName s) /\
   (length (players (addPlayer s)) <= 6)%nat) /\
  (nonEmpty (trim (playerName s)) = false \/ (6 <= length (players s))%nat ->
   addPlayer s = s).
Proof.
  unfold addPlayer. split.
  - intros [Hname Hlen]. rewrite Hname.
    destruct (Nat.ltb_spec (length (players s)) 6); [|lia]. cbn [andb].
    split; [done|]. split; [by apply nonEmpty_ne|].
    split; [apply trim_split|].
    destruct (trim_chars (playerName s)) as [Hstart Hend]. cbv zeta in Hstart, Hend.
    split; [|split; [|split; [apply trim_idempotent|]]].
    + destruct (trimStart_head (trim (playerName s))) as [Hnil | (c & l & Hc & Hw)];
        rewrite Hstart in *.
      * by rewrite Hnil in Hname.
      * exists c. by rewrite Hc.
    + destruct (trimStart_head (rev (trim (playerName s)))) as [Hnil | (c & l & Hc & Hw)];
        rewrite Hend in *.
      * apply (f_equal (@rev N)) in Hnil. rewrite rev_involutive in Hnil.
        by rewrite Hnil in Hname.
      * exists c. split; [|done].
        apply (f_equal (@rev N)) in Hc. rewrite rev_involutive in Hc.
        rewrite Hc. cbn [rev]. by rewrite last_snoc.
    + cbn. rewrite length_app. cbn. lia.
  - intros [Hname | Hlen].
    + by rewrite Hname.
    + destruct (Nat.ltb_spec (length (players s)) 6); [lia|].
      by rewrite andb_false_r.
Qed.

Lemma addPlayer_appends_trimmed_witness :
  name <$> players (addPlayer (setPlayerName (160%N :: text "  Anne Bonny ") crewOfTwo))
  = [text "A"; text "B"; text "Anne Bonny"].
Proof.
  destruct (addPlayer_appends_trimmed
              (setPlayerName (160%N :: text "  Anne Bonny ") crewOfTwo))
    as [Hadd _].
  destruct Hadd as (Heq & _); [split; [reflexivity | vm_compute; lia]|].
  rewrite Heq. reflexivity.
Defined.

(** A name that consists of a no-break space and a space is blank:
    [addPlayer] does not take it. *)
Example addPlayer_refuses_blank_name :
  trim [160%N; 32%N] = [] /\ addPlayer blankName = blankName.
Proof. by vm_compute. Qed.

(** ** Calls that do nothing *)

(** X21.  The guarded handlers do nothing when their guard fails: the
    three stepper handlers on an index without entry, [startGame] with
    fewer than 2 players, [performUndo] on an empty log, and the two
    confirmations when the user declines. *)
Theorem guards_leave_the_session (s : State) :
  (forall i d, roundData s !! i = None ->
     updateTricks i d s = s /\ updatePiratesCapture i d s = s /\
     toggleSkullKingCapture i s = s) /\
  ((length (players s) < 2)%nat -> startGame s = s) /\
  (phaseHistory s = [] -> performUndo s = s) /\
  clearPlayers false s = s /\
  endGameEarly false s = s.
Proof.
  destruct (guarded_calls_are_noops s) as (Ht & Hp & Hk & Hstart & _ & _ & Hundo).
  repeat split; auto.
Qed.

Lemma guards_leave_the_session_witness :
  updateTricks 5 1 noTricksYet = noTricksYet /\
  startGame initialState = initialState /\
  performUndo initialState = initialState.
Proof.
  destruct (guards_leave_the_session noTricksYet) as (Hsteppers & _).
  destruct (guards_leave_the_session initialState) as (_ & Hstart & Hundo & _).
  split; [|split].
  - apply (Hsteppers 5 1). reflexivity.
  - apply Hstart. cbn. lia.
  - apply Hundo. reflexivity.
Defined.

(** ** The older copy, compared *)

(** X22.  The stepper handlers of the older copy do what the current
    ones do on an index that has an entry, and throw where the current
    ones return. *)
Theorem Legacy_steppers (s : State) (i d : Z) :
  (is_Some (roundData s !! i) ->
   Legacy.updateTricks i d s = Some (updateTricks i d s) /\
   Legacy.updatePiratesCapture i d s = Some (updatePiratesCapture i d s) /\
   Legacy.toggleSkullKingCapture i s = Some (toggleSkullKingCapture i s)) /\
  (roundData s !! i = None ->
   Legacy.updateTricks i d s = None /\
   Legacy.updatePiratesCapture i d s = None /\
   Legacy.toggleSkullKingCapture i s = None).
Proof.
  split; [apply Legacy_steppers_agree | apply Legacy_steppers_throw].
Qed.

Lemma Legacy_steppers_witness :
  Legacy.updateTricks 1 1 noTricksYet = Some (updateTricks 1 1 noTricksYet) /\
  Legacy.updateTricks 5 1 noTricksYet = None.
Proof.
  destruct (Legacy_steppers noTricksYet 1 1) as [Hsome _].
  destruct (Legacy_steppers noTricksYet 5 1) as [_ Hnone].
  destruct Hsome as (Ht & _); [by eexists|].
  destruct Hnone as (Hn & _); [reflexivity|].
  exact (conj Ht Hn).
Defined.

Lemma Legacy_finishRound_no_alert (s : State) (total : num) (r : Z) :
  Legacy.finishRound s <> ValidationAlert total r.
Proof.
  unfold Legacy.finishRound.
  destruct (Legacy.scorePlayers _ _ _ _ _ _) as [[updated roundScores]|]; [|done].
  by destruct (currentRound s <? 10).
Qed.

(** X23.  The older [finishRound] never alerts.  When the tricks add up
    and the history scores every player in every round, it does exactly
    what the current one does; when the tricks do not add up and every
    player has a round entry and is scored in every round of the
    history, it finishes the round all the same. *)
Theorem Legacy_finishRound_compared (s : State) :
  (forall j, (j < length (players s))%nat ->
     Forall (fun e => is_Some (scores e !! Z.of_nat j)) (gameHistory s)) ->
  (forall total r, Legacy.finishRound s <> ValidationAlert total r) /\
  (totalTricks (roundData s) = Int (currentRound s) ->
   Legacy.finishRound s = finishRound s) /\
  ((forall j, (j < length (players s))%nat -> is_Some (roundData s !! Z.of_nat j)) ->
   exists s', Legacy.finishRound s = Finished s').
Proof.
  intros Hall. split; [intros; apply Legacy_finishRound_no_alert|]. split.
  - intros Hsum. by apply Legacy_finishRound_agree.
  - intros Hentries. unfold Legacy.finishRound.
    rewrite Legacy_scorePlayers_agree.
    + destruct (scorePlayers_total (currentRound s) (roundData s)
                  (previousRounds (findRoundIndex (currentRound s) (gameHistory s))
                     (gameHistory s)) (players s) 0 ∅ Hentries)
        as [[updated roundScores] ->].
      destruct (currentRound s <? 10); eauto.
    + intros j Hj. specialize (Hall j Hj). cbn [Nat.add].
      unfold previousRounds. destruct (findRoundIndex _ _) as [k|]; [|done].
      apply Forall_app. split; [by apply Forall_take | by apply Forall_drop].
Qed.

Lemma Legacy_finishRound_compared_witness :
  exists s', Legacy.finishRound noTricksYet = Finished s'.
Proof.
  destruct (Legacy_finishRound_compared noTricksYet) as (_ & _ & Hfin).
  - intros j Hj. constructor.
  - apply Hfin. intros j Hj.
    destruct j as [|[|[|j]]]; [by eexists.. | cbn in Hj; lia].
Defined.

(** ** One snapshot per checkpoint *)

Lemma LogExact_initial : LogExact initialState.
Proof. split; cbn; [done|]. intros k snap Hk. by rewrite lookup_nil in Hk. Qed.

Lemma LogExact_step (s : State) (e : Event) :
  Invariant s -> LogExact s -> offered s e = true -> LogExact (handle e s).
Proof.
  intros Hinv [Hlive Hsnaps] Hoff.
  assert (Hframe : forall s',
             gameStarted s' = gameStarted s -> currentRound s' = currentRound s ->
             roundPhase s' = roundPhase s -> phaseHistory s' = phaseHistory s ->
             LogExact s').
  { intros s' Hg Hr Hp Hl. split; rewrite ?Hg, ?Hr, ?Hp, ?Hl; done. }
  assert (Hsetup : forall s',
             gameStarted s = false -> gameStarted s' = false ->
             phaseHistory s' = phaseHistory s -> LogExact s').
  { intros s' Hg Hg' Hl. split; rewrite ?Hg', ?Hl; done. }
  pose proof (inv_round s Hinv) as Hround.
  pose proof (inv_log s Hinv) as Hlen.
  assert (Hroom : (length (phaseHistory s) < 20)%nat).
  { pose proof (checkpoints_le_19 (roundPhase s) (currentRound s)). lia. }
  destruct e; cbn [handle].
  - (* TypeName *) by apply Hframe.
  - (* AddPlayer *) unfold addPlayer. destruct (_ && _); by apply Hframe.
  - (* RemovePlayer *) by apply Hframe.
  - (* ClearPlayers *) destruct confirmed; by apply Hframe.
  - (* StartGame *)
    on_screen Hoff s. unfold startGame. rewrite Hoff.
    destruct (inv_setup s Hinv Hg) as (Hr1 & Hp1 & _).
    split; cbn.
    + intros _ _. by rewrite Hr1, Hp1.
    + intros k snap Hk. by rewrite lookup_nil in Hk.
  - (* SetBid *) by apply Hframe.
  - (* UpdateTricks *)
    unfold updateTricks. destruct (roundData s !! playerIndex); by apply Hframe.
  - (* UpdatePiratesCapture *)
    unfold updatePiratesCapture. destruct (roundData s !! playerIndex); by apply Hframe.
  - (* ToggleSkullKingCapture *)
    unfold toggleSkullKingCapture. destruct (roundData s !! playerIndex); by apply Hframe.
  - (* ConfirmBids *)
    on_screen Hoff s.
    unfold confirmBids. rewrite savePhaseSnapshot_contents.
    assert (Hnow : Z.of_nat (length (phaseHistory s)) = checkpoints bidding (currentRound s)).
    { by apply Hlive. }
    split; cbn; rewrite pushSnapshot_room by done.
    + intros _ _. rewrite length_app. cbn in *. lia.
    + intros k snap [[_ Hk] | [-> <-]]%lookup_snoc_Some; [by apply Hsnaps|].
      cbn. by rewrite Hp.
  - (* FinishRound *)
    on_screen Hoff s.
    unfold afterFinishRound.
    destruct (finishRound s) as [| |s'] eqn:Hfin;
      [by apply Hframe; rewrite ?Hp.. |].
    apply finishRound_Finished in Hfin
      as (_ & updated & roundScores & _ & _ & _ & Hg' & _ & Hrest).
    assert (Hnow : Z.of_nat (length (phaseHistory s)) = checkpoints scoring (currentRound s)).
    { by apply Hlive. }
    destruct (currentRound s <? 10).
    + destruct Hrest as (Hl' & _ & Hr' & Hp').
      rewrite pushSnapshot_room in Hl' by done.
      split; rewrite ?Hr', ?Hp', ?Hl'.
      * intros _ _. rewrite length_app. cbn in *. lia.
      * intros k snap [[_ Hk] | [-> <-]]%lookup_snoc_Some; [by apply Hsnaps|].
        done.
    + destruct Hrest as (Hl' & _ & Hr' & Hp').
      split; rewrite ?Hr', ?Hp', ?Hl'; [|done].
      by intros _ Hne.
  - (* Undo *)
    destruct (performUndo_cases s) as [-> | (log & snap & Hlog & ->)];
      [by apply Hframe|].
    split; cbn.
    + intros _ _. apply Hsnaps. rewrite Hlog. by apply list_lookup_middle.
    + intros k x Hk. apply Hsnaps. rewrite Hlog. by apply lookup_app_l_Some.
  - (* EndGameEarly *)
    destruct confirmed; [|by apply Hframe].
    split; cbn; [|done]. by intros _ Hne.
  - (* ResetGame *)
    split; cbn; [done|]. intros k snap Hk. by rewrite lookup_nil in Hk.
Qed.

Lemma reachable_LogExact (s : State) : reachable s -> LogExact s.
Proof.
  induction 1 as [|s e Hreach IH Hoff]; [apply LogExact_initial|].
  apply LogExact_step; [by apply reachable_Invariant | done | done].
Qed.

Lemma performUndo_nonempty (s : State) :
  phaseHistory s <> [] ->
  exists log snap,
    phaseHistory s = log ++ [snap] /\
    performUndo s
    = mkState (gameStarted s) (PhaseSnapshot.players snap) (playerName s)
              (PhaseSnapshot.currentRound snap) (PhaseSnapshot.roundPhase snap)
              (PhaseSnapshot.roundData snap) (PhaseSnapshot.gameHistory snap) log.
Proof.
  intros Hne.
  destruct (phaseHistory s) as [|snap log _] eqn:Hlog using rev_ind; [done|].
  exists log, snap. split; [done|]. by apply performUndo_snoc.
Qed.

(** X24.  While a game runs, the undo log holds exactly one snapshot
    per checkpoint passed: 2(r - 1) during the bidding of round r and
    2r - 1 during its scoring.  So there is nothing to undo exactly at
    the very start, in the bidding of round 1, and each undo leads one
    checkpoint back. *)
Theorem one_snapshot_per_checkpoint (s : State) :
  reachable s ->
  gameStarted s = true ->
  roundPhase s <> complete ->
  Z.of_nat (length (phaseHistory s)) = checkpoints (roundPhase s) (currentRound s) /\
  (phaseHistory s = [] <-> currentRound s = 1 /\ roundPhase s = bidding) /\
  (phaseHistory s <> [] ->
   roundPhase (performUndo s) <> complete /\
   checkpoints (roundPhase (performUndo s)) (currentRound (performUndo s))
   = checkpoints (roundPhase s) (currentRound s) - 1).
Proof.
  intros Hreach Hg Hp.
  pose proof (reachable_Invariant s Hreach) as Hinv.
  destruct (reachable_LogExact s Hreach) as [Hlive Hsnaps].
  pose proof (inv_round s Hinv) as Hround.
  specialize (Hlive Hg Hp).
  split; [done|]. split; [split|].
  - intros Hnil. rewrite Hnil in Hlive. cbn in Hlive.
    destruct (roundPhase s); cbn in Hlive; [split; [lia | done] | lia | done].
  - intros [Hr1 Hb]. rewrite Hr1, Hb in Hlive. cbn in Hlive.
    by destruct (phaseHistory s).
  - intros Hne.
    destruct (performUndo_nonempty s Hne) as (log & snap & Hlog & ->).
    cbn. assert (Hk : phaseHistory s !! length log = Some snap).
    { rewrite Hlog. by apply list_lookup_middle. }
    destruct (inv_snapshots s Hinv _ _ Hk) as (_ & Hsp & _).
    split; [done|]. rewrite <- (Hsnaps _ _ Hk), <- Hlive, Hlog, length_app.
    cbn. lia.
Qed.

Lemma one_snapshot_per_checkpoint_witness :
  Z.of_nat (length (phaseHistory afterClicks))
  = checkpoints (roundPhase afterClicks) (currentRound afterClicks).
Proof.
  assert (Hreach : reachable afterClicks).
  { apply played_reachable, run_played; [apply played_init | by vm_compute]. }
  assert (Hg : gameStarted afterClicks = true) by (vm_compute; reflexivity).
  assert (Hp : roundPhase afterClicks <> complete) by (vm_compute; discriminate).
  destruct (one_snapshot_per_checkpoint afterClicks Hreach Hg Hp) as (Hlen & _).
  exact Hlen.
Defined.

Example afterClicks_checkpoints :
  length (phaseHistory afterClicks) = 3%nat /\
  checkpoints (roundPhase afterClicks) (currentRound afterClicks) = 3 /\
  checkpoints (roundPhase (performUndo afterClicks))
              (currentRound (performUndo afterClicks)) = 2.
Proof. by vm_compute. Qed.

(** ** History entries are replaced in place *)

(** The scores [finishRound] enters: for every player the entry of the
    round data with the score computed from it, and nothing else. *)
Lemma scorePlayers_scores r m prev ps updated roundScores :
  scorePlayers r m prev 0 ps ∅ = Some (updated, roundScores) ->
  (forall i, 0 <= i < Z.of_nat (length ps) ->
     exists data,
       m !! i = Some data /\
       roundScores !! i = Some (mkRoundScore data (calculateScore r data))) /\
  (forall i, ~ (0 <= i < Z.of_nat (length ps)) -> roundScores !! i = None).
Proof.
  intros Hsp.
  destruct (scorePlayers_spec _ _ _ _ _ _ _ _ Hsp) as (Hlen & Hkeep & Hplayers).
  split.
  - intros i Hi.
    destruct (lookup_lt_is_Some_2 updated (Z.to_nat i)) as [p' Hp']; [lia|].
    destruct (Hplayers _ _ Hp') as (p & d & _ & Hd & _ & Hrs).
    cbn [Nat.add] in Hd, Hrs. rewrite Z2Nat.id in Hd, Hrs by lia.
    by exists d.
  - intros i Hi. rewrite Hkeep by (cbn; lia). apply lookup_empty.
Qed.

(** C8.  In every reachable state the history holds at most one entry
    per round number.  When [finishRound] succeeds it enters the entry
    of the current round, which holds for every player the round data
    and the score computed from them.  If the history has an entry for
    the current round, the new entry takes its position, the length
    stays and no other position changes; otherwise no entry has this
    round number and the new entry goes to the end.  Either way the
    history keeps one entry per round. *)
Theorem history_one_entry_per_round (s : State) :
  reachable s ->
  uniqueRounds (gameHistory s) /\
  forall s', finishRound s = Finished s' ->
    uniqueRounds (gameHistory s') /\
    exists e,
      round e = currentRound s /\
      (forall i, 0 <= i < Z.of_nat (length (players s)) ->
         exists data,
           roundData s !! i = Some data /\
           scores e !! i
           = Some (mkRoundScore data (calculateScore (currentRound s) data))) /\
      (forall i, ~ (0 <= i < Z.of_nat (length (players s))) -> scores e !! i = None) /\
      match findRoundIndex (currentRound s) (gameHistory s) with
      | Some k =>
          exists e0,
            gameHistory s !! k = Some e0 /\ round e0 = currentRound s /\
            gameHistory s' = <[k := e]> (gameHistory s) /\
            gameHistory s' !! k = Some e /\
            (forall j, j <> k -> gameHistory s' !! j = gameHistory s !! j) /\
            length (gameHistory s') = length (gameHistory s)
      | None =>
          (currentRound s ∉ (round <$> gameHistory s)) /\
          gameHistory s' = gameHistory s ++ [e]
      end.
Proof.
  intros Hreach.
  pose proof (inv_history s (reachable_Invariant s Hreach)) as Hu.
  split; [done|]. intros s' Hfin.
  apply finishRound_Finished in Hfin
    as (_ & updatedPlayers & roundScores & Hsp & Hh' & _).
  cbn zeta in Hh'. rewrite Hh'. split; [by apply updateHistory_unique|].
  destruct (scorePlayers_scores _ _ _ _ _ _ Hsp) as [Hin Hout].
  exists {| round := currentRound s; scores := roundScores |}.
  split; [done|]. split; [done|]. split; [done|].
  destruct (findRoundIndex _ _) as [k|] eqn:Hfind.
  - destruct (findRoundIndex_Some _ _ _ Hfind) as (e0 & Hk & Hr0 & _).
    exists e0. rewrite (updateHistory_Some _ _ _ _ Hk).
    split; [done|]. split; [done|]. split; [done|].
    split; [apply list_lookup_insert_eq; by eapply lookup_lt_Some|].
    split; [|apply length_insert].
    intros j Hj. by apply list_lookup_insert_ne.
  - split; [by apply findRoundIndex_None | done].
Qed.

Lemma history_one_entry_per_round_witness :
  uniqueRounds (gameHistory roundOneRevised) /\
  scoreAt 0 <$> gameHistory roundOneRevised = [Int 10] /\
  scoreAt 0 <$> gameHistory (afterFinishRound roundOneRevised) = [Int (-10)].
Proof.
  assert (Hreach : reachable roundOneRevised)
    by (apply run_reachable; [apply reachable_init | by vm_compute]).
  destruct (history_one_entry_per_round roundOneRevised Hreach) as [Hu _].
  split; [exact Hu|]. split; by vm_compute.
Defined.

(** ** The exact model and the machine agree on a session *)

(** Whatever the user clicks, the score of every round entry is the same
    in the machine's arithmetic as with exact integers. *)
Lemma played_scores_exact (s : State) (i : Z) (d : PlayerRoundData) :
  played s -> gameStarted s = true -> roundData s !! i = Some d ->
  Double.calculateScore (currentRound s) d
  = Double.of_num (calculateScore (currentRound s) d).
Proof.
  intros Hplayed Hg Hd.
  pose proof (inv_round s (reachable_Invariant s (played_reachable s Hplayed))) as Hr.
  destruct (ok_entries _ _ _ (played_data s (played_PlayedInvariant s Hplayed) Hg) i d Hd)
    as (t & p & k & -> & Hb & Ht & Hp).
  assert (H53 : 2 ^ 53 = 9007199254740992) by reflexivity.
  cbn [bid fullEntry] in Hb. apply calculateScore_exact; cbn [bid fullEntry]; lia.
Qed.

(** ** The older copy, played *)

Lemma Legacy_scorePlayers_length r m prev ps : forall i acc updated roundScores,
  Legacy.scorePlayers r m prev i ps acc = Some (updated, roundScores) ->
  length updated = length ps.
Proof.
  induction ps as [|player ps IH]; intros i acc updated roundScores Hsp;
    cbn [Legacy.scorePlayers] in Hsp.
  - by injection Hsp as <- <-.
  - destruct (m !! Z.of_nat i) as [data|]; [|discriminate].
    destruct (Legacy.sumScoresFrom _ _ _) as [previousTotal|]; [|discriminate].
    destruct (Legacy.scorePlayers r m prev (S i) ps _) as [[updated' roundScores']|] eqn:Hrest;
      [|discriminate].
    injection Hsp as <- <-. cbn. f_equal. by eapply IH.
Qed.

Lemma Legacy_finishRound_Finished (s s' : State) :
  Legacy.finishRound s = Finished s' ->
  exists updatedPlayers updatedHistory,
    length updatedPlayers = length (players s) /\
    gameStarted s' = gameStarted s /\
    players s' = updatedPlayers /\
    if currentRound s <? 10 then
      phaseHistory s'
      = pushSnapshot
          {| PhaseSnapshot.roundData := roundData s;
             PhaseSnapshot.players := updatedPlayers;
             PhaseSnapshot.currentRound := currentRound s;
             PhaseSnapshot.roundPhase := scoring;
             PhaseSnapshot.gameHistory := updatedHistory |} (phaseHistory s) /\
      roundData s' = freshRoundData updatedPlayers
    else
      phaseHistory s' = phaseHistory s /\ roundData s' = roundData s.
Proof.
  intros Hfin. unfold Legacy.finishRound in Hfin. cbv zeta in Hfin.
  destruct (Legacy.scorePlayers _ _ _ _ _ _) as [[updatedPlayers roundScores]|] eqn:Hsp;
    [|discriminate].
  exists updatedPlayers. eexists.
  split; [by eapply Legacy_scorePlayers_length|].
  destruct (currentRound s <? 10); inversion Hfin; subst s'; cbn;
    rewrite ?copyRoundData_id, ?copyPlayers_id, ?copyHistory_id; done.
Qed.

Lemma entriesMatch_fresh (ps : list Player) : Legacy.entriesMatch ps (freshRoundData ps).
Proof.
  intros i. rewrite freshRoundData_lookup. case_decide; [|split; [|done]].
  - split; [done | by eexists].
  - by intros [? ?].
Qed.

Lemma entriesMatch_insert ps m i d :
  Legacy.entriesMatch ps m -> is_Some (m !! i) ->
  Legacy.entriesMatch ps (<[i := d]> m).
Proof.
  intros Hm Hi j. destruct (decide (i = j)) as [<-|Hne].
  - rewrite lookup_insert_eq. split; [intros _; by apply Hm | by eexists].
  - rewrite lookup_insert_ne by done. apply Hm.
Qed.

Lemma entriesMatch_length ps ps' m :
  length ps = length ps' -> Legacy.entriesMatch ps m -> Legacy.entriesMatch ps' m.
Proof. intros Hlen Hm i. rewrite <- Hlen. apply Hm. Qed.

Lemma Legacy_Invariant_initial : Legacy.Invariant initialState.
Proof.
  split; cbn; try done.
  intros snap Hin. by apply elem_of_nil in Hin.
Qed.

Lemma Legacy_Invariant_step (s s' : State) (e : Event) :
  Legacy.Invariant s -> clickable s e = true -> Legacy.handle e s = Some s' ->
  Legacy.Invariant s'.
Proof.
  intros [Hsetup Hdata Hsnaps] Hclick Hstep.
  assert (Hframe : forall st,
             gameStarted st = gameStarted s -> currentRound st = currentRound s ->
             roundPhase st = roundPhase s -> length (players st) = length (players s) ->
             roundData st = roundData s -> phaseHistory st = phaseHistory s ->
             Legacy.Invariant st).
  { intros st Hg Hr Hp Hps Hd Hl. split; rewrite ?Hg, ?Hr, ?Hp, ?Hd, ?Hl; try done.
    intros Hgs. by apply (entriesMatch_length (players s)); [|apply Hdata]. }
  assert (Hwaiting : forall st,
             gameStarted s = false -> gameStarted st = false ->
             currentRound st = currentRound s -> roundPhase st = roundPhase s ->
             phaseHistory st = phaseHistory s ->
             Legacy.Invariant st).
  { intros st Hg Hg' Hr Hp Hl. split; rewrite ?Hg', ?Hr, ?Hp, ?Hl; try done.
    intros _. by apply Hsetup. }
  assert (Hentry : forall st i d,
             gameStarted s = true -> is_Some (roundData s !! i) ->
             gameStarted st = true -> players st = players s ->
             roundData st = <[i := d]> (roundData s) ->
             phaseHistory st = phaseHistory s ->
             Legacy.Invariant st).
  { intros st i d Hg Hi Hg' Hps Hd Hl. split; rewrite ?Hg', ?Hps, ?Hd, ?Hl; try done.
    intros _. apply entriesMatch_insert; [by apply Hdata | done]. }
  unfold clickable, screen in Hclick.
  destruct e; cbn [Legacy.handle handle] in Hstep.
  - (* TypeName *)
    injection Hstep as <-.
    destruct (gameStarted s) eqn:Hg; cbn [negb] in Hclick;
      [by destruct (roundPhase s)|]. by apply Hwaiting.
  - (* AddPlayer *)
    injection Hstep as <-.
    destruct (gameStarted s) eqn:Hg; cbn [negb] in Hclick;
      [by destruct (roundPhase s)|].
    unfold addPlayer. destruct (_ && _); by apply Hwaiting.
  - (* RemovePlayer *)
    injection Hstep as <-.
    destruct (gameStarted s) eqn:Hg; cbn [negb] in Hclick;
      [by destruct (roundPhase s)|]. by apply Hwaiting.
  - (* ClearPlayers *)
    injection Hstep as <-.
    destruct (gameStarted s) eqn:Hg; cbn [negb] in Hclick;
      [by destruct (roundPhase s)|].
    destruct confirmed; by apply Hwaiting.
  - (* StartGame *)
    injection Hstep as <-. unfold startGame.
    destruct (2 <=? _)%nat; [|by apply Hframe].
    split; cbn; try done.
    + intros _. apply entriesMatch_fresh.
    + intros snap Hin. by apply elem_of_nil in Hin.
  - (* SetBid *)
    injection Hstep as <-.
    destruct (gameStarted s) eqn:Hg; cbn [negb] in Hclick; [|discriminate].
    assert (Hbid : bidOffered s playerIndex value = true)
      by (destruct (roundPhase s); done).
    unfold bidOffered, isPlayerIndex in Hbid.
    apply andb_prop in Hbid as [[[Hi0 Hin]%andb_prop _]%andb_prop _].
    apply Z.leb_le in Hi0. apply Z.ltb_lt in Hin.
    eapply (Hentry _ playerIndex); [done | | done | done | reflexivity | done].
    apply (Hdata eq_refl). lia.
  - (* UpdateTricks *)
    unfold Legacy.updateTricks in Hstep.
    destruct (roundData s !! playerIndex) as [d|] eqn:Hd; [|discriminate].
    injection Hstep as <-.
    destruct (gameStarted s) eqn:Hg; cbn [negb] in Hclick; [|discriminate].
    eapply (Hentry _ playerIndex); [done | by rewrite Hd | done | done | reflexivity | done].
  - (* UpdatePiratesCapture *)
    unfold Legacy.updatePiratesCapture in Hstep.
    destruct (roundData s !! playerIndex) as [d|] eqn:Hd; [|discriminate].
    injection Hstep as <-.
    destruct (gameStarted s) eqn:Hg; cbn [negb] in Hclick; [|discriminate].
    eapply (Hentry _ playerIndex); [done | by rewrite Hd | done | done | reflexivity | done].
  - (* ToggleSkullKingCapture *)
    unfold Legacy.toggleSkullKingCapture in Hstep.
    destruct (roundData s !! playerIndex) as [d|] eqn:Hd; [|discriminate].
    injection Hstep as <-.
    destruct (gameStarted s) eqn:Hg; cbn [negb] in Hclick; [|discriminate].
    eapply (Hentry _ playerIndex); [done | by rewrite Hd | done | done | reflexivity | done].
  - (* ConfirmBids *)
    injection Hstep as <-.
    destruct (gameStarted s) eqn:Hg; cbn [negb] in Hclick; [|discriminate].
    unfold confirmBids. rewrite savePhaseSnapshot_contents.
    split; cbn; rewrite ?Hg; try done.
    intros snap [-> | Hin]%elem_of_pushSnapshot; [|by apply Hsnaps].
    cbn. by apply Hdata.
  - (* FinishRound *)
    destruct (gameStarted s) eqn:Hg; cbn [negb] in Hclick; [|discriminate].
    destruct (Legacy.finishRound s) as [| |st] eqn:Hfin;
      [injection Hstep as <-; by apply Hframe; rewrite ?Hg | discriminate |].
    injection Hstep as <-.
    apply Legacy_finishRound_Finished in Hfin
      as (updated & updatedHistory & Hlen & Hg' & Hps' & Hrest).
    destruct (currentRound s <? 10).
    + destruct Hrest as (Hl' & Hd').
      split; rewrite ?Hg', ?Hg, ?Hps', ?Hd', ?Hl'; try done.
      * intros _. apply entriesMatch_fresh.
      * intros snap [-> | Hin]%elem_of_pushSnapshot; [|by apply Hsnaps].
        cbn. apply (entriesMatch_length (players s)); [done | by apply Hdata].
    + destruct Hrest as (Hl' & Hd').
      split; rewrite ?Hg', ?Hg, ?Hps', ?Hd', ?Hl'; try done.
      intros _. apply (entriesMatch_length (players s)); [done | by apply Hdata].
  - (* Undo *)
    injection Hstep as <-.
    destruct (gameStarted s) eqn:Hg; cbn [negb] in Hclick; [|discriminate].
    destruct (performUndo_cases s) as [-> | (log & snap & Hlog & ->)];
      [by apply Hframe; rewrite ?Hg|].
    assert (Hsnap : snap ∈ phaseHistory s).
    { rewrite Hlog. apply elem_of_app. right. by left. }
    split; cbn; rewrite ?Hg; try done.
    + intros _. by apply Hsnaps.
    + intros x Hin. apply Hsnaps. rewrite Hlog. apply elem_of_app. by left.
  - (* EndGameEarly *)
    injection Hstep as <-.
    destruct (gameStarted s) eqn:Hg; cbn [negb] in Hclick; [|discriminate].
    destruct confirmed; [|by apply Hframe; rewrite ?Hg].
    split; cbn; rewrite ?Hg; try done.
  - (* ResetGame *)
    injection Hstep as <-.
    split; cbn; try done.
    intros snap Hin. by apply elem_of_nil in Hin.
Qed.

Lemma Legacy_played_Invariant (s : State) : Legacy.played s -> Legacy.Invariant s.
Proof.
  induction 1 as [|s e s' _ IH Hclick Hstep]; [apply Legacy_Invariant_initial|].
  by eapply Legacy_Invariant_step.
Qed.

(** ** Starting the game *)

(** The Set Sail button is rendered on the setup screen, with at least
    2 players. *)
Lemma startGame_button (s : State) :
  offered s StartGame = true
  <-> gameStarted s = false /\ (2 <= length (players s))%nat.
Proof.
  unfold offered, screen. destruct (gameStarted s); cbn [negb].
  - split; [by destruct (roundPhase s) | by intros [? _]].
  - rewrite Nat.leb_le. split; [done | by intros [_ ?]].
Qed.



(** ** Calls whose precondition is not met *)

Lemma preconditionMet_entry (s : State) (i : Z) :
  bool_decide (is_Some (roundData s !! i)) = false -> roundData s !! i = None.
Proof.
  intros Hi%bool_decide_eq_false. by apply eq_None_not_Some.
Qed.

(** Every control of a per-player operation belongs to a player, and in
    a started game every player has a round entry. *)
Lemma clickable_entry (s : State) (e : Event) (i : Z) :
  (gameStarted s = true -> Legacy.entriesMatch (players s) (roundData s)) ->
  clickable s e = true -> playerIndexOf e = Some i ->
  is_Some (roundData s !! i).
Proof.
  intros Hdata Hclick He. unfold clickable, screen in Hclick.
  destruct (gameStarted s) eqn:Hg; cbn [negb] in Hclick;
    [|destruct e; discriminate].
  assert (Hplayer : isPlayerIndex s i = true -> is_Some (roundData s !! i)).
  { unfold isPlayerIndex. intros [Hi0 Hin]%andb_prop.
    apply Z.leb_le in Hi0. apply Z.ltb_lt in Hin. by apply (Hdata eq_refl). }
  destruct e; try discriminate He; injection He as ->;
    destruct (roundPhase s); try discriminate Hclick;
    first [ unfold bidOffered in Hclick;
            apply andb_prop in Hclick as [[Hi _]%andb_prop _]; by apply Hplayer
          | apply andb_prop in Hclick as [Hi _]; by apply Hplayer ].
Qed.


